(** * European option pricing and implied volatility: a shallow embedding

    The two scripts of the repository are modelled here:

    - [main.py]: [BSM] (closed-form Black-Scholes-Merton price),
      [monte_carlo_option_pricing] and the statements the script runs when
      it is loaded;
    - [mc_simulation_of_implied_volatility.py]: [black_scholes],
      [implied_volatility] (Newton-Raphson) and
      [monte_carlo_volatility_smile].

    Numbers.  The scripts compute with NumPy [float64] scalars.  A value is
    modelled as an exact real number or one of the three IEEE special values
    (plus infinity, minus infinity, not-a-number).  The special values follow
    the IEEE rules NumPy applies (a division by zero is a warning and yields
    an infinity or a NaN, it is not an exception).  Arithmetic on finite
    values is exact: rounding, overflow, underflow and the sign of zero are
    not modelled, with one exception.  The solver compares the vega with
    zero, and the vega is zero when the density [norm.pdf] underflows, beyond
    about 38.6 standard deviations: that underflow is modelled.

    Exceptions.  A Python call either returns a value or raises; [result]
    records which, and the exception raised.

    Randomness.  The global NumPy generator is a state: an infinite sequence
    of standard-normal variates and the number of them already drawn.

    The normal distribution.  [norm.pdf] is the density
    [exp(-x^2/2) / sqrt(2 pi)] and [norm.cdf] its distribution function in
    the error-function form, one half plus the signed mass of the density
    between [0] and [x].  That the whole mass is [1], on which the sign of
    the closed-form prices rests, is proved in the last part of the file. *)

From Stdlib Require Import Reals Lra Lia List String Bool Arith.
Import ListNotations.

Open Scope string_scope.
Open Scope list_scope.
Open Scope R_scope.

(** ** NumPy scalars *)

Module Float64.

Inductive float64 : Type :=
| Fin (x : R)
| PInf
| NInf
| NaN.

Definition Rltb (x y : R) : bool := if Rlt_dec x y then true else false.
Definition Rleb (x y : R) : bool := if Rle_dec x y then true else false.
Definition Reqb (x y : R) : bool := if Req_dec_T x y then true else false.

(** [-a] *)
Definition fneg (a : float64) : float64 :=
  match a with
  | Fin x => Fin (- x)
  | PInf => NInf
  | NInf => PInf
  | NaN => NaN
  end.

(** [a + b] *)
Definition fadd (a b : float64) : float64 :=
  match a, b with
  | NaN, _ | _, NaN => NaN
  | Fin x, Fin y => Fin (x + y)
  | PInf, NInf | NInf, PInf => NaN
  | PInf, _ | _, PInf => PInf
  | NInf, _ | _, NInf => NInf
  end.

(** [a - b] *)
Definition fsub (a b : float64) : float64 := fadd a (fneg b).

(** The infinity with the sign of [x], for [x <> 0]. *)
Definition inf_of_sign (x : R) : float64 :=
  if Rltb 0 x then PInf else NInf.

(** [a * b]: zero times an infinity is NaN. *)
Definition fmul (a b : float64) : float64 :=
  match a, b with
  | NaN, _ | _, NaN => NaN
  | Fin x, Fin y => Fin (x * y)
  | Fin x, PInf | PInf, Fin x => if Reqb x 0 then NaN else inf_of_sign x
  | Fin x, NInf | NInf, Fin x => if Reqb x 0 then NaN else inf_of_sign (- x)
  | PInf, PInf | NInf, NInf => PInf
  | PInf, NInf | NInf, PInf => NInf
  end.

(** [a / b] on NumPy scalars: dividing by zero raises nothing; it yields an
    infinity with the sign of the numerator, or NaN for [0 / 0]. *)
Definition fdiv (a b : float64) : float64 :=
  match a, b with
  | NaN, _ | _, NaN => NaN
  | Fin x, Fin y =>
      if Reqb y 0 then (if Reqb x 0 then NaN else inf_of_sign x)
      else Fin (x / y)
  | Fin _, PInf | Fin _, NInf => Fin 0
  | PInf, Fin y => if Rltb y 0 then NInf else PInf
  | NInf, Fin y => if Rltb y 0 then PInf else NInf
  | PInf, PInf | PInf, NInf | NInf, PInf | NInf, NInf => NaN
  end.

(** [a ** 2] *)
Definition fsquare (a : float64) : float64 := fmul a a.

(** [abs(a)] *)
Definition fabs (a : float64) : float64 :=
  match a with
  | Fin x => Fin (Rabs x)
  | PInf | NInf => PInf
  | NaN => NaN
  end.

(** [a < b]: every comparison with NaN is false. *)
Definition flt (a b : float64) : bool :=
  match a, b with
  | NaN, _ | _, NaN => false
  | Fin x, Fin y => Rltb x y
  | NInf, NInf | PInf, _ => false
  | NInf, _ | Fin _, PInf => true
  | Fin _, NInf => false
  end.

(** [a <= b] *)
Definition fle (a b : float64) : bool :=
  match a, b with
  | NaN, _ | _, NaN => false
  | Fin x, Fin y => Rleb x y
  | NInf, _ | _, PInf => true
  | PInf, _ | Fin _, NInf => false
  end.

(** [a == b] *)
Definition feq (a b : float64) : bool :=
  match a, b with
  | Fin x, Fin y => Reqb x y
  | PInf, PInf | NInf, NInf => true
  | _, _ => false
  end.

(** Half the smallest positive [float64], [2^-1075]: a positive result that
    is not above it rounds to [0.0]. *)
Definition tiny : R := / 2 ^ 1075.

End Float64.

(** ** NumPy functions *)

Module np.

Import Float64.

(** [np.log] *)
Definition log (a : float64) : float64 :=
  match a with
  | Fin x => if Rltb 0 x then Fin (ln x) else if Reqb x 0 then NInf else NaN
  | PInf => PInf
  | NInf | NaN => NaN
  end.

(** [np.exp] *)
Definition exp (a : float64) : float64 :=
  match a with
  | Fin x => Fin (Rtrigo_def.exp x)
  | PInf => PInf
  | NInf => Fin 0
  | NaN => NaN
  end.

(** [np.sqrt] *)
Definition sqrt (a : float64) : float64 :=
  match a with
  | Fin x => if Rltb x 0 then NaN else Fin (R_sqrt.sqrt x)
  | PInf => PInf
  | NInf | NaN => NaN
  end.

(** [np.maximum(a, b)]: NaN propagates. *)
Definition maximum (a b : float64) : float64 :=
  match a, b with
  | NaN, _ | _, NaN => NaN
  | _, _ => if flt a b then b else a
  end.

(** The sum NumPy reduces an array to, from [0.0]. *)
Definition sum (xs : list float64) : float64 :=
  fold_left fadd xs (Fin 0).

(** [np.mean]: the sum over the number of elements; the mean of an empty
    array is [0.0 / 0], a NaN with a warning. *)
Definition mean (xs : list float64) : float64 :=
  fdiv (sum xs) (Fin (INR (List.length xs))).

(** [np.linspace(start, stop, num)] with the end point included:
    [start + i * step] with [step = (stop - start) / (num - 1)], the last
    sample being [stop] itself. *)
Definition linspace (start stop : float64) (num : nat) : list float64 :=
  match num with
  | O => []
  | S O => [start]
  | S (S k as div) =>
      let step := fdiv (fsub stop start) (Fin (INR div)) in
      map (fun i => fadd (fmul (Fin (INR i)) step) start) (seq 0 div)
        ++ [stop]
  end.


(** [np.random] *)
Module random.

(** The state of [np.random]: the sequence of standard-normal variates the
    generator yields, all finite, and how many of them are consumed. *)
Record generator : Type := {
  variates : nat -> R;
  consumed : nat
}.

(** The generator after [n] more draws. *)
Definition advance (n : nat) (g : generator) : generator :=
  {| variates := variates g; consumed := consumed g + n |}.

(** [np.random.standard_normal(N)] *)
Definition standard_normal (N : nat) (g : generator)
  : list float64 * generator :=
  (map (fun i => Fin (variates g (consumed g + i))) (seq 0 N), advance N g).

(** [np.random.normal(loc, scale, size)]: [loc + scale * z] for each of
    [size] standard-normal draws [z]. *)
Definition normal (loc scale : float64) (size : nat) (g : generator)
  : list float64 * generator :=
  let (zs, g') := standard_normal size g in
  (map (fun z => fadd loc (fmul scale z)) zs, g').

End random.

End np.

(** ** SciPy's standard normal distribution *)

Module Gaussian.

(** The density [exp(-x^2/2) / sqrt(2 pi)]. *)
Definition phi (x : R) : R :=
  Rtrigo_def.exp (- (x * x) / 2) / R_sqrt.sqrt (2 * PI).

Lemma phi_continuity : continuity phi.
Proof.
  unfold phi. intro x. reg.
Qed.

Lemma phi_integrable (a b : R) : a <= b -> Riemann_integrable phi a b.
Proof.
  intro Hab. apply continuity_implies_RiemannInt; [exact Hab|].
  intros x _. apply phi_continuity.
Defined.

(** The mass of the density between [0] and [|x|]. *)
Definition half_mass (x : R) : R :=
  RiemannInt (phi_integrable 0 (Rabs x) (Rabs_pos x)).

(** The distribution function, in the form SciPy evaluates it,
    [(1 + erf(x / sqrt 2)) / 2]: one half plus or minus the mass of the
    density between [0] and [|x|]. *)
Definition Phi (x : R) : R :=
  if Rle_dec 0 x then 1 / 2 + half_mass x else 1 / 2 - half_mass x.

(** The auxiliary integral that gives the total mass of the density: with
    [bell c x = exp(-c x^2 / 2)], the integral over [[0, 1]] of
    [bell (1 + t^2) x / ((1 + t^2) pi)] in [t], and of its derivative in
    [x]. *)
Definition bell (c x : R) : R := Rtrigo_def.exp (- c * (x * x) / 2).

(** The integrand. *)
Definition arc (x t : R) : R := bell (1 + t * t) x / (1 + t * t) / PI.

(** Its derivative in [x]. *)
Definition arc_slope (x t : R) : R := - x * bell (1 + t * t) x / PI.

Lemma one_plus_square_pos (t : R) : 0 < 1 + t * t.
Proof. nra. Qed.

Lemma arc_continuity (x : R) : continuity (arc x).
Proof.
  unfold arc, bell. intro t. reg.
  apply Rgt_not_eq, one_plus_square_pos.
Qed.

Lemma arc_slope_continuity (x : R) : continuity (arc_slope x).
Proof.
  unfold arc_slope, bell. intro t. reg.
Qed.

Lemma arc_integrable (x : R) : Riemann_integrable (arc x) 0 1.
Proof.
  apply continuity_implies_RiemannInt; [lra|].
  intros t _. apply arc_continuity.
Qed.

Lemma arc_slope_integrable (x : R) : Riemann_integrable (arc_slope x) 0 1.
Proof.
  apply continuity_implies_RiemannInt; [lra|].
  intros t _. apply arc_slope_continuity.
Qed.

(** The two integrals over [[0, 1]]. *)
Definition arc_integral (x : R) : R := RiemannInt (arc_integrable x).

Definition arc_slope_integral (x : R) : R :=
  RiemannInt (arc_slope_integrable x).

End Gaussian.

(** [scipy.stats.norm] *)
Module norm.

Import Float64 Gaussian.

(** [norm.pdf]: the density, [0.0] where it underflows. *)
Definition pdf (a : float64) : float64 :=
  match a with
  | Fin x => if Rleb (phi x) tiny then Fin 0 else Fin (phi x)
  | PInf | NInf => Fin 0
  | NaN => NaN
  end.

(** [norm.cdf] *)
Definition cdf (a : float64) : float64 :=
  match a with
  | Fin x => Fin (Phi x)
  | PInf => Fin 1
  | NInf => Fin 0
  | NaN => NaN
  end.

End norm.

(** ** Python exceptions *)

Module Python.

Inductive exn : Type :=
| ValueError (msg : string)
| UnboundLocalError (name : string).

(** The outcome of a call: the value returned or the exception raised. *)
Inductive result (A : Type) : Type :=
| Return (a : A)
| Raise (e : exn).

Arguments Return {A} a.
Arguments Raise {A} e.

Definition bind {A B : Type} (m : result A) (k : A -> result B) : result B :=
  match m with
  | Return a => k a
  | Raise e => Raise e
  end.

(** A list comprehension [[f x for x in xs]]: the first exception stops it. *)
Fixpoint comprehension {A B : Type} (f : A -> result B) (xs : list A)
  : result (list B) :=
  match xs with
  | [] => Return []
  | x :: xs' =>
      bind (f x) (fun y =>
      bind (comprehension f xs') (fun ys => Return (y :: ys)))
  end.

End Python.

(** ** main.py *)

Module Main.

Import Float64 Python.

(** [BSM(St, K, T, r, sigma, OPT)].  The arguments are NumPy scalars, as in
    the other script; the option type is any string. *)
Definition BSM (St K T r sigma : float64) (OPT : string) : float64 :=
  let d1 :=
    fdiv (fadd (np.log (fdiv St K))
               (fmul (fadd r (fmul (Fin 0.5) (fsquare sigma))) T))
         (fmul (np.sqrt T) sigma) in
  let d2 := fsub d1 (fmul sigma (np.sqrt T)) in
  if String.eqb OPT "call" then
    fsub (fmul St (norm.cdf d1))
         (fmul (fmul K (np.exp (fmul (fneg r) T))) (norm.cdf d2))
  else
    fadd (fmul (fneg St) (norm.cdf (fneg d1)))
         (fmul (fmul K (np.exp (fmul (fneg r) T))) (norm.cdf (fneg d2))).

(** [monte_carlo_option_pricing(S0, K, T, r, sigma, N, option_type)].
    [payoff] is bound by the [if] and by the [elif] only: with any other
    option type the last statement reads an unbound local variable. *)
Definition monte_carlo_option_pricing
  (S0 K T r sigma : float64) (N : nat) (option_type : string)
  (g : np.random.generator) : result float64 * np.random.generator :=
  let (Z, g') := np.random.standard_normal N g in
  let ST :=
    map (fun z =>
           fmul S0
             (np.exp (fadd (fmul (fsub r (fmul (Fin 0.5) (fsquare sigma))) T)
                        (fmul (fmul sigma z) (np.sqrt T))))) Z in
  let payoff : option (list float64) :=
    if String.eqb option_type "call" then
      Some (map (fun s => np.maximum (Fin 0) (fsub s K)) ST)
    else if String.eqb option_type "put" then
      Some (map (fun s => np.maximum (Fin 0) (fsub K s)) ST)
    else None in
  match payoff with
  | Some p => (Return (fmul (np.exp (fmul (fneg r) T)) (np.mean p)), g')
  | None => (Raise (UnboundLocalError "payoff"), g')
  end.

End Main.

(** ** The statements main.py runs when it is loaded *)

Set Warnings "-abstract-large-number".

Module Script.

Import Float64 Python.

(** [str.isspace] on an ASCII character: the codes 9 to 13 and 28 to 32. *)
Definition isspace (c : Ascii.ascii) : bool :=
  let n := Ascii.nat_of_ascii c in
  ((9 <=? n)%nat && (n <=? 13)%nat) || ((28 <=? n)%nat && (n <=? 32)%nat).

(** [str.lstrip()] *)
Fixpoint lstrip (s : string) : string :=
  match s with
  | EmptyString => EmptyString
  | String c s' => if isspace c then lstrip s' else s
  end.

(** [str.rstrip()] *)
Fixpoint rstrip (s : string) : string :=
  match s with
  | EmptyString => EmptyString
  | String c s' =>
      match rstrip s' with
      | EmptyString => if isspace c then EmptyString else String c EmptyString
      | t => String c t
      end
  end.

(** [str.strip()]: the whitespace of both ends is removed. *)
Definition strip (s : string) : string := rstrip (lstrip s).

(** [str.lower()] on an ASCII character: [A-Z] to [a-z]. *)
Definition lower_char (c : Ascii.ascii) : Ascii.ascii :=
  let n := Ascii.nat_of_ascii c in
  if ((65 <=? n)%nat && (n <=? 90)%nat)%bool then Ascii.ascii_of_nat (n + 32)
  else c.

(** [str.lower()] *)
Fixpoint lower (s : string) : string :=
  match s with
  | EmptyString => EmptyString
  | String c s' => String (lower_char c) (lower s')
  end.

(** The text is ASCII: [strip] and [lower] are Python's on such a text
    only. *)
Fixpoint isascii (s : string) : bool :=
  match s with
  | EmptyString => true
  | String c s' => (Ascii.nat_of_ascii c <? 128)%nat && isascii s'
  end.

(** What the first part of the script prints: the line with the option
    type and its price, or the line that refuses the answer.  The layout of
    the number is not modelled. *)
Inductive printed : Type :=
| price_line (option_type : string) (price : float64)
| invalid_line.

(** The first part of the script, for the answer typed at the prompt:
    [option_type = input(...).strip().lower()], then the price of
    [BSM(100, 105, 2, 0.05, 0.2, option_type)] when [option_type] is in
    [["put", "call"]]. *)
Definition option_price_script (answer : string) : printed :=
  let option_type := lower (strip answer) in
  if existsb (String.eqb option_type) ["put"; "call"] then
    price_line option_type
      (Main.BSM (Fin 100) (Fin 105) (Fin 2) (Fin 0.05) (Fin 0.2) option_type)
  else invalid_line.

(** The last part of the script: the Monte Carlo price of the call, then
    of the put, [N = 100000] scenarios each, from the state [g] of the
    generator.  An exception ends the script. *)
Definition monte_carlo_script (g : np.random.generator)
  : result (float64 * float64) * np.random.generator :=
  let S0 := Fin 100 in
  let K := Fin 105 in
  let T := Fin 1 in
  let r := Fin 0.04 in
  let sigma := Fin 0.2 in
  let N := 100000%nat in
  match Main.monte_carlo_option_pricing S0 K T r sigma N "call" g with
  | (Raise e, g1) => (Raise e, g1)
  | (Return call_price, g1) =>
      match Main.monte_carlo_option_pricing S0 K T r sigma N "put" g1 with
      | (Raise e, g2) => (Raise e, g2)
      | (Return put_price, g2) => (Return (call_price, put_price), g2)
      end
  end.

End Script.

(** ** mc_simulation_of_implied_volatility.py *)

Module ImpliedVol.

Import Float64 Python.

(** [black_scholes(S, K, T, r, sigma, option_type)] *)
Definition black_scholes (S K T r sigma : float64) (option_type : string)
  : result float64 :=
  let d1 :=
    fdiv (fadd (np.log (fdiv S K))
               (fmul (fadd r (fmul (Fin 0.5) (fsquare sigma))) T))
         (fmul sigma (np.sqrt T)) in
  let d2 := fsub d1 (fmul sigma (np.sqrt T)) in
  if String.eqb option_type "call" then
    Return (fsub (fmul S (norm.cdf d1))
                 (fmul (fmul K (np.exp (fmul (fneg r) T))) (norm.cdf d2)))
  else if String.eqb option_type "put" then
    Return (fsub (fmul (fmul K (np.exp (fmul (fneg r) T))) (norm.cdf (fneg d2)))
                 (fmul S (norm.cdf (fneg d1))))
  else Raise (ValueError "Invalid option type. Use 'call' or 'put'.").

(** The vega the solver computes at [sigma]. *)
Definition vega (S K T r sigma : float64) : float64 :=
  fmul (fmul S
          (norm.pdf
             (fdiv (fadd (np.log (fdiv S K))
                         (fmul (fadd r (fmul (Fin 0.5) (fsquare sigma))) T))
                   (fmul sigma (np.sqrt T)))))
       (np.sqrt T).

Definition zero_vega : exn :=
  ValueError "Zero Vega encountered, iteration stopped.".

Definition did_not_converge : exn :=
  ValueError "Implied volatility did not converge.".

(** The body of [for i in range(max_iter)], for the iterations left. *)
Fixpoint newton_loop (S K T r market_price : float64) (option_type : string)
  (tol : float64) (iterations : nat) (sigma : float64) : result float64 :=
  match iterations with
  | O => Raise did_not_converge
  | Datatypes.S n =>
      bind (black_scholes S K T r sigma option_type) (fun price =>
      let v := vega S K T r sigma in
      if feq v (Fin 0) then Raise zero_vega
      else
        let diff := fsub market_price price in
        if flt (fabs diff) tol then Return sigma
        else newton_loop S K T r market_price option_type tol n
               (fadd sigma (fdiv diff v)))
  end.

Definition default_tol : float64 := Fin 1e-5.
Definition default_max_iter : nat := 100.

(** [implied_volatility(S, K, T, r, market_price, option_type, tol,
    max_iter)], from the initial guess [0.2]. *)
Definition implied_volatility (S K T r market_price : float64)
  (option_type : string) (tol : float64) (max_iter : nat) : result float64 :=
  newton_loop S K T r market_price option_type tol max_iter (Fin 0.2).

(** One turn of the loop over the strikes: the volatility recorded for [K],
    NaN when the solver raised [ValueError]. *)
Definition smile_at (S T r base_volatility : float64) (n_simulations : nat)
  (K : float64) (g : np.random.generator)
  : result float64 * np.random.generator :=
  let (simulated_vols, g') :=
    np.random.normal base_volatility (Fin 0.05) n_simulations g in
  (bind (comprehension (fun sigma => black_scholes S K T r sigma "call")
           simulated_vols) (fun market_prices =>
   let avg_market_price := np.mean market_prices in
   match implied_volatility S K T r avg_market_price "call"
           default_tol default_max_iter with
   | Return iv => Return iv
   | Raise (ValueError _) => Return NaN
   | Raise e => Raise e
   end), g').

(** [for K in strike_prices: ...], appending to [implied_vols]. *)
Fixpoint smile_loop (S T r base_volatility : float64) (n_simulations : nat)
  (strikes : list float64) (implied_vols : list float64)
  (g : np.random.generator)
  : result (list float64) * np.random.generator :=
  match strikes with
  | [] => (Return implied_vols, g)
  | K :: rest =>
      match smile_at S T r base_volatility n_simulations K g with
      | (Return iv, g') =>
          smile_loop S T r base_volatility n_simulations rest
            (implied_vols ++ [iv]) g'
      | (Raise e, g') => (Raise e, g')
      end
  end.

(** [monte_carlo_volatility_smile(S, T, r, base_volatility,
    n_simulations)] *)
Definition monte_carlo_volatility_smile (S T r base_volatility : float64)
  (n_simulations : nat) (g : np.random.generator)
  : result (list float64 * list float64) * np.random.generator :=
  let strike_prices :=
    np.linspace (fmul S (Fin 0.8)) (fmul S (Fin 1.2)) 50 in
  match smile_loop S T r base_volatility n_simulations strike_prices [] g with
  | (Return implied_vols, g') => (Return (strike_prices, implied_vols), g')
  | (Raise e, g') => (Raise e, g')
  end.

End ImpliedVol.

(** ** The formulas and statements of the specification *)

Module Formula.

Import Float64 Gaussian Python.

Definition d1 (S K T r sigma : R) : R :=
  (ln (S / K) + (r + sigma * sigma / 2) * T) / (sigma * sqrt T).

Definition d2 (S K T r sigma : R) : R :=
  d1 S K T r sigma - sigma * sqrt T.

(** Call price [S Phi(d1) - K e^(-rT) Phi(d2)]. *)
Definition call_price (S K T r sigma : R) : R :=
  S * Phi (d1 S K T r sigma) - K * exp (- r * T) * Phi (d2 S K T r sigma).

(** Put price [K e^(-rT) Phi(-d2) - S Phi(-d1)]. *)
Definition put_price (S K T r sigma : R) : R :=
  K * exp (- r * T) * Phi (- d2 S K T r sigma) - S * Phi (- d1 S K T r sigma).

(** Vega [S phi(d1) sqrt T]. *)
Definition vega (S K T r sigma : R) : R :=
  S * phi (d1 S K T r sigma) * sqrt T.

(** The forward moneyness [ln(S/K) + rT], the numerator of [d1] at zero
    volatility. *)
Definition moneyness (S K T r : R) : R := ln (S / K) + r * T.

(** Terminal price of one scenario,
    [S exp((r - sigma^2/2) T + sigma Z sqrt T)]. *)
Definition terminal_price (S T r sigma z : R) : R :=
  S * exp ((r - sigma * sigma / 2) * T + sigma * z * sqrt T).

Definition call_payoff (K s : R) : R := Rmax 0 (s - K).
Definition put_payoff (K s : R) : R := Rmax 0 (K - s).

(** The sum of a list of reals. *)
Definition total (xs : list R) : R := fold_right Rplus 0 xs.

(** The discounted mean payoff over the scenarios of the shocks [zs]. *)
Definition discounted_mean_payoff (payoff : R -> R -> R)
  (S K T r sigma : R) (zs : list R) : R :=
  exp (- r * T)
  * (total (map (fun z => payoff K (terminal_price S T r sigma z)) zs)
     / INR (List.length zs)).

(** The [i]-th of [n] points evenly spaced over [[a, b]], both ends
    included. *)
Definition grid_point (a b : R) (n i : nat) : R :=
  a + INR i * ((b - a) / INR (n - 1)).

(** The put price of the specification evaluated on NumPy scalars:
    [K e^(-rT) Phi(-d2) - S Phi(-d1)] with
    [d1 = (ln(S/K) + (r + sigma^2/2) T) / (sigma sqrt T)] and
    [d2 = d1 - sigma sqrt T]. *)
Definition put_formula (S K T r sigma : float64) : float64 :=
  let d1 :=
    fdiv (fadd (np.log (fdiv S K))
               (fmul (fadd r (fdiv (fsquare sigma) (Fin 2))) T))
         (fmul sigma (np.sqrt T)) in
  let d2 := fsub d1 (fmul sigma (np.sqrt T)) in
  fsub (fmul (fmul K (np.exp (fneg (fmul r T)))) (norm.cdf (fneg d2)))
       (fmul S (norm.cdf (fneg d1))).

(** What the closed-form pricers return at zero volatility: the discounted
    intrinsic value when the moneyness is not zero, NaN when it is. *)
Definition zero_volatility_price (S K T r : R) (option_type : string)
  : float64 :=
  if Reqb (moneyness S K T r) 0 then NaN
  else if Rltb 0 (moneyness S K T r) then
    if String.eqb option_type "call" then Fin (S - K * exp (- r * T))
    else Fin 0
  else
    if String.eqb option_type "call" then Fin 0
    else Fin (K * exp (- r * T) - S).

(** Call-put parity for both closed-form pricers at one input:
    call minus put is [S - K e^(-rT)]. *)
Definition parity (S K T r sigma : R) : Prop :=
  fsub (Main.BSM (Fin S) (Fin K) (Fin T) (Fin r) (Fin sigma) "call")
       (Main.BSM (Fin S) (Fin K) (Fin T) (Fin r) (Fin sigma) "put")
  = Fin (S - K * exp (- r * T))
  /\ exists c p : float64,
       ImpliedVol.black_scholes (Fin S) (Fin K) (Fin T) (Fin r) (Fin sigma)
         "call" = Return c
       /\ ImpliedVol.black_scholes (Fin S) (Fin K) (Fin T) (Fin r) (Fin sigma)
            "put" = Return p
       /\ fsub c p = Fin (S - K * exp (- r * T)).

(** The closed-form price at [sigma], as the solver reads it. *)
Definition closed_form (S K T r : float64) (option_type : string)
  (sigma : float64) : float64 :=
  match ImpliedVol.black_scholes S K T r sigma option_type with
  | Return price => price
  | Raise _ => NaN
  end.

(** [|marketPrice - price(sigma)| < tolerance]. *)
Definition converged (S K T r market_price : float64) (option_type : string)
  (tol sigma : float64) : bool :=
  flt (fabs (fsub market_price (closed_form S K T r option_type sigma))) tol.

(** Vega evaluates to zero at [sigma]. *)
Definition degenerate (S K T r sigma : float64) : bool :=
  feq (ImpliedVol.vega S K T r sigma) (Fin 0).

(** One Newton-Raphson update, [sigma + diff / vega]. *)
Definition newton_step (S K T r market_price : float64)
  (option_type : string) (sigma : float64) : float64 :=
  fadd sigma
    (fdiv (fsub market_price (closed_form S K T r option_type sigma))
          (ImpliedVol.vega S K T r sigma)).

(** None of the first [n] iterates from [sigma] stops the loop: vega is
    not zero and the tolerance is not met. *)
Definition quiet (S K T r market_price : float64) (option_type : string)
  (tol sigma : float64) (n : nat) : Prop :=
  forall j : nat, (j < n)%nat ->
    let s := Nat.iter j (newton_step S K T r market_price option_type) sigma in
    degenerate S K T r s = false
    /\ converged S K T r market_price option_type tol s = false.

(** The volatility after [n] updates from the initial guess [0.2]. *)
Definition newton_iterate (S K T r market_price : float64)
  (option_type : string) (n : nat) : float64 :=
  Nat.iter n (newton_step S K T r market_price option_type) (Fin 0.2).

(** The three outcomes of the solver: it returns the first iterate that
    meets the tolerance, no earlier iterate having a zero vega; or it raises
    on the first iterate whose vega is zero, whether or not that iterate
    meets the tolerance; or no iterate among the [max_iter] first stops the
    loop and it raises for non-convergence. *)
Definition solver_outcomes (S K T r market_price : float64)
  (option_type : string) (tol : float64) (max_iter : nat) : Prop :=
  let sigma := newton_iterate S K T r market_price option_type in
  let quiet_until := quiet S K T r market_price option_type tol (Fin 0.2) in
  let outcome :=
    ImpliedVol.implied_volatility S K T r market_price option_type tol
      max_iter in
  (exists n : nat, (n < max_iter)%nat /\ quiet_until n
     /\ degenerate S K T r (sigma n) = false
     /\ converged S K T r market_price option_type tol (sigma n) = true
     /\ outcome = Return (sigma n))
  \/ (exists n : nat, (n < max_iter)%nat /\ quiet_until n
        /\ degenerate S K T r (sigma n) = true
        /\ outcome = Raise ImpliedVol.zero_vega)
  \/ (quiet_until max_iter /\ outcome = Raise ImpliedVol.did_not_converge).

(** The synthetic market price of strike [K]: the mean call price over the
    volatilities drawn from [g]. *)
Definition market_price_at (S T r base_volatility : float64)
  (n_simulations : nat) (K : float64) (g : np.random.generator) : float64 :=
  np.mean
    (map (closed_form S K T r "call")
       (fst (np.random.normal base_volatility (Fin 0.05) n_simulations g))).

(** The solver's outcome for strike [K] with the draws of [g]. *)
Definition solve_at (S T r base_volatility : float64) (n_simulations : nat)
  (K : float64) (g : np.random.generator) : result float64 :=
  ImpliedVol.implied_volatility S K T r
    (market_price_at S T r base_volatility n_simulations K g) "call"
    ImpliedVol.default_tol ImpliedVol.default_max_iter.

(** The entry of the curve for an outcome of the solver: the volatility it
    returned, the undefined sentinel when it raised. *)
Definition recorded (outcome : result float64) : float64 :=
  match outcome with
  | Return iv => iv
  | Raise _ => NaN
  end.

(** The entries recorded for the strikes [ks], the first one with the
    draws of [g], each of the next ones with the draws that follow. *)
Fixpoint entries (S T r base_volatility : float64) (n_simulations : nat)
  (ks : list float64) (g : np.random.generator) : list float64 :=
  match ks with
  | [] => []
  | K :: rest =>
      recorded (solve_at S T r base_volatility n_simulations K g)
        :: entries S T r base_volatility n_simulations rest
             (np.random.advance n_simulations g)
  end.

(** The round trip of the specification at one input: the closed-form
    price of [sigma] is computed, the solver is run on it with its default
    tolerance and iteration bound, and it returns a volatility within the
    tolerance of [sigma]. *)
Definition round_trip (S K T r sigma : R) (option_type : string) : Prop :=
  exists (price : float64) (recovered : R),
    ImpliedVol.black_scholes (Fin S) (Fin K) (Fin T) (Fin r) (Fin sigma)
      option_type = Return price
    /\ ImpliedVol.implied_volatility (Fin S) (Fin K) (Fin T) (Fin r) price
         option_type ImpliedVol.default_tol ImpliedVol.default_max_iter
       = Return (Fin recovered)
    /\ Rabs (recovered - sigma) < 1e-5.

(** The closed-form price of an option type, on real numbers. *)
Definition price_of (S K T r : R) (option_type : string) (sigma : R) : R :=
  if String.eqb option_type "call" then call_price S K T r sigma
  else put_price S K T r sigma.

(** One Newton-Raphson update on real numbers,
    [sigma + (market_price - price) / vega]. *)
Definition newton_update (S K T r : R) (option_type : string)
  (market_price sigma : R) : R :=
  sigma
  + (market_price - price_of S K T r option_type sigma) / vega S K T r sigma.

(** The same update at the money with no interest ([S = K], [r = 0]), where
    [d1 = sigma sqrt(T) / 2] and the market price is the price of the
    volatility [target]: the spot price cancels. *)
Definition at_the_money_update (T target sigma : R) : R :=
  sigma
  + (Phi (target * sqrt T / 2) - Phi (sigma * sqrt T / 2))
    / (sqrt T / 2 * phi (sigma * sqrt T / 2)).

(** The volatility after [n] such updates from the initial guess [0.2]. *)
Definition at_the_money_iterate (T target : R) (n : nat) : R :=
  Nat.iter n (at_the_money_update T target) 0.2.

(** A price [p] for which Python's [p >= 0] holds. *)
Definition nonnegative (p : float64) : Prop := fle (Fin 0) p = true.

End Formula.

(** ** The quantities the further properties are stated with *)

Module Behaviour.

Import Float64 Gaussian Python Formula.

(** The real number a finite NumPy scalar holds. *)
Definition finite_part (a : float64) : R :=
  match a with
  | Fin x => x
  | PInf | NInf | NaN => 0
  end.

(** What [black_scholes] returns, as a function of the volatility. *)
Definition price_of_volatility (S K T r : R) (option_type : string)
  (sigma : R) : R :=
  finite_part
    (closed_form (Fin S) (Fin K) (Fin T) (Fin r) option_type (Fin sigma)).

(** The vega the solver computes, as a function of the volatility. *)
Definition vega_of_volatility (S K T r sigma : R) : R :=
  finite_part (ImpliedVol.vega (Fin S) (Fin K) (Fin T) (Fin r) (Fin sigma)).

(** What [black_scholes] returns, as a function of the spot price. *)
Definition price_of_spot (K T r sigma : R) (option_type : string) (S : R)
  : R :=
  finite_part
    (closed_form (Fin S) (Fin K) (Fin T) (Fin r) option_type (Fin sigma)).

(** The standard-normal variates a call of [np.random.standard_normal(N)]
    draws from the generator [g]. *)
Definition drawn (N : nat) (g : np.random.generator) : list R :=
  map (fun i => np.random.variates g (np.random.consumed g + i)) (seq 0 N).

(** A text made of whitespace only. *)
Fixpoint blank (s : string) : bool :=
  match s with
  | EmptyString => true
  | String c s' => Script.isspace c && blank s'
  end.

End Behaviour.

(** * Properties *)

Import Float64 Gaussian Python.

(** ** Arithmetic on finite values *)

Section FiniteArithmetic.

Lemma Rltb_true (x y : R) : x < y -> Rltb x y = true.
Proof.
  intro H. unfold Rltb.
  destruct (Rlt_dec x y); [reflexivity | contradiction].
Qed.

Lemma Rltb_false (x y : R) : ~ x < y -> Rltb x y = false.
Proof.
  intro H. unfold Rltb.
  destruct (Rlt_dec x y); [contradiction | reflexivity].
Qed.

Lemma Rleb_true (x y : R) : x <= y -> Rleb x y = true.
Proof.
  intro H. unfold Rleb.
  destruct (Rle_dec x y); [reflexivity | contradiction].
Qed.

Lemma Rleb_false (x y : R) : ~ x <= y -> Rleb x y = false.
Proof.
  intro H. unfold Rleb.
  destruct (Rle_dec x y); [contradiction | reflexivity].
Qed.

Lemma Reqb_true (x y : R) : x = y -> Reqb x y = true.
Proof.
  intro H. unfold Reqb.
  destruct (Req_dec_T x y); [reflexivity | contradiction].
Qed.

Lemma Reqb_false (x y : R) : x <> y -> Reqb x y = false.
Proof.
  intro H. unfold Reqb.
  destruct (Req_dec_T x y); [contradiction | reflexivity].
Qed.

Lemma Rltb_spec (x y : R) : Rltb x y = true <-> x < y.
Proof. unfold Rltb. destruct (Rlt_dec x y); split; intros; easy. Qed.

Lemma Reqb_spec (x y : R) : Reqb x y = true <-> x = y.
Proof. unfold Reqb. destruct (Req_dec_T x y); split; intros; easy. Qed.

Lemma Rleb_spec (x y : R) : Rleb x y = true <-> x <= y.
Proof. unfold Rleb. destruct (Rle_dec x y); split; intros; easy. Qed.

Lemma fdiv_fin (x y : R) : y <> 0 -> fdiv (Fin x) (Fin y) = Fin (x / y).
Proof. intro H. simpl. now rewrite Reqb_false. Qed.

Lemma fdiv_zero_pos (x : R) : 0 < x -> fdiv (Fin x) (Fin 0) = PInf.
Proof.
  intro H. simpl. rewrite Reqb_true by reflexivity.
  rewrite Reqb_false by lra. unfold inf_of_sign. now rewrite Rltb_true.
Qed.

Lemma fdiv_zero_neg (x : R) : x < 0 -> fdiv (Fin x) (Fin 0) = NInf.
Proof.
  intro H. simpl. rewrite Reqb_true by reflexivity.
  rewrite Reqb_false by lra. unfold inf_of_sign.
  rewrite Rltb_false; [easy | lra].
Qed.

Lemma fdiv_zero_zero : fdiv (Fin 0) (Fin 0) = NaN.
Proof. simpl. now rewrite Reqb_true. Qed.

Lemma log_fin (x : R) : 0 < x -> np.log (Fin x) = Fin (ln x).
Proof. intro H. simpl. now rewrite Rltb_true. Qed.

Lemma sqrt_fin (x : R) : 0 <= x -> np.sqrt (Fin x) = Fin (sqrt x).
Proof. intro H. simpl. rewrite Rltb_false; [easy | lra]. Qed.

Lemma fadd_comm (a b : float64) : fadd a b = fadd b a.
Proof. destruct a, b; simpl; try reflexivity. now rewrite Rplus_comm. Qed.

Lemma fmul_comm (a b : float64) : fmul a b = fmul b a.
Proof. destruct a, b; simpl; try reflexivity. now rewrite Rmult_comm. Qed.

Lemma inf_of_sign_opp (x : R) :
  x <> 0 -> inf_of_sign (- x) = fneg (inf_of_sign x).
Proof.
  intro H. unfold inf_of_sign, Rltb.
  destruct (Rlt_dec 0 x), (Rlt_dec 0 (- x)); simpl; try reflexivity; lra.
Qed.

Lemma fmul_fneg_l (a b : float64) : fmul (fneg a) b = fneg (fmul a b).
Proof.
  destruct a as [x| | |], b as [y| | |]; simpl; try reflexivity;
    try (f_equal; ring);
    unfold inf_of_sign, Reqb, Rltb;
    repeat match goal with
           | |- context [Req_dec_T ?u ?v] => destruct (Req_dec_T u v)
           | |- context [Rlt_dec ?u ?v] => destruct (Rlt_dec u v)
           end; simpl; try reflexivity; lra.
Qed.

End FiniteArithmetic.

(** ** The normal distribution *)

Section NormalDistribution.

Lemma RiemannInt_upper_eq (f : R -> R) (a b b' : R)
  (p : Riemann_integrable f a b) (p' : Riemann_integrable f a b') :
  b = b' -> RiemannInt p = RiemannInt p'.
Proof. intro E. subst b'. apply RiemannInt_P5. Qed.

Lemma half_mass_opp (x : R) : half_mass (- x) = half_mass x.
Proof. unfold half_mass. apply RiemannInt_upper_eq, Rabs_Ropp. Qed.

Lemma half_mass_0 : half_mass 0 = 0.
Proof.
  unfold half_mass.
  rewrite (RiemannInt_upper_eq phi 0 (Rabs 0) 0 _
             (phi_integrable 0 0 (Rle_refl 0)) Rabs_R0).
  apply RiemannInt_P9.
Qed.

(** [Phi(-x) = 1 - Phi(x)]. *)
Lemma Phi_opp (x : R) : Phi (- x) = 1 - Phi x.
Proof.
  unfold Phi. rewrite half_mass_opp.
  destruct (Rle_dec 0 (- x)) as [H1|H1], (Rle_dec 0 x) as [H2|H2]; try lra.
  assert (x = 0) by lra. subst x. rewrite half_mass_0. lra.
Qed.

Lemma sqrt_2PI_pos : 0 < sqrt (2 * PI).
Proof. apply sqrt_lt_R0. pose proof PI_RGT_0. lra. Qed.

Lemma phi_pos (x : R) : 0 < phi x.
Proof.
  unfold phi. apply Rdiv_lt_0_compat; [apply exp_pos | apply sqrt_2PI_pos].
Qed.

End NormalDistribution.

(** ** The closed-form pricers on finite values *)

Section ClosedForm.

Import Formula.

Lemma half_lit : 0.5 = / 2.
Proof. lra. Qed.

Variables S K T r sigma : R.
Hypothesis S_pos : 0 < S.
Hypothesis K_pos : 0 < K.
Hypothesis T_pos : 0 < T.

Lemma sqrt_T_pos : 0 < sqrt T.
Proof. now apply sqrt_lt_R0. Qed.

Lemma ratio_pos : 0 < S / K.
Proof. now apply Rdiv_lt_0_compat. Qed.

(** The numerator of [d1], as both scripts compute it. *)
Lemma d1_numerator_fin :
  fadd (np.log (fdiv (Fin S) (Fin K)))
       (fmul (fadd (Fin r) (fmul (Fin 0.5) (fsquare (Fin sigma)))) (Fin T))
  = Fin (ln (S / K) + (r + sigma * sigma / 2) * T).
Proof.
  rewrite fdiv_fin by lra. rewrite log_fin by apply ratio_pos.
  simpl. f_equal. rewrite half_lit. lra.
Qed.

Lemma d1_fin :
  sigma <> 0 ->
  fdiv (fadd (np.log (fdiv (Fin S) (Fin K)))
             (fmul (fadd (Fin r) (fmul (Fin 0.5) (fsquare (Fin sigma))))
                   (Fin T)))
       (fmul (Fin sigma) (np.sqrt (Fin T)))
  = Fin (d1 S K T r sigma).
Proof.
  intro Hs. rewrite d1_numerator_fin. rewrite sqrt_fin by lra.
  simpl fmul. rewrite fdiv_fin; [reflexivity|].
  pose proof sqrt_T_pos. nra.
Qed.

Lemma discount_fin :
  fmul (Fin K) (np.exp (fmul (fneg (Fin r)) (Fin T)))
  = Fin (K * exp (- r * T)).
Proof. reflexivity. Qed.

Lemma black_scholes_call_fin :
  sigma <> 0 ->
  ImpliedVol.black_scholes (Fin S) (Fin K) (Fin T) (Fin r) (Fin sigma) "call"
  = Return (Fin (call_price S K T r sigma)).
Proof.
  intro Hs. unfold ImpliedVol.black_scholes. rewrite (d1_fin Hs).
  rewrite sqrt_fin by lra. reflexivity.
Qed.

Lemma black_scholes_put_fin :
  sigma <> 0 ->
  ImpliedVol.black_scholes (Fin S) (Fin K) (Fin T) (Fin r) (Fin sigma) "put"
  = Return (Fin (put_price S K T r sigma)).
Proof.
  intro Hs. unfold ImpliedVol.black_scholes. rewrite (d1_fin Hs).
  rewrite sqrt_fin by lra. reflexivity.
Qed.

(** The vega where the density has not underflowed. *)
Lemma vega_fin :
  sigma <> 0 -> tiny < phi (d1 S K T r sigma) ->
  ImpliedVol.vega (Fin S) (Fin K) (Fin T) (Fin r) (Fin sigma)
  = Fin (vega S K T r sigma).
Proof.
  intros Hs Hu. unfold ImpliedVol.vega. rewrite (d1_fin Hs).
  rewrite sqrt_fin by lra. cbn [norm.pdf].
  rewrite Rleb_false by lra. reflexivity.
Qed.

(** The vega where the density has underflowed: zero. *)
Lemma vega_underflow :
  sigma <> 0 -> phi (d1 S K T r sigma) <= tiny ->
  ImpliedVol.vega (Fin S) (Fin K) (Fin T) (Fin r) (Fin sigma) = Fin 0.
Proof.
  intros Hs Hu. unfold ImpliedVol.vega. rewrite (d1_fin Hs).
  rewrite sqrt_fin by lra. cbn [norm.pdf].
  rewrite Rleb_true by lra. cbn [fmul]. f_equal. ring.
Qed.

Lemma vega_pos : 0 < vega S K T r sigma.
Proof.
  unfold vega. pose proof (phi_pos (d1 S K T r sigma)).
  pose proof sqrt_T_pos. apply Rmult_lt_0_compat; [nra | assumption].
Qed.

End ClosedForm.

(** ** The closed-form pricers at zero volatility *)

Section ZeroVolatility.

Import Formula.

Variables S K T r : R.
Hypothesis S_pos : 0 < S.
Hypothesis K_pos : 0 < K.
Hypothesis T_pos : 0 < T.

(** At [sigma = 0] the denominator of [d1] is zero and [d1] is what the
    division by zero yields: an infinity with the sign of the moneyness, NaN
    when the moneyness is zero. *)
Lemma d1_zero_volatility :
  fdiv (fadd (np.log (fdiv (Fin S) (Fin K)))
             (fmul (fadd (Fin r) (fmul (Fin 0.5) (fsquare (Fin 0)))) (Fin T)))
       (fmul (Fin 0) (np.sqrt (Fin T)))
  = if Reqb (moneyness S K T r) 0 then NaN
    else inf_of_sign (moneyness S K T r).
Proof.
  rewrite (d1_numerator_fin S K T r 0 S_pos K_pos).
  rewrite sqrt_fin by lra. simpl fmul.
  replace (0 * sqrt T) with 0 by ring.
  replace (ln (S / K) + (r + 0 * 0 / 2) * T) with (moneyness S K T r)
    by (unfold moneyness; lra).
  simpl. rewrite Reqb_true by reflexivity. reflexivity.
Qed.

Lemma d1_zero_volatility_swapped :
  fdiv (fadd (np.log (fdiv (Fin S) (Fin K)))
             (fmul (fadd (Fin r) (fmul (Fin 0.5) (fsquare (Fin 0)))) (Fin T)))
       (fmul (np.sqrt (Fin T)) (Fin 0))
  = if Reqb (moneyness S K T r) 0 then NaN
    else inf_of_sign (moneyness S K T r).
Proof.
  rewrite (fmul_comm (np.sqrt (Fin T)) (Fin 0)). apply d1_zero_volatility.
Qed.

Lemma zero_step : fmul (Fin 0) (np.sqrt (Fin T)) = Fin 0.
Proof. rewrite sqrt_fin by lra. simpl. f_equal. ring. Qed.

Ltac moneyness_case :=
  unfold inf_of_sign;
  repeat first [ rewrite Reqb_true by lra | rewrite Reqb_false by lra
               | rewrite Rltb_true by lra | rewrite Rltb_false by lra ].

Lemma black_scholes_zero_volatility (option_type : string) :
  option_type = "call" \/ option_type = "put" ->
  ImpliedVol.black_scholes (Fin S) (Fin K) (Fin T) (Fin r) (Fin 0) option_type
  = Return (zero_volatility_price S K T r option_type).
Proof.
  intros Ht. unfold ImpliedVol.black_scholes, zero_volatility_price.
  rewrite d1_zero_volatility, zero_step.
  destruct (Rtotal_order (moneyness S K T r) 0) as [Hm|[Hm|Hm]];
    moneyness_case; destruct Ht; subst option_type; simpl;
    try reflexivity; do 2 f_equal; ring.
Qed.

Lemma BSM_zero_volatility (OPT : string) :
  Main.BSM (Fin S) (Fin K) (Fin T) (Fin r) (Fin 0) OPT
  = zero_volatility_price S K T r OPT.
Proof.
  unfold Main.BSM, zero_volatility_price.
  rewrite d1_zero_volatility_swapped, zero_step.
  destruct (Rtotal_order (moneyness S K T r) 0) as [Hm|[Hm|Hm]];
    moneyness_case; destruct (String.eqb OPT "call"); simpl;
    try reflexivity; f_equal; ring.
Qed.

End ZeroVolatility.

Section ClosedFormMain.

Import Formula.

Variables S K T r sigma : R.
Hypothesis S_pos : 0 < S.
Hypothesis K_pos : 0 < K.
Hypothesis T_pos : 0 < T.
Hypothesis sigma_nonzero : sigma <> 0.

Lemma d1_fin_swapped :
  fdiv (fadd (np.log (fdiv (Fin S) (Fin K)))
             (fmul (fadd (Fin r) (fmul (Fin 0.5) (fsquare (Fin sigma))))
                   (Fin T)))
       (fmul (np.sqrt (Fin T)) (Fin sigma))
  = Fin (d1 S K T r sigma).
Proof.
  rewrite (fmul_comm (np.sqrt (Fin T)) (Fin sigma)).
  now apply d1_fin.
Qed.

Lemma BSM_call_fin :
  Main.BSM (Fin S) (Fin K) (Fin T) (Fin r) (Fin sigma) "call"
  = Fin (call_price S K T r sigma).
Proof.
  unfold Main.BSM. rewrite d1_fin_swapped.
  rewrite sqrt_fin by lra. reflexivity.
Qed.

Lemma BSM_put_fin (OPT : string) :
  OPT <> "call" ->
  Main.BSM (Fin S) (Fin K) (Fin T) (Fin r) (Fin sigma) OPT
  = Fin (put_price S K T r sigma).
Proof.
  intro Ht. unfold Main.BSM. rewrite d1_fin_swapped.
  rewrite sqrt_fin by lra. apply String.eqb_neq in Ht. rewrite Ht.
  simpl. unfold put_price, d2, Rminus. f_equal. ring.
Qed.

End ClosedFormMain.

(** ** Option types the pricers accept *)

Section OptionTypes.

Import Formula.

Lemma half_times (a : float64) : fmul (Fin 0.5) a = fdiv a (Fin 2).
Proof.
  destruct a as [x| | |]; simpl; try reflexivity.
  - rewrite Reqb_false by lra. f_equal. lra.
  - rewrite Reqb_false by lra. unfold inf_of_sign.
    rewrite Rltb_true by lra. rewrite Rltb_false by lra. reflexivity.
  - rewrite Reqb_false by lra. unfold inf_of_sign.
    rewrite !Rltb_false by lra. reflexivity.
Qed.

Lemma BSM_not_call (St K T r sigma : float64) (OPT : string) :
  OPT <> "call" ->
  Main.BSM St K T r sigma OPT = put_formula St K T r sigma.
Proof.
  intro Ht. unfold Main.BSM, put_formula.
  apply String.eqb_neq in Ht. rewrite Ht.
  rewrite half_times, (fmul_comm (np.sqrt T) sigma), !fmul_fneg_l.
  unfold fsub at 3. now rewrite fadd_comm.
Qed.

(** C10.  [BSM] validates nothing: with every option type other than
    ["call"] it evaluates its [else] branch, the put price
    [K e^(-rT) Phi(-d2) - S Phi(-d1)] of the specification; on finite valid
    inputs with a positive volatility this is the real number
    [put_price]. *)
Theorem BSM_other_type_is_put (OPT : string) :
  OPT <> "call" ->
  (forall St K T r sigma : float64,
      Main.BSM St K T r sigma OPT = put_formula St K T r sigma)
  /\ (forall S K T r sigma : R,
        0 < S -> 0 < K -> 0 < T -> 0 < sigma ->
        Main.BSM (Fin S) (Fin K) (Fin T) (Fin r) (Fin sigma) OPT
        = Fin (put_price S K T r sigma)).
Proof.
  intro Ht. split.
  - intros. now apply BSM_not_call.
  - intros S K T r sigma HS HK HT Hs. apply BSM_put_fin; try assumption. lra.
Qed.

Lemma BSM_other_type_is_put_witness :
  Main.BSM (Fin 100) (Fin 105) (Fin 2) (Fin 0.05) (Fin 0.2) "straddle"
  = Fin (put_price 100 105 2 0.05 0.2).
Proof.
  apply (proj2 (BSM_other_type_is_put "straddle" ltac:(discriminate)));
    lra.
Defined.

End OptionTypes.

Section InvalidOptionType.

Import Formula.

Lemma black_scholes_invalid_type (S K T r sigma : float64) (t : string) :
  t <> "call" -> t <> "put" ->
  ImpliedVol.black_scholes S K T r sigma t
  = Raise (ValueError "Invalid option type. Use 'call' or 'put'.").
Proof.
  intros Hc Hp. unfold ImpliedVol.black_scholes.
  apply String.eqb_neq in Hc, Hp. now rewrite Hc, Hp.
Qed.

(** The Monte Carlo pricer has no [else] branch: any other option type
    leaves [payoff] unbound and the call stops on it. *)
Lemma monte_carlo_invalid_type (S0 K T r sigma : float64) (N : nat)
  (t : string) (g : np.random.generator) :
  t <> "call" -> t <> "put" ->
  fst (Main.monte_carlo_option_pricing S0 K T r sigma N t g)
  = Raise (UnboundLocalError "payoff").
Proof.
  intros Hc Hp. unfold Main.monte_carlo_option_pricing.
  apply String.eqb_neq in Hc, Hp. simpl. now rewrite Hc, Hp.
Qed.

(** C4, counterexample to the statement of the specification: with the
    option type ["straddle"], [BSM] raises nothing and returns the put
    price. *)
Lemma invalid_type_not_rejected :
  Main.BSM (Fin 100) (Fin 105) (Fin 2) (Fin 0.05) (Fin 0.2) "straddle"
  = Fin (put_price 100 105 2 0.05 0.2).
Proof. apply BSM_put_fin; try lra. discriminate. Qed.

(** C4, amended.  For every option type other than ["call"] and ["put"]:
    [black_scholes] raises [ValueError] (invalid input) whatever the other
    arguments; [BSM], whose caller checks the type, checks nothing and
    returns what it returns for ["put"]. *)
Theorem invalid_option_type (t : string) :
  t <> "call" -> t <> "put" ->
  (forall S K T r sigma : float64,
      ImpliedVol.black_scholes S K T r sigma t
      = Raise (ValueError "Invalid option type. Use 'call' or 'put'."))
  /\ (forall St K T r sigma : float64,
        Main.BSM St K T r sigma t = Main.BSM St K T r sigma "put").
Proof.
  intros Hc Hp. split; intros.
  - now apply black_scholes_invalid_type.
  - rewrite !BSM_not_call; [reflexivity | discriminate | assumption].
Qed.

Lemma invalid_option_type_witness :
  ImpliedVol.black_scholes (Fin 100) (Fin 105) (Fin 1) (Fin 0.05) (Fin 0.2)
    "straddle"
  = Raise (ValueError "Invalid option type. Use 'call' or 'put'.").
Proof.
  apply (proj1 (invalid_option_type "straddle"
                  ltac:(discriminate) ltac:(discriminate))).
Defined.

End InvalidOptionType.

(** ** Zero volatility and call-put parity *)

Section Parity.

Import Formula.

Lemma ln_1_over (x : R) : 0 < x -> ln (x / x) = 0.
Proof. intro H. replace (x / x) with 1 by (field; lra). apply ln_1. Qed.

(** C9, counterexample to the statement of the specification: at
    [sigma = 0] the denominator of [d1] is exactly zero and [black_scholes]
    returns a price, here the discounted intrinsic value
    [100 - 100 e^(-0.05)]. *)
Lemma zero_volatility_returns :
  ImpliedVol.black_scholes (Fin 100) (Fin 100) (Fin 1) (Fin 0.05) (Fin 0)
    "call"
  = Return (Fin (100 - 100 * exp (- (0.05)))).
Proof.
  rewrite black_scholes_zero_volatility by (lra || now left).
  unfold zero_volatility_price, moneyness.
  rewrite ln_1_over by lra.
  rewrite Reqb_false by lra. rewrite Rltb_true by lra. simpl.
  do 5 f_equal. lra.
Qed.

(** C9, amended.  On valid [S], [K], [T] neither closed-form pricer fails,
    whatever the volatility: at [sigma = 0], where the denominator of [d1]
    is zero, both return the discounted intrinsic value (NaN when the
    moneyness [ln(S/K) + rT] is zero too); at every other [sigma], however
    close to zero, both return the Black-Scholes price. *)
Theorem zero_denominator_is_no_error (S K T r : R) (option_type : string) :
  0 < S -> 0 < K -> 0 < T ->
  option_type = "call" \/ option_type = "put" ->
  ImpliedVol.black_scholes (Fin S) (Fin K) (Fin T) (Fin r) (Fin 0) option_type
  = Return (zero_volatility_price S K T r option_type)
  /\ Main.BSM (Fin S) (Fin K) (Fin T) (Fin r) (Fin 0) option_type
     = zero_volatility_price S K T r option_type
  /\ forall sigma : R,
       sigma <> 0 ->
       ImpliedVol.black_scholes (Fin S) (Fin K) (Fin T) (Fin r) (Fin sigma)
         option_type
       = Return (Fin (if String.eqb option_type "call"
                      then call_price S K T r sigma
                      else put_price S K T r sigma))
       /\ Main.BSM (Fin S) (Fin K) (Fin T) (Fin r) (Fin sigma) option_type
          = Fin (if String.eqb option_type "call"
                 then call_price S K T r sigma
                 else put_price S K T r sigma).
Proof.
  intros HS HK HT Ht. split; [|split].
  - now apply black_scholes_zero_volatility.
  - now apply BSM_zero_volatility.
  - intros sigma Hs. destruct Ht; subst option_type; simpl; split.
    + now apply black_scholes_call_fin.
    + now apply BSM_call_fin.
    + now apply black_scholes_put_fin.
    + apply BSM_put_fin; try assumption. discriminate.
Qed.

Lemma zero_denominator_is_no_error_witness :
  Main.BSM (Fin 100) (Fin 105) (Fin 2) (Fin 0.05) (Fin 0) "put"
  = zero_volatility_price 100 105 2 0.05 "put".
Proof.
  apply (zero_denominator_is_no_error 100 105 2 0.05 "put");
    try lra. now right.
Defined.

Lemma parity_identity (S K T r sigma : R) :
  call_price S K T r sigma - put_price S K T r sigma
  = S - K * exp (- r * T).
Proof. unfold call_price, put_price. rewrite !Phi_opp. ring. Qed.

Lemma fsub_fin (x y : R) : fsub (Fin x) (Fin y) = Fin (x - y).
Proof. reflexivity. Qed.

(** C1, counterexample to the statement of the specification:
    [sigma = 0] is a valid input, and at [S = K = 100], [T = 1], [r = 0]
    the moneyness is zero too, [d1] is [0 / 0] and both prices are NaN:
    their difference is not [S - K e^(-rT)]. *)
Lemma parity_fails_at_zero_volatility : ~ parity 100 100 1 0 0.
Proof.
  intros [H _]. rewrite !BSM_zero_volatility in H by lra.
  unfold zero_volatility_price, moneyness in H.
  rewrite ln_1_over in H by lra.
  rewrite Reqb_true in H by lra. discriminate H.
Qed.

(** C1, amended.  Call-put parity, in exact arithmetic: for [S > 0],
    [K > 0], [T > 0], any [r] and [sigma >= 0], the call price minus the put
    price is [S - K e^(-rT)] for [BSM] and for [black_scholes], unless
    [sigma = 0] and the moneyness [ln(S/K) + rT] is zero (the prices are NaN
    there). *)
Theorem call_put_parity (S K T r sigma : R) :
  0 < S -> 0 < K -> 0 < T -> 0 <= sigma ->
  0 < sigma \/ moneyness S K T r <> 0 ->
  parity S K T r sigma.
Proof.
  intros HS HK HT Hs Hdom. unfold parity.
  destruct (Req_dec_T sigma 0) as [E|E].
  - subst sigma. assert (Hm : moneyness S K T r <> 0) by (destruct Hdom; lra).
    rewrite !BSM_zero_volatility by assumption.
    rewrite !black_scholes_zero_volatility
      by (assumption || (now left) || (now right)).
    assert (Hz : fsub (zero_volatility_price S K T r "call")
                      (zero_volatility_price S K T r "put")
                 = Fin (S - K * exp (- r * T))).
    { unfold zero_volatility_price. rewrite Reqb_false by assumption.
      destruct (Rltb 0 (moneyness S K T r)); simpl; f_equal; ring. }
    split; [exact Hz|].
    exists (zero_volatility_price S K T r "call"),
      (zero_volatility_price S K T r "put").
    split; [reflexivity | split; [reflexivity | exact Hz]].
  - rewrite BSM_call_fin by assumption.
    rewrite (BSM_put_fin S K T r sigma HS HK HT E "put") by discriminate.
    rewrite black_scholes_call_fin, black_scholes_put_fin by assumption.
    rewrite fsub_fin, parity_identity. split; [reflexivity|].
    exists (Fin (call_price S K T r sigma)), (Fin (put_price S K T r sigma)).
    split; [reflexivity | split; [reflexivity |]].
    now rewrite fsub_fin, parity_identity.
Qed.

Lemma call_put_parity_witness : parity 100 105 2 0.05 0.2.
Proof. apply call_put_parity; try lra. Defined.

End Parity.

(** ** The implied-volatility solver *)

Section Solver.

Import Formula.

Lemma black_scholes_closed_form (S K T r sigma : float64)
  (option_type : string) :
  option_type = "call" \/ option_type = "put" ->
  ImpliedVol.black_scholes S K T r sigma option_type
  = Return (closed_form S K T r option_type sigma).
Proof.
  intros [->| ->]; reflexivity.
Qed.

Variables S K T r market_price : float64.
Variable option_type : string.
Variable tol : float64.

Hypothesis valid_type : option_type = "call" \/ option_type = "put".

Let step := newton_step S K T r market_price option_type.
Let conv := converged S K T r market_price option_type tol.
Let degen := degenerate S K T r.

Let quiet_from := quiet S K T r market_price option_type tol.

Lemma quiet_from_shift (sigma : float64) (n : nat) :
  degen sigma = false -> conv sigma = false ->
  quiet_from (step sigma) n -> quiet_from sigma (Datatypes.S n).
Proof.
  intros Hd Hc Hq [|j] Hj.
  - simpl. now split.
  - rewrite Nat.iter_succ_r. apply Hq. lia.
Qed.

(** What the loop does from [sigma] with [m] iterations left. *)
Lemma newton_loop_outcome (m : nat) : forall sigma : float64,
  (exists n : nat, (n < m)%nat /\ quiet_from sigma n
     /\ degen (Nat.iter n step sigma) = false
     /\ conv (Nat.iter n step sigma) = true
     /\ ImpliedVol.newton_loop S K T r market_price option_type tol m sigma
        = Return (Nat.iter n step sigma))
  \/ (exists n : nat, (n < m)%nat /\ quiet_from sigma n
        /\ degen (Nat.iter n step sigma) = true
        /\ ImpliedVol.newton_loop S K T r market_price option_type tol m sigma
           = Raise ImpliedVol.zero_vega)
  \/ (quiet_from sigma m
      /\ ImpliedVol.newton_loop S K T r market_price option_type tol m sigma
         = Raise ImpliedVol.did_not_converge).
Proof.
  induction m as [|m IH]; intro sigma.
  - right; right. split; [|reflexivity]. intros j Hj. lia.
  - cbn [ImpliedVol.newton_loop].
    rewrite black_scholes_closed_form by exact valid_type.
    cbn [bind].
    destruct (feq (ImpliedVol.vega S K T r sigma) (Fin 0)) eqn:Hd.
    { right; left. exists 0%nat.
      split; [lia | split; [intros j Hj; lia |]].
      split; [exact Hd | reflexivity]. }
    destruct (flt (fabs (fsub market_price
                           (closed_form S K T r option_type sigma))) tol)
      eqn:Hc.
    { left. exists 0%nat.
      split; [lia | split; [intros j Hj; lia |]].
      split; [exact Hd | split; [exact Hc | reflexivity]]. }
    fold (step sigma).
    destruct (IH (step sigma)) as [(n & Hn & Hq & Hdn & Hcn & Hr)
                                  |[(n & Hn & Hq & Hdn & Hr)|(Hq & Hr)]].
    + left. exists (Datatypes.S n). rewrite Nat.iter_succ_r.
      split; [lia | split; [now apply quiet_from_shift |]].
      split; [exact Hdn | split; [exact Hcn | exact Hr]].
    + right; left. exists (Datatypes.S n). rewrite Nat.iter_succ_r.
      split; [lia | split; [now apply quiet_from_shift |]].
      split; [exact Hdn | exact Hr].
    + right; right. split; [|assumption]. now apply quiet_from_shift.
Qed.

(** With any other option type the first iteration stops on the
    [ValueError] of [black_scholes]. *)
Lemma implied_volatility_invalid_type
  (sigma : float64) (t : string) (n : nat) :
  t <> "call" -> t <> "put" ->
  ImpliedVol.newton_loop S K T r market_price t tol (Datatypes.S n) sigma
  = Raise (ValueError "Invalid option type. Use 'call' or 'put'.").
Proof.
  intros Hc Hp. cbn [ImpliedVol.newton_loop].
  now rewrite black_scholes_invalid_type.
Qed.

End Solver.

Section SolverOutcomes.

Import Formula.



End SolverOutcomes.

(** ** The smile calibrator *)

Section Smile.

Import Formula.

Lemma advance_advance (m n : nat) (g : np.random.generator) :
  np.random.advance n (np.random.advance m g) = np.random.advance (m + n) g.
Proof. unfold np.random.advance. simpl. f_equal. lia. Qed.

Lemma advance_0 (g : np.random.generator) : np.random.advance 0 g = g.
Proof. destruct g. unfold np.random.advance. simpl. f_equal. lia. Qed.

Lemma comprehension_call (S K T r : float64) (sigmas : list float64) :
  comprehension (fun sigma => ImpliedVol.black_scholes S K T r sigma "call")
    sigmas
  = Return (map (closed_form S K T r "call") sigmas).
Proof.
  induction sigmas as [|s sigmas IH]; [reflexivity|].
  cbn [comprehension map]. rewrite IH. reflexivity.
Qed.

(** The solver raises nothing but [ValueError]. *)
Lemma implied_volatility_raises_ValueError
  (S K T r market_price tol : float64) (max_iter : nat) (e : exn) :
  ImpliedVol.implied_volatility S K T r market_price "call" tol max_iter
  = Raise e ->
  exists msg : string, e = ValueError msg.
Proof.
  intro H.
  destruct (newton_loop_outcome S K T r market_price "call" tol
              (or_introl eq_refl) max_iter (Fin 0.2))
    as [(n & _ & _ & _ & _ & Hr)|[(n & _ & _ & _ & Hr)|(_ & Hr)]];
    unfold ImpliedVol.implied_volatility in H; rewrite Hr in H;
    inversion H; eexists; reflexivity.
Qed.

Variables S T r base_volatility : float64.
Variable n_simulations : nat.

Local Abbreviation entries :=
  (Formula.entries S T r base_volatility n_simulations).

(** One turn of the loop never raises: it records the solver's outcome. *)
Lemma smile_at_records (K : float64) (g : np.random.generator) :
  ImpliedVol.smile_at S T r base_volatility n_simulations K g
  = (Return (recorded (solve_at S T r base_volatility n_simulations K g)),
     np.random.advance n_simulations g).
Proof.
  unfold ImpliedVol.smile_at, solve_at, market_price_at, np.random.normal.
  cbn [np.random.standard_normal fst]. rewrite comprehension_call.
  cbn [bind]. f_equal.
  match goal with
  | |- context [ImpliedVol.implied_volatility ?a ?b ?c ?d ?m ?o ?t ?i] =>
      destruct (ImpliedVol.implied_volatility a b c d m o t i) as [iv|e] eqn:E
  end; [reflexivity|].
  apply implied_volatility_raises_ValueError in E. destruct E as [msg ->].
  reflexivity.
Qed.

Lemma smile_loop_entries (ks : list float64) :
  forall (acc : list float64) (g : np.random.generator),
    ImpliedVol.smile_loop S T r base_volatility n_simulations ks acc g
    = (Return (acc ++ entries ks g),
       np.random.advance (List.length ks * n_simulations) g).
Proof.
  induction ks as [|K ks IH]; intros acc g.
  - simpl. now rewrite app_nil_r, advance_0.
  - cbn [ImpliedVol.smile_loop]. rewrite smile_at_records, IH.
    cbn [Formula.entries List.length]. rewrite <- app_assoc, advance_advance.
    reflexivity.
Qed.

Lemma entries_length (ks : list float64) :
  forall g, List.length (entries ks g) = List.length ks.
Proof.
  induction ks as [|K ks IH]; intro g; simpl; [|rewrite IH]; reflexivity.
Qed.

Lemma entries_nth (ks : list float64) :
  forall (g : np.random.generator) (i : nat),
    (i < List.length ks)%nat ->
    nth i (entries ks g) NaN
    = recorded (solve_at S T r base_volatility n_simulations (nth i ks NaN)
                  (np.random.advance (i * n_simulations) g)).
Proof.
  induction ks as [|K ks IH]; intros g i Hi; [simpl in Hi; lia|].
  destruct i as [|i].
  - simpl. now rewrite advance_0.
  - cbn [Formula.entries nth]. rewrite IH by (simpl in Hi; lia).
    now rewrite advance_advance.
Qed.

Lemma smile_returns (g : np.random.generator) :
  ImpliedVol.monte_carlo_volatility_smile S T r base_volatility
    n_simulations g
  = (Return (np.linspace (fmul S (Fin 0.8)) (fmul S (Fin 1.2)) 50,
             entries (np.linspace (fmul S (Fin 0.8)) (fmul S (Fin 1.2)) 50) g),
     np.random.advance
       (List.length (np.linspace (fmul S (Fin 0.8)) (fmul S (Fin 1.2)) 50)
        * n_simulations) g).
Proof.
  unfold ImpliedVol.monte_carlo_volatility_smile.
  rewrite smile_loop_entries. reflexivity.
Qed.

End Smile.

Section SmileGrid.

Import Formula.

Lemma linspace_length (a b : float64) (num : nat) :
  List.length (np.linspace a b num) = num.
Proof.
  destruct num as [|[|k]]; try reflexivity.
  unfold np.linspace. rewrite length_app, length_map, length_seq.
  simpl. lia.
Qed.

(** On finite end points the samples are the evenly spaced grid. *)
Lemma linspace_grid (a b : R) (k : nat) :
  np.linspace (Fin a) (Fin b) (Datatypes.S (Datatypes.S k))
  = map (fun i => Fin (grid_point a b (Datatypes.S (Datatypes.S k)) i))
      (seq 0 (Datatypes.S (Datatypes.S k))).
Proof.
  assert (Hk : INR (Datatypes.S k) <> 0) by (apply not_0_INR; lia).
  unfold np.linspace. rewrite fsub_fin, fdiv_fin by exact Hk.
  rewrite (seq_S (Datatypes.S k) 0), map_app. f_equal.
  - apply map_ext. intro i. unfold grid_point.
    replace (Datatypes.S (Datatypes.S k) - 1)%nat with (Datatypes.S k) by lia.
    cbn [fmul fadd]. f_equal. ring.
  - cbn [map Nat.add]. unfold grid_point.
    replace (Datatypes.S (Datatypes.S k) - 1)%nat with (Datatypes.S k) by lia.
    do 2 f_equal. field. exact Hk.
Qed.

Lemma grid_point_increasing (a b : R) (n i j : nat) :
  a < b -> (1 < n)%nat -> (i < j)%nat ->
  grid_point a b n i < grid_point a b n j.
Proof.
  intros Hab Hn Hij. unfold grid_point.
  assert (0 < INR (n - 1)) by (apply lt_0_INR; lia).
  assert (0 < (b - a) / INR (n - 1)) by (apply Rdiv_lt_0_compat; lra).
  apply lt_INR in Hij. nra.
Qed.

Lemma grid_point_first (a b : R) (n : nat) : grid_point a b n 0 = a.
Proof. unfold grid_point. simpl. ring. Qed.

Lemma grid_point_last (a b : R) (n : nat) :
  (1 < n)%nat -> grid_point a b n (n - 1) = b.
Proof.
  intro Hn. unfold grid_point. field. apply not_0_INR. lia.
Qed.

End SmileGrid.

Section SmileClaims.

Import Formula.

Lemma nth_error_map_seq {A : Type} (f : nat -> A) (n i : nat) :
  (i < n)%nat -> nth_error (map f (seq 0 n)) i = Some (f i).
Proof.
  intro Hi. rewrite nth_error_map, nth_error_seq.
  apply Nat.ltb_lt in Hi. now rewrite Hi.
Qed.

Lemma entries_nth_error (S T r base_volatility : float64)
  (n_simulations : nat) (ks : list float64) (g : np.random.generator)
  (i : nat) (K : float64) :
  nth_error ks i = Some K ->
  nth_error (entries S T r base_volatility n_simulations ks g) i
  = Some (recorded (solve_at S T r base_volatility n_simulations K
                      (np.random.advance (i * n_simulations) g))).
Proof.
  intro HK.
  assert (Hi : (i < List.length ks)%nat)
    by (apply nth_error_Some; rewrite HK; discriminate).
  rewrite (nth_error_nth' _ NaN) by (now rewrite entries_length).
  rewrite entries_nth by exact Hi.
  now rewrite (nth_error_nth _ _ NaN HK).
Qed.

(** C3.  The calibrator never raises, whatever its arguments and the
    draws: it returns fifty strikes and fifty entries, and where the solver
    raised for a strike (non-convergence or zero vega) the entry of that
    strike is NaN, where it returned the entry is the volatility returned;
    the loop goes on to the next strike in both cases. *)
Theorem smile_never_fails (S T r base_volatility : float64)
  (n_simulations : nat) (g : np.random.generator) :
  exists (strikes vols : list float64) (g' : np.random.generator),
    ImpliedVol.monte_carlo_volatility_smile S T r base_volatility
      n_simulations g
    = (Return (strikes, vols), g')
    /\ List.length strikes = 50%nat
    /\ List.length vols = 50%nat
    /\ forall (i : nat) (K : float64),
         nth_error strikes i = Some K ->
         let outcome :=
           solve_at S T r base_volatility n_simulations K
             (np.random.advance (i * n_simulations) g) in
         (forall e : exn, outcome = Raise e -> nth_error vols i = Some NaN)
         /\ (forall iv : float64,
               outcome = Return iv -> nth_error vols i = Some iv).
Proof.
  do 3 eexists. split; [apply smile_returns|].
  split; [apply linspace_length|].
  split; [rewrite entries_length; apply linspace_length|].
  intros i K HK outcome.
  pose proof (entries_nth_error S T r base_volatility n_simulations _ g i K HK)
    as Hn.
  fold outcome in Hn. rewrite Hn.
  split; [intros e He | intros iv He]; rewrite He; reflexivity.
Qed.

(** C6.  For a spot price [S > 0] the calibrator returns the fifty strikes
    evenly spaced over [[0.8 S, 1.2 S]], both ends included, strictly
    ascending, and as many entries, the [i]-th entry being the one recorded
    for the [i]-th strike (the solver's volatility, or NaN), solved with the
    [i]-th batch of draws. *)
Theorem smile_grid_and_alignment (S : R) (T r base_volatility : float64)
  (n_simulations : nat) (g : np.random.generator) :
  0 < S ->
  exists (strikes vols : list float64) (g' : np.random.generator),
    ImpliedVol.monte_carlo_volatility_smile (Fin S) T r base_volatility
      n_simulations g
    = (Return (strikes, vols), g')
    /\ List.length strikes = 50%nat
    /\ List.length vols = 50%nat
    /\ (forall i : nat, (i < 50)%nat ->
          nth_error strikes i
          = Some (Fin (grid_point (S * 0.8) (S * 1.2) 50 i)))
    /\ nth_error strikes 0 = Some (Fin (S * 0.8))
    /\ nth_error strikes 49 = Some (Fin (S * 1.2))
    /\ (forall i j : nat, (i < j < 50)%nat ->
          exists x y : R,
            nth_error strikes i = Some (Fin x)
            /\ nth_error strikes j = Some (Fin y) /\ x < y)
    /\ (forall i : nat, (i < 50)%nat ->
          exists K : float64,
            nth_error strikes i = Some K
            /\ nth_error vols i
               = Some (recorded
                         (solve_at (Fin S) T r base_volatility n_simulations K
                            (np.random.advance (i * n_simulations) g)))).
Proof.
  intro HS.
  assert (Hgrid : forall i : nat, (i < 50)%nat ->
            nth_error (np.linspace (fmul (Fin S) (Fin 0.8))
                         (fmul (Fin S) (Fin 1.2)) 50) i
            = Some (Fin (grid_point (S * 0.8) (S * 1.2) 50 i))).
  { intros i Hi. cbn [fmul]. rewrite linspace_grid.
    now rewrite (nth_error_map_seq
                   (fun i => Fin (grid_point (S * 0.8) (S * 1.2) 50 i))). }
  do 3 eexists. split; [apply smile_returns|].
  split; [apply linspace_length|].
  split; [rewrite entries_length; apply linspace_length|].
  split; [exact Hgrid|].
  split; [rewrite Hgrid by lia; now rewrite grid_point_first|].
  split.
  { rewrite Hgrid by lia. do 2 f_equal.
    exact (grid_point_last (S * 0.8) (S * 1.2) 50 ltac:(lia)). }
  split.
  - intros i j Hij. do 2 eexists.
    split; [apply Hgrid; lia | split; [apply Hgrid; lia|]].
    apply grid_point_increasing; lia || lra.
  - intros i Hi. eexists. split; [apply Hgrid; exact Hi|].
    apply entries_nth_error, Hgrid, Hi.
Qed.

Lemma smile_grid_and_alignment_witness :
  exists (strikes vols : list float64) (g' : np.random.generator),
    ImpliedVol.monte_carlo_volatility_smile (Fin 100) (Fin 1) (Fin 0.05)
      (Fin 0.2) 100
      {| np.random.variates := fun _ => 0; np.random.consumed := 0 |}
    = (Return (strikes, vols), g')
    /\ nth_error strikes 0 = Some (Fin (100 * 0.8))
    /\ nth_error strikes 49 = Some (Fin (100 * 1.2)).
Proof.
  destruct (smile_grid_and_alignment 100 (Fin 1) (Fin 0.05) (Fin 0.2) 100
              {| np.random.variates := fun _ => 0; np.random.consumed := 0 |}
              ltac:(lra))
    as (strikes & vols & g' & H & _ & _ & _ & H0 & H49 & _).
  exists strikes, vols, g'. repeat split; assumption.
Defined.

End SmileClaims.

(** ** The Monte Carlo pricer *)

Section MonteCarlo.

Import Formula.

Lemma sum_fin (xs : list R) : forall a : R,
  fold_left fadd (map Fin xs) (Fin a) = Fin (a + total xs).
Proof.
  induction xs as [|x xs IH]; intro a; simpl.
  - f_equal. ring.
  - rewrite IH. f_equal. ring.
Qed.

Lemma mean_fin (xs : list R) :
  xs <> [] ->
  np.mean (map Fin xs) = Fin (total xs / INR (List.length xs)).
Proof.
  intro Hne. unfold np.mean, np.sum. rewrite sum_fin, length_map.
  rewrite fdiv_fin.
  - f_equal. f_equal. ring.
  - apply not_0_INR. destruct xs; [contradiction | discriminate].
Qed.

Lemma maximum_fin (x : R) : np.maximum (Fin 0) (Fin x) = Fin (Rmax 0 x).
Proof.
  unfold np.maximum, flt, Rltb, Rmax.
  destruct (Rlt_dec 0 x), (Rle_dec 0 x); try reflexivity; try lra.
  f_equal. lra.
Qed.

Lemma total_nonneg (xs : list R) :
  (forall x, In x xs -> 0 <= x) -> 0 <= total xs.
Proof.
  induction xs as [|x xs IH]; intro H; simpl; [lra|].
  assert (0 <= x) by (apply H; now left).
  assert (0 <= total xs) by (apply IH; intros y Hy; apply H; now right).
  lra.
Qed.

Variables S0 K T r sigma : R.
Variable N : nat.
Variable g : np.random.generator.

Hypothesis T_nonneg : 0 <= T.
Hypothesis N_pos : (0 < N)%nat.

(** The shocks one call draws. *)
Let shocks : list R :=
  map (fun i => np.random.variates g (np.random.consumed g + i)) (seq 0 N).

Lemma shocks_nonempty : shocks <> [].
Proof.
  unfold shocks. destruct N; [lia|]. discriminate.
Qed.

Lemma terminal_price_fin (z : R) :
  fmul (Fin S0)
    (np.exp (fadd (fmul (fsub (Fin r) (fmul (Fin 0.5) (fsquare (Fin sigma))))
                        (Fin T))
                  (fmul (fmul (Fin sigma) (Fin z)) (np.sqrt (Fin T)))))
  = Fin (terminal_price S0 T r sigma z).
Proof.
  rewrite sqrt_fin by exact T_nonneg. simpl. unfold terminal_price.
  do 3 f_equal. rewrite half_lit. lra.
Qed.

Lemma monte_carlo_call :
  fst (Main.monte_carlo_option_pricing (Fin S0) (Fin K) (Fin T) (Fin r)
         (Fin sigma) N "call" g)
  = Return (Fin (discounted_mean_payoff call_payoff S0 K T r sigma shocks)).
Proof.
  unfold Main.monte_carlo_option_pricing, np.random.standard_normal.
  cbn [String.eqb Ascii.eqb Bool.eqb fst]. rewrite !map_map.
  rewrite (map_ext _ (fun i => Fin (call_payoff K
             (terminal_price S0 T r sigma
                (np.random.variates g (np.random.consumed g + i)))))).
  2:{ intro i. rewrite terminal_price_fin, fsub_fin. apply maximum_fin. }
  rewrite <- (map_map _ Fin), mean_fin.
  2:{ intro E. apply map_eq_nil in E.
      destruct N; [lia | discriminate]. }
  unfold discounted_mean_payoff, shocks. rewrite !length_map, !map_map.
  reflexivity.
Qed.

Lemma monte_carlo_put :
  fst (Main.monte_carlo_option_pricing (Fin S0) (Fin K) (Fin T) (Fin r)
         (Fin sigma) N "put" g)
  = Return (Fin (discounted_mean_payoff put_payoff S0 K T r sigma shocks)).
Proof.
  unfold Main.monte_carlo_option_pricing, np.random.standard_normal.
  cbn [String.eqb Ascii.eqb Bool.eqb fst]. rewrite !map_map.
  rewrite (map_ext _ (fun i => Fin (put_payoff K
             (terminal_price S0 T r sigma
                (np.random.variates g (np.random.consumed g + i)))))).
  2:{ intro i. rewrite terminal_price_fin, fsub_fin. apply maximum_fin. }
  rewrite <- (map_map _ Fin), mean_fin.
  2:{ intro E. apply map_eq_nil in E.
      destruct N; [lia | discriminate]. }
  unfold discounted_mean_payoff, shocks. rewrite !length_map, !map_map.
  reflexivity.
Qed.

Lemma discounted_mean_payoff_nonneg (payoff : R -> R -> R) :
  (forall k s, 0 <= payoff k s) ->
  0 <= discounted_mean_payoff payoff S0 K T r sigma shocks.
Proof.
  intro Hp. unfold discounted_mean_payoff.
  apply Rmult_le_pos; [left; apply exp_pos|].
  apply Rmult_le_pos.
  - apply total_nonneg. intros x Hx. apply in_map_iff in Hx.
    destruct Hx as (z & <- & _). apply Hp.
  - left. apply Rinv_0_lt_compat, lt_0_INR.
    unfold shocks. rewrite length_map, length_seq. exact N_pos.
Qed.

End MonteCarlo.

Section MonteCarloClaims.

Import Formula.

Lemma map_Fin_injective (xs ys : list R) : map Fin xs = map Fin ys -> xs = ys.
Proof.
  revert ys. induction xs as [|x xs IH]; intros [|y ys] H;
    try discriminate; [reflexivity|].
  simpl in H. inversion H. f_equal. now apply IH.
Qed.

(** C5.  For [N > 0] scenarios and the shocks [Z] the generator yields,
    the Monte Carlo pricer returns [e^(-rT)] times the mean over the
    scenarios of [max(0, S_i - K)] for a call, of [max(0, K - S_i)] for a
    put, with [S_i = S exp((r - sigma^2/2) T + sigma Z_i sqrt T)]. *)
Theorem monte_carlo_is_discounted_mean_payoff
  (S0 K T r sigma : R) (N : nat) (Z : list R) (g : np.random.generator) :
  (0 < N)%nat -> 0 < T ->
  fst (np.random.standard_normal N g) = map Fin Z ->
  List.length Z = N
  /\ fst (Main.monte_carlo_option_pricing (Fin S0) (Fin K) (Fin T) (Fin r)
            (Fin sigma) N "call" g)
     = Return (Fin (exp (- r * T)
                    * (total (map (fun z =>
                                     Rmax 0 (terminal_price S0 T r sigma z - K))
                                Z)
                       / INR N)))
  /\ fst (Main.monte_carlo_option_pricing (Fin S0) (Fin K) (Fin T) (Fin r)
            (Fin sigma) N "put" g)
     = Return (Fin (exp (- r * T)
                    * (total (map (fun z =>
                                     Rmax 0 (K - terminal_price S0 T r sigma z))
                                Z)
                       / INR N))).
Proof.
  intros HN HT HZ.
  unfold np.random.standard_normal in HZ. cbn [fst] in HZ.
  rewrite <- (map_map _ Fin) in HZ. apply map_Fin_injective in HZ.
  assert (HL : List.length Z = N)
    by (rewrite <- HZ, length_map; apply length_seq).
  split; [exact HL|]. rewrite <- HL at 2 4. rewrite <- HZ.
  split.
  - apply monte_carlo_call; [lra | exact HN].
  - apply monte_carlo_put; [lra | exact HN].
Qed.

Lemma monte_carlo_is_discounted_mean_payoff_witness :
  fst (Main.monte_carlo_option_pricing (Fin 100) (Fin 105) (Fin 1) (Fin 0.04)
         (Fin 0.2) 2 "call"
         {| np.random.variates := fun i => INR i; np.random.consumed := 0 |})
  = Return (Fin (exp (- (0.04) * 1)
                 * (total (map (fun z =>
                                  Rmax 0 (terminal_price 100 1 0.04 0.2 z - 105))
                             [0; 1])
                    / INR 2))).
Proof.
  exact (proj1 (proj2
    (monte_carlo_is_discounted_mean_payoff 100 105 1 0.04 0.2 2 [0; 1]
       {| np.random.variates := fun i => INR i; np.random.consumed := 0 |}
       ltac:(lia) ltac:(lra) eq_refl))).
Defined.

End MonteCarloClaims.

(** ** Bounds on the normal distribution *)

Section NormalBounds.

Lemma phi_le_phi_0 (x : R) : phi x <= phi 0.
Proof.
  unfold phi. apply Rmult_le_compat_r.
  - left. apply Rinv_0_lt_compat, sqrt_2PI_pos.
  - destruct (Req_dec_T x 0) as [->|Hx]; [lra|].
    left. apply exp_increasing. nra.
Qed.

Lemma phi_0_lt_half : phi 0 < 1 / 2.
Proof.
  unfold phi. replace (- (0 * 0) / 2) with 0 by lra. rewrite exp_0.
  assert (H2 : 2 < sqrt (2 * PI)).
  { rewrite <- (sqrt_square 2) at 1 by lra.
    apply sqrt_lt_1_alt. pose proof PI2_1. lra. }
  apply Rmult_lt_reg_r with (sqrt (2 * PI)); [lra|].
  unfold Rdiv. rewrite Rmult_assoc, Rinv_l by lra. lra.
Qed.

Lemma half_mass_nonneg (x : R) : 0 <= half_mass x.
Proof.
  unfold half_mass.
  assert (H : RiemannInt (RiemannInt_P14 0 (Rabs x) 0)
              <= RiemannInt (phi_integrable 0 (Rabs x) (Rabs_pos x))).
  { apply RiemannInt_P19; [apply Rabs_pos|].
    intros t _. unfold fct_cte. left. apply phi_pos. }
  rewrite RiemannInt_P15 in H. lra.
Qed.

Lemma half_mass_le (x : R) : half_mass x <= phi 0 * Rabs x.
Proof.
  unfold half_mass.
  assert (H : RiemannInt (phi_integrable 0 (Rabs x) (Rabs_pos x))
              <= RiemannInt (RiemannInt_P14 0 (Rabs x) (phi 0))).
  { apply RiemannInt_P19; [apply Rabs_pos|].
    intros t _. unfold fct_cte. apply phi_le_phi_0. }
  rewrite RiemannInt_P15 in H. lra.
Qed.

Lemma Phi_nonneg_arg (x : R) : 0 <= x -> Phi x = 1 / 2 + half_mass x.
Proof.
  intro H. unfold Phi.
  destruct (Rle_dec 0 x); [reflexivity | contradiction].
Qed.

End NormalBounds.

(** ** The total mass of the normal density *)

Section PhiDerivative.

Lemma phi_continuity_on (b x : R) : 0 <= x <= b -> continuity_pt phi x.
Proof. intros _. apply phi_continuity. Qed.

Lemma half_mass_primitive (b : R) (h : 0 <= b) (x : R) :
  0 <= x <= b ->
  primitive h (FTC_P1 h (phi_continuity_on b)) x = half_mass x.
Proof.
  intros [H1 H2]. unfold primitive.
  destruct (Rle_dec 0 x) as [r|n]; [|contradiction].
  destruct (Rle_dec x b) as [r0|n]; [|contradiction].
  unfold half_mass. apply RiemannInt_upper_eq. symmetry. now apply Rabs_pos_eq.
Qed.

Lemma derivable_pt_lim_shift (f : R -> R) (c x l : R) :
  derivable_pt_lim f x l -> derivable_pt_lim (fun y => c + f y) x l.
Proof.
  intros H e ep. destruct (H e ep) as [d pd]. exists d. intros h hn hd.
  replace ((c + f (x + h) - (c + f x)) / h - l)
    with ((f (x + h) - f x) / h - l) by (field; exact hn).
  now apply pd.
Qed.

Lemma derivable_pt_lim_shift_opp (f : R -> R) (c x l : R) :
  derivable_pt_lim f x l -> derivable_pt_lim (fun y => c - f y) x (- l).
Proof.
  intros H e ep. destruct (H e ep) as [d pd]. exists d. intros h hn hd.
  replace ((c - f (x + h) - (c - f x)) / h - - l)
    with (- ((f (x + h) - f x) / h - l)) by (field; exact hn).
  rewrite Rabs_Ropp. now apply pd.
Qed.

Lemma phi_even (x : R) : phi (- x) = phi x.
Proof.
  unfold phi. replace (- (- x * - x) / 2) with (- (x * x) / 2) by field.
  reflexivity.
Qed.

Lemma half_mass_derivable_pos (x : R) :
  0 < x -> derivable_pt_lim half_mass x (phi x).
Proof.
  intro Hx.
  assert (h : 0 <= x + 1) by lra.
  apply (derivable_pt_lim_locally_ext
           (primitive h (FTC_P1 h (phi_continuity_on (x + 1)))) half_mass
           x 0 (x + 1)).
  - lra.
  - intros z Hz. apply half_mass_primitive. lra.
  - apply RiemannInt_P27. lra.
Qed.

Lemma half_mass_derivable_neg (x : R) :
  x < 0 -> derivable_pt_lim half_mass x (- phi x).
Proof.
  intro Hx.
  apply (derivable_pt_lim_ext (mirr_fct half_mass)).
  - intro z. unfold mirr_fct. apply half_mass_opp.
  - apply derivable_pt_lim_mirr_fwd.
    rewrite Ropp_involutive, <- (phi_even x).
    apply half_mass_derivable_pos. lra.
Qed.

Lemma Phi_neg_arg (x : R) : x < 0 -> Phi x = 1 / 2 - half_mass x.
Proof.
  intro H. unfold Phi. destruct (Rle_dec 0 x); [lra | reflexivity].
Qed.

Lemma Phi_0 : Phi 0 = 1 / 2.
Proof. rewrite Phi_nonneg_arg by lra. rewrite half_mass_0. lra. Qed.

(** The distribution function is a primitive of the density. *)
Lemma Phi_derivable_pt_lim (x : R) : derivable_pt_lim Phi x (phi x).
Proof.
  destruct (Rtotal_order x 0) as [Hx|[->|Hx]].
  - apply (derivable_pt_lim_locally_ext (fun y => 1 / 2 - half_mass y) Phi
             x (x - 1) 0); [lra | |].
    + intros z Hz. symmetry. apply Phi_neg_arg. lra.
    + rewrite <- (Ropp_involutive (phi x)).
      now apply derivable_pt_lim_shift_opp, half_mass_derivable_neg.
  - assert (h : 0 <= 1) by lra.
    pose proof (@RiemannInt_P28 phi 0 1 0 h (phi_continuity_on 1)
                  ltac:(lra)) as HP.
    intros e ep. destruct (HP e ep) as [d pd].
    assert (Hd : 0 < Rmin d 1) by (apply Rmin_pos; [apply cond_pos | lra]).
    exists (mkposreal _ Hd). simpl. intros k kn kd.
    assert (Hk : 0 < Rabs k) by now apply Rabs_pos_lt.
    assert (Hk1 : Rabs k < 1)
      by (eapply Rlt_le_trans; [exact kd | apply Rmin_r]).
    assert (Hkd : Rabs k < d)
      by (eapply Rlt_le_trans; [exact kd | apply Rmin_l]).
    specialize (pd (Rabs k) ltac:(lra)
                   ltac:(rewrite Rabs_Rabsolu; exact Hkd)).
    rewrite !half_mass_primitive in pd by lra.
    rewrite Rplus_0_l in pd. rewrite half_mass_0 in pd.
    rewrite Rplus_0_l, Phi_0.
    replace ((Phi k - 1 / 2) / k) with ((half_mass (Rabs k) - 0) / Rabs k);
      [exact pd|].
    destruct (Rle_dec 0 k) as [Hp|Hn].
    + rewrite Phi_nonneg_arg by exact Hp. rewrite Rabs_pos_eq by exact Hp.
      field. exact kn.
    + rewrite Phi_neg_arg by lra. rewrite Rabs_left by lra.
      rewrite half_mass_opp. field. exact kn.
  - apply (derivable_pt_lim_locally_ext (fun y => 1 / 2 + half_mass y) Phi
             x 0 (x + 1)); [lra | |].
    + intros z Hz. symmetry. apply Phi_nonneg_arg. lra.
    + now apply derivable_pt_lim_shift, half_mass_derivable_pos.
Qed.

End PhiDerivative.

Section Calculus.

Lemma Rabs_le_bounds (a b : R) : Rabs a <= b -> - b <= a <= b.
Proof. unfold Rabs. destruct (Rcase_abs a); lra. Qed.

(** A function whose derivative vanishes on an interval takes the same
    value at both ends. *)
Lemma null_derivative_ends (f : R -> R) (a b : R) :
  a <= b ->
  (forall c : R, a <= c <= b -> derivable_pt_lim f c 0) ->
  f b = f a.
Proof.
  intros [Hab| ->] Hd; [|reflexivity].
  destruct (MVT_cor2 f (fun _ => 0) a b Hab Hd) as (c & Hc & _). lra.
Qed.

(** A function whose derivative is not negative on an interval does not
    decrease over it. *)
Lemma nonneg_derivative_ends (f f' : R -> R) (a b : R) :
  a <= b ->
  (forall c : R, a <= c <= b -> derivable_pt_lim f c (f' c)) ->
  (forall c : R, a <= c <= b -> 0 <= f' c) ->
  f a <= f b.
Proof.
  intros [Hab| ->] Hd Hpos; [|lra].
  destruct (MVT_cor2 f f' a b Hab Hd) as (c & Hc & Hin).
  assert (0 <= f' c) by (apply Hpos; lra). nra.
Qed.

(** The integral of a continuous function, from a primitive of it. *)
Lemma integral_from_primitive (u A : R -> R) (a b : R)
  (pr : Riemann_integrable u a b) :
  a <= b ->
  (forall x : R, a <= x <= b -> continuity_pt u x) ->
  (forall x : R, a <= x <= b -> derivable_pt_lim A x (u x)) ->
  RiemannInt pr = A b - A a.
Proof.
  intros h C0 HA.
  set (P := primitive h (FTC_P1 h C0)).
  assert (HD : (fun x => P x - A x) b = (fun x => P x - A x) a).
  { apply (null_derivative_ends (fun x => P x - A x) a b); [exact h|].
    intros c Hc. replace 0 with (u c - u c) by ring.
    apply (derivable_pt_lim_minus P A).
    - apply RiemannInt_P28. exact Hc.
    - apply HA, Hc. }
  cbv beta in HD.
  assert (Pb : P b = RiemannInt pr).
  { unfold P, primitive.
    destruct (Rle_dec a b) as [r|n]; [|contradiction].
    destruct (Rle_dec b b) as [r0|n]; [|lra].
    apply RiemannInt_P5. }
  assert (Pa : P a = 0).
  { unfold P, primitive.
    destruct (Rle_dec a a) as [r|n]; [|lra].
    destruct (Rle_dec a b) as [r0|n]; [|contradiction].
    apply RiemannInt_P9. }
  lra.
Qed.

(** The bound of an integral over [[0, 1]] from a bound of its integrand
    around an affine combination. *)
Lemma integral_remainder_bound (A B C : R -> R) (h k : R)
  (prA : Riemann_integrable A 0 1) (prB : Riemann_integrable B 0 1)
  (prC : Riemann_integrable C 0 1) :
  (forall t : R, 0 < t < 1 -> Rabs (A t - B t - h * C t) <= k) ->
  Rabs (RiemannInt prA - RiemannInt prB - h * RiemannInt prC) <= k.
Proof.
  intro Hb.
  pose (prBC := RiemannInt_P10 h prB prC).
  assert (HBC : RiemannInt prBC = RiemannInt prB + h * RiemannInt prC)
    by apply RiemannInt_P13.
  pose (prU := RiemannInt_P10 k prBC (RiemannInt_P14 0 1 1)).
  pose (prL := RiemannInt_P10 (- k) prBC (RiemannInt_P14 0 1 1)).
  assert (HU : RiemannInt prU = RiemannInt prBC + k * (1 * (1 - 0))).
  { unfold prU. rewrite RiemannInt_P13 with (pr1 := prBC)
      (pr2 := RiemannInt_P14 0 1 1). now rewrite RiemannInt_P15. }
  assert (HL : RiemannInt prL = RiemannInt prBC + - k * (1 * (1 - 0))).
  { unfold prL. rewrite RiemannInt_P13 with (pr1 := prBC)
      (pr2 := RiemannInt_P14 0 1 1). now rewrite RiemannInt_P15. }
  assert (H1 : RiemannInt prA <= RiemannInt prU).
  { apply RiemannInt_P19; [lra|]. intros t Ht. unfold fct_cte.
    specialize (Hb t Ht). apply Rabs_le_bounds in Hb. lra. }
  assert (H2 : RiemannInt prL <= RiemannInt prA).
  { apply RiemannInt_P19; [lra|]. intros t Ht. unfold fct_cte.
    specialize (Hb t Ht). apply Rabs_le_bounds in Hb. lra. }
  apply Rabs_le. lra.
Qed.

End Calculus.

Section Bell.

Lemma bell_pos (c x : R) : 0 < bell c x.
Proof. apply exp_pos. Qed.

Lemma bell_le_1 (c x : R) : 0 <= c -> bell c x <= 1.
Proof.
  intro Hc. unfold bell. rewrite <- exp_0.
  assert (H : - c * (x * x) / 2 <= 0) by nra.
  destruct H as [H|H]; [left; now apply exp_increasing | rewrite H; lra].
Qed.

Lemma exp_half_bound (u : R) : 0 <= u -> Rabs ((u - 1) * exp (- u / 2)) <= 1.
Proof.
  intro Hu.
  assert (Hpos : 0 < exp (- u / 2)) by apply exp_pos.
  assert (Hle : exp (- u / 2) <= 1).
  { rewrite <- exp_0. assert (H : - u / 2 <= 0) by lra.
    destruct H as [H|H]; [left; now apply exp_increasing | rewrite H; lra]. }
  assert (Hq : u - 1 <= exp (u / 2)).
  { replace (u / 2) with (u / 4 + u / 4) by field. rewrite exp_plus.
    pose proof (exp_ineq1_le (u / 4)) as He.
    assert ((1 + u / 4) * (1 + u / 4) <= exp (u / 4) * exp (u / 4))
      by (apply Rmult_le_compat; lra).
    nra. }
  assert (Hinv : exp (u / 2) * exp (- u / 2) = 1).
  { rewrite <- exp_plus. replace (u / 2 + - u / 2) with 0 by field.
    apply exp_0. }
  apply Rabs_le. split; nra.
Qed.

Lemma derivable_pt_lim_quadratic (c x : R) :
  derivable_pt_lim (fun y => - c * (y * y) / 2) x (- c * x).
Proof.
  apply (derivable_pt_lim_ext (mult_real_fct (- c / 2) Rsqr)).
  - intro z. unfold mult_real_fct, Rsqr. field.
  - replace (- c * x) with (- c / 2 * (2 * x)) by field.
    apply derivable_pt_lim_scal, derivable_pt_lim_Rsqr.
Qed.

Lemma derivable_pt_lim_bell (c x : R) :
  derivable_pt_lim (bell c) x (- c * x * bell c x).
Proof.
  replace (- c * x * bell c x) with (bell c x * (- c * x)) by ring.
  apply (derivable_pt_lim_comp (fun y => - c * (y * y) / 2) exp).
  - apply derivable_pt_lim_quadratic.
  - apply derivable_pt_lim_exp.
Qed.

(** The derivative of [bell c x / c] in [x]. *)
Lemma derivable_pt_lim_bell_over (c x : R) :
  c <> 0 ->
  derivable_pt_lim (fun y => bell c y / c) x (- x * bell c x).
Proof.
  intro Hc.
  apply (derivable_pt_lim_ext (mult_real_fct (/ c) (bell c))).
  - intro z. unfold mult_real_fct. field. exact Hc.
  - replace (- x * bell c x) with (/ c * (- c * x * bell c x))
      by (field; exact Hc).
    apply derivable_pt_lim_scal, derivable_pt_lim_bell.
Qed.

(** The derivative of [- x bell c x] in [x]. *)
Lemma derivable_pt_lim_bell_slope (c x : R) :
  derivable_pt_lim (fun y => - y * bell c y) x
    ((c * (x * x) - 1) * bell c x).
Proof.
  apply (derivable_pt_lim_ext (mult_fct (opp_fct id) (bell c))).
  - intro z. reflexivity.
  - replace ((c * (x * x) - 1) * bell c x)
      with (- 1 * bell c x + (- id)%F x * (- c * x * bell c x))
      by (unfold opp_fct, id; ring).
    apply derivable_pt_lim_mult.
    + apply derivable_pt_lim_opp, derivable_pt_lim_id.
    + apply derivable_pt_lim_bell.
Qed.

Lemma bell_curvature_bound (c x : R) :
  0 <= c -> Rabs ((c * (x * x) - 1) * bell c x) <= 1.
Proof.
  intro Hc. unfold bell.
  replace (- c * (x * x) / 2) with (- (c * (x * x)) / 2) by field.
  apply exp_half_bound. nra.
Qed.

(** The slope [- x bell c x] is 1-Lipschitz. *)
Lemma bell_slope_lipschitz (c x y : R) :
  0 <= c ->
  Rabs (- y * bell c y - - x * bell c x) <= Rabs (y - x).
Proof.
  intro Hc.
  assert (Hlt : forall a b, a < b ->
            Rabs (- b * bell c b - - a * bell c a) <= Rabs (b - a)).
  { intros a b Hab.
    destruct (MVT_cor2 (fun y => - y * bell c y)
                (fun z => (c * (z * z) - 1) * bell c z) a b Hab)
      as (z & Hz & _).
    { intros z _. apply derivable_pt_lim_bell_slope. }
    rewrite Hz, Rabs_mult.
    pose proof (bell_curvature_bound c z Hc).
    pose proof (Rabs_pos (b - a)). nra. }
  destruct (Rtotal_order x y) as [H|[->|H]].
  - now apply Hlt.
  - replace (- y * bell c y - - y * bell c y) with 0 by ring.
    rewrite Rabs_R0. apply Rabs_pos.
  - rewrite <- Rabs_Ropp, <- (Rabs_Ropp (y - x)).
    replace (- (- y * bell c y - - x * bell c x))
      with (- x * bell c x - - y * bell c y) by ring.
    replace (- (y - x)) with (x - y) by ring. now apply Hlt.
Qed.

(** First-order expansion of [bell c x / c] in [x], with a remainder of
    at most [h^2]. *)
Lemma bell_over_expansion (c x h : R) :
  0 < c ->
  Rabs (bell c (x + h) / c - bell c x / c - h * (- x * bell c x)) <= h * h.
Proof.
  intro Hc.
  set (rem := fun y =>
              bell c y / c - bell c x / c - (y - x) * (- x * bell c x)).
  assert (Hrem : forall y, derivable_pt_lim rem y
                   (- y * bell c y - - x * bell c x)).
  { intro y. unfold rem.
    apply (derivable_pt_lim_ext
             (minus_fct (fun y => bell c y / c)
                (fun y => bell c x / c + (y - x) * (- x * bell c x)))).
    { intro z. unfold minus_fct. ring. }
    apply derivable_pt_lim_minus.
    - apply derivable_pt_lim_bell_over. lra.
    - apply derivable_pt_lim_shift.
      apply (derivable_pt_lim_ext
               (mult_real_fct (- x * bell c x) (fun y => y - x))).
      { intro z. unfold mult_real_fct. ring. }
      replace (- x * bell c x) with (- x * bell c x * 1) at 2 by ring.
      apply derivable_pt_lim_scal.
      replace 1 with (1 - 0) by ring.
      apply (derivable_pt_lim_minus id (fct_cte x)).
      + apply derivable_pt_lim_id.
      + apply derivable_pt_lim_const. }
  assert (Hx : rem x = 0) by (unfold rem; ring).
  assert (Hgoal : bell c (x + h) / c - bell c x / c - h * (- x * bell c x)
                  = rem (x + h) - rem x).
  { rewrite Hx. unfold rem. ring. }
  rewrite Hgoal.
  assert (Hlt : forall a b, a < b -> (a = x \/ b = x) ->
            Rabs (rem b - rem a) <= (b - a) * (b - a)).
  { intros a b Hab Hends.
    destruct (MVT_cor2 rem (fun y => - y * bell c y - - x * bell c x)
                a b Hab) as (z & Hz & Hin).
    { intros z _. apply Hrem. }
    rewrite Hz, Rabs_mult.
    pose proof (bell_slope_lipschitz c x z (Rlt_le _ _ Hc)) as HL.
    assert (Rabs (z - x) <= b - a).
    { apply Rabs_le. destruct Hends; subst; lra. }
    rewrite (Rabs_pos_eq (b - a)) by lra.
    pose proof (Rabs_pos (- z * bell c z - - x * bell c x)). nra. }
  destruct (Rtotal_order h 0) as [H|[->|H]].
  - rewrite <- Rabs_Ropp.
    replace (- (rem (x + h) - rem x)) with (rem x - rem (x + h)) by ring.
    replace (h * h) with ((x - (x + h)) * (x - (x + h))) by ring.
    apply Hlt; [lra | now right].
  - replace (x + 0) with x by ring.
    replace (rem x - rem x) with 0 by ring. rewrite Rabs_R0. lra.
  - replace (h * h) with ((x + h - x) * (x + h - x)) by ring.
    apply Hlt; [lra | now left].
Qed.

End Bell.

Section GaussIntegral.

Lemma PI_gt_1 : 1 < PI.
Proof. pose proof PI2_1. lra. Qed.

Lemma arc_expansion (x h t : R) :
  Rabs (arc (x + h) t - arc x t - h * arc_slope x t) <= h * h.
Proof.
  unfold arc, arc_slope.
  pose proof (bell_over_expansion (1 + t * t) x h (one_plus_square_pos t))
    as H.
  replace (bell (1 + t * t) (x + h) / (1 + t * t) / PI
           - bell (1 + t * t) x / (1 + t * t) / PI
           - h * (- x * bell (1 + t * t) x / PI))
    with ((bell (1 + t * t) (x + h) / (1 + t * t)
           - bell (1 + t * t) x / (1 + t * t)
           - h * (- x * bell (1 + t * t) x)) * / PI)
    by (field; split; [apply PI_neq0 | apply Rgt_not_eq, one_plus_square_pos]).
  rewrite Rabs_mult, (Rabs_pos_eq (/ PI)).
  - pose proof PI_gt_1.
    assert (0 < / PI <= 1).
    { split; [apply Rinv_0_lt_compat; lra|].
      rewrite <- Rinv_1. apply Rinv_le_contravar; lra. }
    pose proof (Rabs_pos (bell (1 + t * t) (x + h) / (1 + t * t)
                          - bell (1 + t * t) x / (1 + t * t)
                          - h * (- x * bell (1 + t * t) x))).
    nra.
  - left. apply Rinv_0_lt_compat. pose proof PI_gt_1. lra.
Qed.

(** Differentiation under the integral sign. *)
Lemma arc_integral_derivable (x : R) :
  derivable_pt_lim arc_integral x (arc_slope_integral x).
Proof.
  intros e ep. exists (mkposreal e ep). simpl. intros h hn hd.
  pose proof (integral_remainder_bound (arc (x + h)) (arc x) (arc_slope x)
                h (h * h) (arc_integrable (x + h)) (arc_integrable x)
                (arc_slope_integrable x)
                (fun t _ => arc_expansion x h t)) as H.
  fold (arc_integral (x + h)) (arc_integral x) (arc_slope_integral x) in H.
  replace ((arc_integral (x + h) - arc_integral x) / h - arc_slope_integral x)
    with ((arc_integral (x + h) - arc_integral x - h * arc_slope_integral x)
          * / h) by (field; exact hn).
  rewrite Rabs_mult, Rabs_inv.
  apply Rmult_lt_reg_r with (Rabs h); [now apply Rabs_pos_lt|].
  rewrite Rmult_assoc, Rinv_l by (now apply Rabs_no_R0).
  rewrite Rmult_1_r.
  apply Rle_lt_trans with (h * h); [exact H|].
  rewrite <- (Rabs_pos_eq (h * h)) by nra. rewrite Rabs_mult.
  apply Rmult_lt_compat_r; [now apply Rabs_pos_lt | exact hd].
Qed.

Lemma sqrt_2PI_sqr : sqrt (2 * PI) * sqrt (2 * PI) = 2 * PI.
Proof. apply sqrt_sqrt. pose proof PI_RGT_0. lra. Qed.

Lemma phi_product (x t : R) :
  - 2 * phi x * (phi (x * t) * x) = arc_slope x t.
Proof.
  unfold arc_slope, phi, bell.
  replace (- (1 + t * t) * (x * x) / 2)
    with (- (x * x) / 2 + - (x * t * (x * t)) / 2) by field.
  rewrite exp_plus.
  pose proof sqrt_2PI_pos as Hs. pose proof sqrt_2PI_sqr as Hq.
  pose proof PI_RGT_0 as Hp.
  apply Rmult_eq_reg_r with (sqrt (2 * PI) * sqrt (2 * PI)); [|nra].
  rewrite Hq at 2. field. split; lra.
Qed.

(** The derivative of the auxiliary integral, in closed form. *)
Lemma arc_slope_integral_value (x : R) :
  arc_slope_integral x = - 2 * phi x * (Phi x - 1 / 2).
Proof.
  unfold arc_slope_integral.
  rewrite (integral_from_primitive (arc_slope x)
             (fun t => - 2 * phi x * Phi (x * t)) 0 1).
  - rewrite Rmult_1_r, Rmult_0_r, Phi_0. ring.
  - lra.
  - intros t _. apply arc_slope_continuity.
  - intros t _. rewrite <- phi_product.
    apply (derivable_pt_lim_ext
             (mult_real_fct (- 2 * phi x) (comp Phi (fun s => x * s)))).
    { intro z. reflexivity. }
    apply derivable_pt_lim_scal.
    apply (derivable_pt_lim_comp (fun s => x * s) Phi).
    + apply (derivable_pt_lim_ext (mult_real_fct x id)).
      { intro z. reflexivity. }
      replace x with (x * 1) at 2 by ring.
      apply derivable_pt_lim_scal, derivable_pt_lim_id.
    + apply Phi_derivable_pt_lim.
Qed.

Lemma arc_integral_0 : arc_integral 0 = 1 / 4.
Proof.
  unfold arc_integral.
  rewrite (integral_from_primitive (arc 0) (fun t => atan t / PI) 0 1).
  - rewrite atan_1, atan_0. field. apply PI_neq0.
  - lra.
  - intros t _. apply arc_continuity.
  - intros t _.
    apply (derivable_pt_lim_ext (mult_real_fct (/ PI) atan)).
    { intro z. unfold mult_real_fct. field. apply PI_neq0. }
    replace (arc 0 t) with (/ PI * / (1 + t ^ 2)).
    + apply derivable_pt_lim_scal, derivable_pt_lim_atan.
    + unfold arc, bell. replace (- (1 + t * t) * (0 * 0) / 2) with 0 by field.
      rewrite exp_0. field.
      repeat split; try apply PI_neq0; apply Rgt_not_eq; nra.
Qed.

(** The square of the mass between [0] and [x], and the auxiliary
    integral, add up to a quarter. *)
Lemma mass_identity (x : R) :
  (Phi x - 1 / 2) * (Phi x - 1 / 2) + arc_integral x = 1 / 4.
Proof.
  set (E := fun y => (Phi y - 1 / 2) * (Phi y - 1 / 2) + arc_integral y).
  assert (HE : forall y, derivable_pt_lim E y 0).
  { intro y. unfold E.
    replace 0 with ((phi y * (Phi y - 1 / 2) + (Phi y - 1 / 2) * phi y)
                    + arc_slope_integral y)
      by (rewrite arc_slope_integral_value; ring).
    apply (derivable_pt_lim_plus
             (mult_fct (fun z => Phi z - 1 / 2) (fun z => Phi z - 1 / 2))
             arc_integral).
    - assert (Hs : derivable_pt_lim (fun z => Phi z - 1 / 2) y (phi y)).
      { replace (phi y) with (phi y - 0) by ring.
        apply (derivable_pt_lim_minus Phi (fct_cte (1 / 2))).
        - apply Phi_derivable_pt_lim.
        - apply derivable_pt_lim_const. }
      exact (derivable_pt_lim_mult _ _ _ _ _ Hs Hs).
    - apply arc_integral_derivable. }
  assert (H0 : E 0 = 1 / 4).
  { unfold E. rewrite Phi_0, arc_integral_0. field. }
  change (E x = 1 / 4). rewrite <- H0.
  destruct (Rle_dec 0 x) as [Hx|Hx].
  - apply null_derivative_ends; [exact Hx | intros; apply HE].
  - symmetry. apply null_derivative_ends; [lra | intros; apply HE].
Qed.

Lemma bell_antitone (c c' x : R) : c <= c' -> bell c' x <= bell c x.
Proof.
  intro Hc. unfold bell.
  assert (H : - c' * (x * x) / 2 <= - c * (x * x) / 2) by nra.
  destruct H as [H|H]; [left; now apply exp_increasing | rewrite H; lra].
Qed.

Lemma arc_bounds (x t : R) : 0 <= arc x t <= bell 1 x.
Proof.
  unfold arc.
  pose proof (bell_pos (1 + t * t) x) as Hb.
  pose proof (one_plus_square_pos t) as Hc. pose proof PI_gt_1 as Hp.
  assert (Hm : bell (1 + t * t) x <= bell 1 x)
    by (apply bell_antitone; nra).
  assert (Hden : 0 < / ((1 + t * t) * PI) <= 1).
  { split; [apply Rinv_0_lt_compat; nra|].
    rewrite <- Rinv_1. apply Rinv_le_contravar; nra. }
  replace (bell (1 + t * t) x / (1 + t * t) / PI)
    with (bell (1 + t * t) x * / ((1 + t * t) * PI)) by (field; lra).
  split; nra.
Qed.

Lemma arc_integral_bounds (x : R) : 0 <= arc_integral x <= bell 1 x.
Proof.
  unfold arc_integral. split.
  - assert (H : RiemannInt (RiemannInt_P14 0 1 0)
                <= RiemannInt (arc_integrable x)).
    { apply RiemannInt_P19; [lra|]. intros t _. apply arc_bounds. }
    rewrite RiemannInt_P15 in H. lra.
  - assert (H : RiemannInt (arc_integrable x)
                <= RiemannInt (RiemannInt_P14 0 1 (bell 1 x))).
    { apply RiemannInt_P19; [lra|]. intros t _. apply arc_bounds. }
    rewrite RiemannInt_P15 in H. lra.
Qed.

End GaussIntegral.

(** ** The closed-form prices are not negative *)

Section Tails.

Lemma Phi_bounds (x : R) : 0 <= Phi x <= 1.
Proof.
  pose proof (mass_identity x). pose proof (arc_integral_bounds x).
  split; nra.
Qed.

Lemma Phi_le_half (x : R) : x <= 0 -> Phi x <= 1 / 2.
Proof.
  intros [Hx| ->].
  - rewrite Phi_neg_arg by exact Hx. pose proof (half_mass_nonneg x). lra.
  - rewrite Phi_0. lra.
Qed.

(** The left tail is below twice the bell. *)
Lemma Phi_left_tail (x : R) : x <= 0 -> Phi x <= 2 * bell 1 x.
Proof.
  intro Hx.
  pose proof (mass_identity x). pose proof (arc_integral_bounds x).
  pose proof (Phi_le_half x Hx). pose proof (Phi_bounds x). nra.
Qed.

Lemma bell_inverse (c x : R) : exp (c * (x * x) / 2) * bell c x = 1.
Proof.
  unfold bell. rewrite <- exp_plus.
  replace (c * (x * x) / 2 + - c * (x * x) / 2) with 0 by field.
  apply exp_0.
Qed.

Lemma bell_small (delta : R) :
  0 < delta ->
  exists w0 : R, w0 <= 0 /\ forall w : R, w <= w0 -> 2 * bell 1 w < delta.
Proof.
  intro Hd. set (k := 2 / delta).
  assert (Hk : 0 < k) by (apply Rdiv_lt_0_compat; lra).
  assert (Hdk : delta * k = 2) by (unfold k; field; lra).
  exists (- (1 + k)). split; [lra|]. intros w Hw.
  assert (Hw2 : (1 + k) * (1 + k) <= w * w) by nra.
  pose proof (exp_ineq1_le (1 * (w * w) / 2)) as He.
  pose proof (bell_inverse 1 w) as Hinv.
  pose proof (bell_pos 1 w) as Hb.
  assert (Hbig : 2 < delta * exp (1 * (w * w) / 2)) by nra.
  nra.
Qed.

Lemma phi_shift (z a : R) : exp (z * a - a * a / 2) * phi z = phi (z - a).
Proof.
  unfold phi. unfold Rdiv at 2 4. rewrite <- Rmult_assoc, <- exp_plus.
  f_equal. f_equal. field.
Qed.

Lemma derivable_pt_lim_affine (a b x : R) :
  derivable_pt_lim (fun y => y * a - b) x a.
Proof.
  intros e ep. exists (mkposreal 1 Rlt_0_1). intros h hn _.
  replace (((x + h) * a - b - (x * a - b)) / h - a) with 0
    by (field; exact hn).
  now rewrite Rabs_R0.
Qed.

Lemma derivable_pt_lim_translate (a x : R) :
  derivable_pt_lim (fun y => y - a) x 1.
Proof.
  intros e ep. exists (mkposreal 1 Rlt_0_1). intros h hn _.
  replace ((x + h - a - (x - a)) / h - 1) with 0 by (field; exact hn).
  now rewrite Rabs_R0.
Qed.

(** Shifting the argument down by [a >= 0] divides the distribution
    function by at least [exp(x a - a^2 / 2)]. *)
Lemma Phi_shift (x a : R) :
  0 <= a -> Phi (x - a) <= exp (x * a - a * a / 2) * Phi x.
Proof.
  intro Ha.
  set (D := fun z => exp (z * a - a * a / 2) * Phi z - Phi (z - a)).
  assert (HD : forall z, derivable_pt_lim D z
                 ((fun y => a * exp (y * a - a * a / 2) * Phi y) z)).
  { intro z. cbv beta. unfold D.
    replace (a * exp (z * a - a * a / 2) * Phi z)
      with ((exp (z * a - a * a / 2) * a * Phi z
             + exp (z * a - a * a / 2) * phi z) - phi (z - a) * 1)
      by (rewrite phi_shift; ring).
    apply (derivable_pt_lim_minus
             (mult_fct (fun y => exp (y * a - a * a / 2)) Phi)
             (comp Phi (fun y => y - a))).
    - apply (derivable_pt_lim_mult (fun y => exp (y * a - a * a / 2)) Phi z
               (exp (z * a - a * a / 2) * a) (phi z));
        [|apply Phi_derivable_pt_lim].
      change (fun y : R => exp (y * a - a * a / 2))
        with (comp exp (fun y => y * a - a * a / 2)).
      apply (derivable_pt_lim_comp (fun y => y * a - a * a / 2) exp);
        [|apply derivable_pt_lim_exp].
      apply derivable_pt_lim_affine.
    - apply (derivable_pt_lim_comp (fun y => y - a) Phi);
        [|apply Phi_derivable_pt_lim].
      apply derivable_pt_lim_translate. }
  assert (Hmono : forall z0, z0 <= x -> D z0 <= D x).
  { intros z0 Hz.
    apply (nonneg_derivative_ends D
             (fun y => a * exp (y * a - a * a / 2) * Phi y) z0 x Hz).
    - intros c _. apply HD.
    - intros c _. cbv beta.
      pose proof (exp_pos (c * a - a * a / 2)). pose proof (Phi_bounds c).
      apply Rmult_le_pos; [nra | lra]. }
  assert (Hlow : forall z0, z0 - a <= 0 -> - (2 * bell 1 (z0 - a)) <= D z0).
  { intros z0 Hz. unfold D.
    pose proof (Phi_left_tail (z0 - a) Hz).
    pose proof (exp_pos (z0 * a - a * a / 2)). pose proof (Phi_bounds z0).
    assert (0 <= exp (z0 * a - a * a / 2) * Phi z0) by nra. lra. }
  destruct (Rle_dec 0 (D x)) as [Hok|Hneg]; [unfold D in Hok; lra|].
  exfalso.
  destruct (bell_small (- D x) ltac:(lra)) as (w0 & Hw0 & Hsmall).
  set (z0 := Rmin x (w0 + a)).
  assert (Hz1 : z0 <= x) by apply Rmin_l.
  assert (Hz2 : z0 <= w0 + a) by apply Rmin_r.
  pose proof (Hmono z0 Hz1). pose proof (Hlow z0 ltac:(lra)).
  pose proof (Hsmall (z0 - a) ltac:(lra)). lra.
Qed.

End Tails.

Section PricePositivity.

Import Formula.

Variables S K T r sigma : R.
Hypothesis S_pos : 0 < S.
Hypothesis K_pos : 0 < K.
Hypothesis T_pos : 0 < T.
Hypothesis sigma_pos : 0 < sigma.

Let a := sigma * sqrt T.
Let d := d1 S K T r sigma.

Lemma spread_pos : 0 < a.
Proof. unfold a. apply Rmult_lt_0_compat; [lra | now apply sqrt_lt_R0]. Qed.

(** The spot price in terms of the discounted strike and [d1]. *)
Lemma spot_from_d1 : S = K * exp (- r * T) * exp (d * a - a * a / 2).
Proof.
  pose proof spread_pos as Ha.
  assert (Haa : a * a = sigma * sigma * T).
  { unfold a. replace (sigma * sqrt T * (sigma * sqrt T))
      with (sigma * sigma * (sqrt T * sqrt T)) by ring.
    rewrite sqrt_sqrt by lra. reflexivity. }
  assert (Hda : d * a = ln (S / K) + (r + sigma * sigma / 2) * T).
  { unfold d, d1. fold a. field. lra. }
  replace (d * a - a * a / 2) with (ln (S / K) + r * T)
    by (rewrite Hda, Haa; field).
  rewrite Rmult_assoc, <- exp_plus.
  replace (- r * T + (ln (S / K) + r * T)) with (ln (S / K)) by ring.
  rewrite exp_ln by (apply Rdiv_lt_0_compat; lra). field. lra.
Qed.

Lemma call_price_nonneg : 0 <= call_price S K T r sigma.
Proof.
  unfold call_price, d2. fold d a. rewrite spot_from_d1 at 1.
  pose proof (Phi_shift d a (Rlt_le _ _ spread_pos)).
  pose proof (exp_pos (- r * T)).
  assert (0 < K * exp (- r * T)) by nra. nra.
Qed.

Lemma put_price_nonneg : 0 <= put_price S K T r sigma.
Proof.
  unfold put_price, d2. fold d a. rewrite spot_from_d1 at 1.
  pose proof (Phi_shift (- (d - a)) a (Rlt_le _ _ spread_pos)) as H.
  replace (- (d - a) - a) with (- d) in H by ring.
  pose proof (exp_pos (- r * T)).
  pose proof (exp_pos (d * a - a * a / 2)) as He.
  assert (Hprod : exp (d * a - a * a / 2)
                  * exp (- (d - a) * a - a * a / 2) = 1).
  { rewrite <- exp_plus.
    replace (d * a - a * a / 2 + (- (d - a) * a - a * a / 2)) with 0 by field.
    apply exp_0. }
  assert (0 < K * exp (- r * T)) by nra.
  assert (exp (d * a - a * a / 2) * Phi (- d) <= Phi (- (d - a))).
  { apply Rle_trans with (exp (d * a - a * a / 2)
                          * (exp (- (d - a) * a - a * a / 2) * Phi (- (d - a)))).
    - apply Rmult_le_compat_l; lra.
    - rewrite <- Rmult_assoc, Hprod. lra. }
  nra.
Qed.

End PricePositivity.

Section NonNegativePrices.

Import Formula.

Lemma nonnegative_fin (x : R) : 0 <= x -> nonnegative (Fin x).
Proof. intro H. unfold nonnegative. cbn [fle]. now apply Rleb_true. Qed.

(** The sign of the moneyness is the sign of [S - K e^(-rT)]. *)
Lemma intrinsic_sign (S K T r : R) :
  0 < S -> 0 < K ->
  (0 < moneyness S K T r -> K * exp (- r * T) < S)
  /\ (moneyness S K T r < 0 -> S < K * exp (- r * T)).
Proof.
  intros HS HK. unfold moneyness.
  assert (Hratio : 0 < S / K) by now apply Rdiv_lt_0_compat.
  assert (HSK : S = K * exp (- r * T) * exp (ln (S / K) + r * T)).
  { rewrite Rmult_assoc, <- exp_plus.
    replace (- r * T + (ln (S / K) + r * T)) with (ln (S / K)) by ring.
    rewrite exp_ln by exact Hratio. field. lra. }
  pose proof (exp_pos (- r * T)) as He.
  assert (Hd : 0 < K * exp (- r * T)) by nra.
  split; intro Hm.
  - assert (1 < exp (ln (S / K) + r * T))
      by (rewrite <- exp_0; now apply exp_increasing).
    nra.
  - assert (exp (ln (S / K) + r * T) < 1)
      by (rewrite <- exp_0; now apply exp_increasing).
    nra.
Qed.

Lemma zero_volatility_price_nonneg (S K T r : R) (option_type : string) :
  0 < S -> 0 < K -> moneyness S K T r <> 0 ->
  nonnegative (zero_volatility_price S K T r option_type).
Proof.
  intros HS HK Hm. unfold zero_volatility_price.
  rewrite Reqb_false by exact Hm.
  destruct (intrinsic_sign S K T r HS HK) as [Hp Hn].
  unfold Rltb. destruct (Rlt_dec 0 (moneyness S K T r)) as [H|H];
    destruct (String.eqb option_type "call"); apply nonnegative_fin;
    first [ lra
          | specialize (Hp H); lra
          | assert (Hneg : moneyness S K T r < 0) by lra;
            specialize (Hn Hneg); lra ].
Qed.

(** C8, counterexample to the statement of the specification:
    [sigma = 0] is a valid input, and at [S = K = 100], [T = 1], [r = 0]
    the closed-form call price is NaN, for which [price >= 0] is false. *)
Lemma price_not_nonnegative_at_zero_volatility :
  ~ nonnegative (Main.BSM (Fin 100) (Fin 100) (Fin 1) (Fin 0) (Fin 0) "call").
Proof.
  rewrite BSM_zero_volatility by lra.
  unfold zero_volatility_price, moneyness.
  rewrite ln_1_over by lra. rewrite Reqb_true by lra.
  unfold nonnegative. cbn [fle]. discriminate.
Qed.

(** C8, amended.  For [S > 0], [K > 0], [T > 0], [sigma >= 0] and both
    option types: the Monte Carlo price is not negative, whatever [N > 0]
    and the shocks drawn; the closed-form price of [BSM] and of
    [black_scholes] is not negative, unless [sigma = 0] and the moneyness
    [ln(S/K) + rT] is zero, where it is NaN. *)
Theorem prices_are_nonnegative (S K T r sigma : R) (option_type : string) :
  0 < S -> 0 < K -> 0 < T -> 0 <= sigma ->
  option_type = "call" \/ option_type = "put" ->
  (forall (N : nat) (g : np.random.generator),
      (0 < N)%nat ->
      exists p : float64,
        fst (Main.monte_carlo_option_pricing (Fin S) (Fin K) (Fin T) (Fin r)
               (Fin sigma) N option_type g)
        = Return p
        /\ nonnegative p)
  /\ (0 < sigma \/ moneyness S K T r <> 0 ->
      nonnegative
        (Main.BSM (Fin S) (Fin K) (Fin T) (Fin r) (Fin sigma) option_type)
      /\ exists p : float64,
           ImpliedVol.black_scholes (Fin S) (Fin K) (Fin T) (Fin r)
             (Fin sigma) option_type
           = Return p
           /\ nonnegative p).
Proof.
  intros HS HK HT Hs Ht. split.
  - intros N g HN. destruct Ht as [->| ->]; eexists; split.
    + apply monte_carlo_call; [lra | exact HN].
    + apply nonnegative_fin, discounted_mean_payoff_nonneg; [exact HN|].
      intros k s. unfold call_payoff. apply Rmax_l.
    + apply monte_carlo_put; [lra | exact HN].
    + apply nonnegative_fin, discounted_mean_payoff_nonneg; [exact HN|].
      intros k s. unfold put_payoff. apply Rmax_l.
  - intro Hdom. destruct (Req_dec_T sigma 0) as [E|E].
    + subst sigma.
      assert (Hm : moneyness S K T r <> 0) by (destruct Hdom; lra).
      rewrite BSM_zero_volatility by assumption.
      rewrite black_scholes_zero_volatility by assumption.
      split; [|eexists; split; [reflexivity|]];
        now apply zero_volatility_price_nonneg.
    + assert (Hpos : 0 < sigma) by lra.
      pose proof (call_price_nonneg S K T r sigma HS HK HT Hpos) as Hc.
      pose proof (put_price_nonneg S K T r sigma HS HK HT Hpos) as Hp.
      destruct Ht as [->| ->].
      * rewrite BSM_call_fin, black_scholes_call_fin by assumption.
        split; [|eexists; split; [reflexivity|]]; now apply nonnegative_fin.
      * rewrite (BSM_put_fin S K T r sigma HS HK HT E "put") by discriminate.
        rewrite black_scholes_put_fin by assumption.
        split; [|eexists; split; [reflexivity|]]; now apply nonnegative_fin.
Qed.

Lemma prices_are_nonnegative_witness :
  nonnegative
    (Main.BSM (Fin 100) (Fin 105) (Fin 2) (Fin 0.05) (Fin 0.2) "put").
Proof.
  apply (prices_are_nonnegative 100 105 2 0.05 0.2 "put");
    try lra. now right.
Defined.

End NonNegativePrices.

(** ** The round trip through the solver *)

Section Underflow.

Lemma tiny_pos : 0 < tiny.
Proof. unfold tiny. apply Rinv_0_lt_compat, pow_lt. lra. Qed.

Lemma tiny_lt : tiny < / 16.
Proof.
  unfold tiny.
  assert (H : 2 ^ 4 < 2 ^ 1075) by (apply Rlt_pow; [lra | lia]).
  set (p := 2 ^ 1075) in *.
  replace 16 with (2 ^ 4) by (simpl; lra).
  apply Rinv_lt_contravar; [|exact H].
  apply Rmult_lt_0_compat; [apply pow_lt; lra | lra].
Qed.

Lemma pow_2_le_exp (n : nat) : 2 ^ n <= exp (INR n).
Proof.
  induction n as [|n IH].
  - simpl. rewrite exp_0. lra.
  - rewrite S_INR, exp_plus. simpl pow.
    pose proof (exp_ineq1_le 1). pose proof (exp_pos (INR n)).
    assert (0 < 2 ^ n) by (apply pow_lt; lra). nra.
Qed.

(** The density underflows beyond [sqrt 2150], about 46.4; the bound is
    not sharp. *)
Lemma phi_underflow (x : R) : 2150 <= x * x -> phi x <= tiny.
Proof.
  intro Hx. unfold phi, tiny.
  assert (H1 : 1 < sqrt (2 * PI)).
  { rewrite <- sqrt_1 at 1. apply sqrt_lt_1_alt. pose proof PI2_1. lra. }
  assert (H2 : exp (- (x * x) / 2) <= exp (- INR 1075)).
  { destruct (Req_dec_T (- (x * x) / 2) (- INR 1075)) as [->|Hne]; [lra|].
    left. apply exp_increasing.
    assert (INR 1075 = 1075) by (rewrite INR_IZR_INZ; reflexivity). lra. }
  assert (H3 : exp (- INR 1075) <= / 2 ^ 1075).
  { rewrite exp_Ropp. apply Rinv_le_contravar; [apply pow_lt; lra|].
    apply pow_2_le_exp. }
  pose proof (exp_pos (- (x * x) / 2)) as H4.
  set (p := / 2 ^ 1075) in *. set (e := exp (- (x * x) / 2)) in *.
  apply Rmult_le_reg_r with (sqrt (2 * PI)); [lra|].
  unfold Rdiv. rewrite Rmult_assoc, Rinv_l by lra. nra.
Qed.

Lemma sqrt_2PI_le_3 : sqrt (2 * PI) <= 3.
Proof.
  rewrite <- (sqrt_square 3) by lra. apply sqrt_le_1_alt.
  pose proof PI_4. lra.
Qed.

Lemma phi_0_ge_third : / 3 <= phi 0.
Proof.
  unfold phi. replace (- (0 * 0) / 2) with 0 by lra. rewrite exp_0.
  pose proof sqrt_2PI_le_3. pose proof sqrt_2PI_pos.
  unfold Rdiv. rewrite Rmult_1_l. now apply Rinv_le_contravar.
Qed.

Lemma phi_antitone (x y : R) : 0 <= x <= y -> phi y <= phi x.
Proof.
  intros [Hx Hxy]. unfold phi. apply Rmult_le_compat_r.
  - left. apply Rinv_0_lt_compat, sqrt_2PI_pos.
  - destruct (Req_dec_T x y) as [->|Hne]; [lra|].
    left. apply exp_increasing. nra.
Qed.

(** [phi y >= (1 - y^2/2) phi 0]. *)
Lemma phi_lower (y : R) : (1 - y * y / 2) * phi 0 <= phi y.
Proof.
  unfold phi. replace (- (0 * 0) / 2) with 0 by lra. rewrite exp_0.
  pose proof (exp_ineq1_le (- (y * y) / 2)).
  pose proof sqrt_2PI_pos as Hq.
  apply Rmult_le_reg_r with (sqrt (2 * PI)); [lra|].
  unfold Rdiv. rewrite !Rmult_assoc, Rinv_l by lra. lra.
Qed.

(** Within [sqrt 2] of the origin the density is at least a third of its
    maximum, far from underflow. *)
Lemma phi_near (y : R) : y * y <= 2 -> phi 0 <= 3 * phi y.
Proof.
  intro Hy. unfold phi. replace (- (0 * 0) / 2) with 0 by lra. rewrite exp_0.
  assert (He : / 3 <= exp (- (y * y) / 2)).
  { apply Rle_trans with (exp (- (1))).
    - rewrite exp_Ropp. apply Rinv_le_contravar; [apply exp_pos|].
      apply exp_le_3.
    - destruct (Req_dec_T (- (1)) (- (y * y) / 2)) as [->|Hne]; [lra|].
      left. apply exp_increasing. lra. }
  pose proof sqrt_2PI_pos as Hq.
  apply Rmult_le_reg_r with (sqrt (2 * PI)); [lra|].
  unfold Rdiv. rewrite !Rmult_assoc, Rinv_l by lra. lra.
Qed.

Lemma phi_no_underflow (y : R) : y * y <= 2 -> tiny < phi y.
Proof.
  intro Hy. pose proof (phi_near y Hy). pose proof phi_0_ge_third.
  pose proof tiny_lt. lra.
Qed.

(** The increments of the distribution function on the positive side. *)
Lemma Phi_increment (x y : R) :
  0 <= x <= y -> phi y * (y - x) <= Phi y - Phi x <= phi x * (y - x).
Proof.
  intros [Hx [Hxy| <-]]; [|lra].
  destruct (MVT_cor2 Phi phi x y Hxy) as (c & Hc & Hin).
  { intros c _. apply Phi_derivable_pt_lim. }
  rewrite Hc.
  pose proof (phi_antitone x c ltac:(lra)).
  pose proof (phi_antitone c y ltac:(lra)).
  split; apply Rmult_le_compat_r; lra.
Qed.

End Underflow.

Section AtTheMoney.

Import Formula.

Variables s T : R.
Hypothesis s_pos : 0 < s.
Hypothesis T_pos : 0 < T.

Lemma d1_at_the_money (sigma : R) :
  sigma <> 0 -> d1 s s T 0 sigma = sigma * sqrt T / 2.
Proof.
  intro Hs. unfold d1. rewrite ln_1_over by exact s_pos.
  pose proof (sqrt_lt_R0 T T_pos) as Hq.
  pose proof (sqrt_sqrt T (Rlt_le _ _ T_pos)) as Hqq.
  rewrite <- Hqq at 1. field. split; lra.
Qed.

Lemma d2_at_the_money (sigma : R) :
  sigma <> 0 -> d2 s s T 0 sigma = - (sigma * sqrt T / 2).
Proof. intro Hs. unfold d2. rewrite d1_at_the_money by exact Hs. lra. Qed.

Lemma price_at_the_money (option_type : string) (sigma : R) :
  sigma <> 0 ->
  price_of s s T 0 option_type sigma = s * (2 * Phi (sigma * sqrt T / 2) - 1).
Proof.
  intro Hs. unfold price_of, call_price, put_price.
  rewrite d1_at_the_money, d2_at_the_money by exact Hs.
  replace (- 0 * T) with 0 by ring. rewrite exp_0, Ropp_involutive.
  rewrite Phi_opp. destruct (String.eqb option_type "call"); ring.
Qed.

Lemma vega_at_the_money (sigma : R) :
  sigma <> 0 -> vega s s T 0 sigma = s * phi (sigma * sqrt T / 2) * sqrt T.
Proof. intro Hs. unfold vega. now rewrite d1_at_the_money. Qed.

Lemma update_at_the_money (option_type : string) (target sigma : R) :
  sigma <> 0 -> target <> 0 ->
  newton_update s s T 0 option_type (price_of s s T 0 option_type target) sigma
  = at_the_money_update T target sigma.
Proof.
  intros Hs Ht. unfold newton_update, at_the_money_update.
  rewrite !price_at_the_money, vega_at_the_money by assumption.
  pose proof (sqrt_lt_R0 T T_pos). pose proof (phi_pos (sigma * sqrt T / 2)).
  field. repeat split; lra.
Qed.

(** Between two positive volatilities the price moves by at least the vega
    of the larger and at most the vega of the smaller, per unit. *)
Lemma price_gap (option_type : string) (x y : R) :
  0 < x <= y ->
  vega s s T 0 y * (y - x)
  <= price_of s s T 0 option_type y - price_of s s T 0 option_type x
  <= vega s s T 0 x * (y - x).
Proof.
  intros [Hx Hxy]. pose proof (sqrt_lt_R0 T T_pos) as Hq.
  rewrite !price_at_the_money, !vega_at_the_money by lra.
  pose proof (Phi_increment (x * sqrt T / 2) (y * sqrt T / 2)) as H.
  assert (H0 : 0 <= x * sqrt T / 2 <= y * sqrt T / 2) by (split; nra).
  specialize (H H0).
  replace (y * sqrt T / 2 - x * sqrt T / 2) with ((y - x) * sqrt T / 2) in H
    by lra.
  pose proof (phi_pos (x * sqrt T / 2)). pose proof (phi_pos (y * sqrt T / 2)).
  split; nra.
Qed.

Hypothesis T_le : T <= 8.

Lemma argument_near (x : R) :
  0 < x <= 1 -> (x * sqrt T / 2) * (x * sqrt T / 2) <= 2.
Proof.
  intros [H0 H1]. pose proof (sqrt_sqrt T (Rlt_le _ _ T_pos)) as Hqq.
  replace (x * sqrt T / 2 * (x * sqrt T / 2))
    with (x * x * (sqrt T * sqrt T) / 4) by lra.
  rewrite Hqq. nra.
Qed.

Lemma vega_monotone (x y : R) :
  0 < x <= y -> vega s s T 0 y <= vega s s T 0 x.
Proof.
  intros [Hx Hxy]. pose proof (sqrt_lt_R0 T T_pos) as Hq.
  rewrite !vega_at_the_money by lra.
  pose proof (phi_antitone (x * sqrt T / 2) (y * sqrt T / 2)
                ltac:(split; nra)).
  apply Rmult_le_compat_r; [lra|]. apply Rmult_le_compat_l; lra.
Qed.

Lemma sqrt_T_le_3 : sqrt T <= 3.
Proof.
  rewrite <- (sqrt_square 3) by lra. apply sqrt_le_1_alt. lra.
Qed.

Lemma vega_le (x : R) : x <> 0 -> vega s s T 0 x <= s * (3 / 2).
Proof.
  intro Hx. rewrite vega_at_the_money by exact Hx.
  pose proof (phi_le_phi_0 (x * sqrt T / 2)). pose proof phi_0_lt_half.
  pose proof (phi_pos (x * sqrt T / 2)).
  pose proof sqrt_T_le_3. pose proof (sqrt_lt_R0 T T_pos).
  assert (phi (x * sqrt T / 2) * sqrt T <= 3 / 2) by nra.
  nra.
Qed.

(** An update from below the target stays below it and removes at least a
    third of the distance. *)
Lemma update_from_below (target x : R) :
  0 < x <= target -> target <= 1 ->
  x <= at_the_money_update T target x <= target
  /\ target - at_the_money_update T target x <= 2 / 3 * (target - x).
Proof.
  intros [Hx Hxt] Ht1. unfold at_the_money_update.
  pose proof (sqrt_lt_R0 T T_pos) as Hq.
  set (u := x * sqrt T / 2). set (v := target * sqrt T / 2).
  assert (Huv : 0 <= u <= v) by (unfold u, v; split; nra).
  pose proof (Phi_increment u v Huv) as [Hlo Hhi].
  assert (Hvu : v - u = sqrt T / 2 * (target - x)) by (unfold u, v; lra).
  rewrite Hvu in Hlo, Hhi.
  pose proof (phi_pos u) as Hpu.
  pose proof (phi_near v (argument_near target ltac:(lra))) as Hnear.
  pose proof (phi_le_phi_0 u) as Hu0.
  set (D := sqrt T / 2 * phi u).
  assert (HD : 0 < D) by (unfold D; nra).
  set (num := Phi v - Phi u) in *.
  assert (H1 : num <= D * (target - x)) by (unfold D; nra).
  assert (H2 : D * (target - x) <= 3 * num) by (unfold D; nra).
  assert (Hd : num / D * D = num) by (field; lra).
  set (q := num / D) in *.
  assert (Hq1 : q <= target - x) by nra.
  assert (Hq2 : target - x <= 3 * q) by nra.
  split; [split|]; lra.
Qed.

(** The first update from the initial guess [0.2], when the target is
    below it, lands between zero and the target. *)
Lemma update_from_above (target : R) :
  5 / 100 <= target < 2 / 10 ->
  0 < at_the_money_update T target (2 / 10) <= target.
Proof.
  intros [Ht0 Ht1]. unfold at_the_money_update.
  pose proof (sqrt_lt_R0 T T_pos) as Hq.
  pose proof (sqrt_sqrt T (Rlt_le _ _ T_pos)) as Hqq.
  set (u := 2 / 10 * sqrt T / 2). set (v := target * sqrt T / 2).
  assert (Hvu : 0 <= v <= u) by (unfold u, v; split; nra).
  pose proof (Phi_increment v u Hvu) as [Hlo Hhi].
  assert (Huv : u - v = sqrt T / 2 * (2 / 10 - target))
    by (unfold u, v; lra).
  rewrite Huv in Hlo, Hhi.
  pose proof (phi_pos u) as Hpu.
  pose proof (phi_le_phi_0 v) as Hv0.
  pose proof (phi_lower u) as Hlow.
  assert (Huu : u * u / 2 <= 4 / 100).
  { replace (u * u / 2) with (sqrt T * sqrt T / 200) by (unfold u; lra).
    rewrite Hqq. lra. }
  pose proof (phi_pos 0) as Hp0.
  assert (H96 : 96 / 100 * phi 0 <= phi u) by nra.
  set (D := sqrt T / 2 * phi u).
  assert (HD : 0 < D) by (unfold D; nra).
  assert (H1 : D * (2 / 10 - target) <= Phi u - Phi v) by (unfold D; lra).
  assert (H2 : (Phi u - Phi v) * (96 / 100) <= D * (2 / 10 - target)).
  { unfold D. nra. }
  replace (Phi v - Phi u) with (- (Phi u - Phi v)) by ring.
  set (num := Phi u - Phi v) in *.
  assert (Hd : num / D * D = num) by (field; lra).
  replace (- num / D) with (- (num / D)) by (field; lra).
  set (q := num / D) in *.
  assert (Hq1 : 2 / 10 - target <= q) by nra.
  assert (Hq2 : q * (96 / 100) <= 2 / 10 - target) by nra.
  split; lra.
Qed.

End AtTheMoney.

Section NewtonIterates.

Import Formula.

Lemma closed_form_fin (S K T r sigma : R) (option_type : string) :
  0 < S -> 0 < K -> 0 < T -> sigma <> 0 ->
  option_type = "call" \/ option_type = "put" ->
  closed_form (Fin S) (Fin K) (Fin T) (Fin r) option_type (Fin sigma)
  = Fin (price_of S K T r option_type sigma).
Proof.
  intros HS HK HT Hs [->| ->]; unfold closed_form, price_of.
  - now rewrite black_scholes_call_fin.
  - now rewrite black_scholes_put_fin.
Qed.

(** The first iteration returns the current volatility when its vega is
    not zero and its price is within the tolerance. *)
Lemma newton_loop_stops_at_once
  (S K T r market_price tol sigma price : float64) (option_type : string)
  (n : nat) :
  ImpliedVol.black_scholes S K T r sigma option_type = Return price ->
  feq (ImpliedVol.vega S K T r sigma) (Fin 0) = false ->
  flt (fabs (fsub market_price price)) tol = true ->
  ImpliedVol.newton_loop S K T r market_price option_type tol
    (Datatypes.S n) sigma
  = Return sigma.
Proof.
  intros Hp Hv Hc. cbn [ImpliedVol.newton_loop]. rewrite Hp. cbn [bind].
  now rewrite Hv, Hc.
Qed.

(** The first iteration raises when the vega is zero, whatever the
    price. *)
Lemma newton_loop_zero_vega
  (S K T r market_price tol sigma price : float64) (option_type : string)
  (n : nat) :
  ImpliedVol.black_scholes S K T r sigma option_type = Return price ->
  feq (ImpliedVol.vega S K T r sigma) (Fin 0) = true ->
  ImpliedVol.newton_loop S K T r market_price option_type tol
    (Datatypes.S n) sigma
  = Raise ImpliedVol.zero_vega.
Proof.
  intros Hp Hv. cbn [ImpliedVol.newton_loop]. rewrite Hp. cbn [bind].
  now rewrite Hv.
Qed.

(** The update of the loop on finite values, where the density has not
    underflowed. *)
Lemma newton_step_fin (S K T r market_price sigma : R)
  (option_type : string) :
  0 < S -> 0 < K -> 0 < T -> sigma <> 0 ->
  tiny < phi (d1 S K T r sigma) ->
  option_type = "call" \/ option_type = "put" ->
  newton_step (Fin S) (Fin K) (Fin T) (Fin r) (Fin market_price) option_type
    (Fin sigma)
  = Fin (newton_update S K T r option_type market_price sigma).
Proof.
  intros HS HK HT Hs Hu Ht. unfold newton_step, newton_update.
  rewrite closed_form_fin, vega_fin by assumption.
  rewrite fsub_fin, fdiv_fin; [reflexivity|].
  apply Rgt_not_eq. now apply vega_pos.
Qed.

Lemma degenerate_fin (S K T r sigma : R) :
  0 < S -> 0 < K -> 0 < T -> sigma <> 0 ->
  tiny < phi (d1 S K T r sigma) ->
  degenerate (Fin S) (Fin K) (Fin T) (Fin r) (Fin sigma) = false.
Proof.
  intros HS HK HT Hs Hu. unfold degenerate. rewrite vega_fin by assumption.
  cbn [feq]. apply Reqb_false, Rgt_not_eq. now apply vega_pos.
Qed.

Lemma converged_fin (S K T r market_price sigma : R)
  (option_type : string) :
  0 < S -> 0 < K -> 0 < T -> sigma <> 0 ->
  option_type = "call" \/ option_type = "put" ->
  converged (Fin S) (Fin K) (Fin T) (Fin r) (Fin market_price) option_type
    ImpliedVol.default_tol (Fin sigma)
  = Rltb (Rabs (market_price - price_of S K T r option_type sigma)) 1e-5.
Proof.
  intros HS HK HT Hs Ht. unfold converged.
  rewrite closed_form_fin by assumption. reflexivity.
Qed.

Lemma Rltb_lt (x y : R) : Rltb x y = true -> x < y.
Proof. unfold Rltb. now destruct (Rlt_dec x y). Qed.

Lemma two_thirds_pow : (2 / 3) ^ 98 <= / 10 ^ 16.
Proof.
  assert (H6 : (2 / 3) ^ 6 <= / 10) by (simpl; lra).
  assert (H96 : (2 / 3) ^ 96 <= (/ 10) ^ 16).
  { change 96%nat with (6 * 16)%nat. rewrite pow_mult.
    apply pow_incr. split; [|exact H6]. apply pow_le. lra. }
  rewrite pow_inv in H96.
  change 98%nat with (96 + 2)%nat. rewrite pow_add.
  assert (0 <= (2 / 3) ^ 96) by (apply pow_le; lra).
  assert ((2 / 3) ^ 2 <= 1) by (simpl; lra).
  set (p := (2 / 3) ^ 96) in *. set (t := / 10 ^ 16) in *. nra.
Qed.

Variables s T : R.
Hypothesis s_pos : 0 < s.
Hypothesis s_le : s <= 1000000.
Hypothesis T_pos : 0 < T.
Hypothesis T_le : T <= 8.

Variable target : R.
Hypothesis target_range : 5 / 100 <= target <= 1.

Variable option_type : string.
Hypothesis valid_type : option_type = "call" \/ option_type = "put".

Local Abbreviation iterate := (at_the_money_iterate T target).

Lemma iterate_succ (n : nat) :
  iterate (Datatypes.S n) = at_the_money_update T target (iterate n).
Proof. unfold at_the_money_iterate. apply Nat.iter_succ. Qed.

Lemma iterate_0 : iterate 0 = 0.2.
Proof. reflexivity. Qed.

Lemma iterates_below (n : nat) :
  0 < iterate (Datatypes.S n) <= target
  /\ target - iterate (Datatypes.S n) <= (2 / 3) ^ n.
Proof.
  induction n as [|n [IH1 IH2]].
  - rewrite iterate_succ, iterate_0. cbn [pow].
    replace 0.2 with (2 / 10) by lra.
    destruct (Rlt_le_dec target (2 / 10)) as [Hlt|Hge].
    + pose proof (update_from_above T T_pos T_le target ltac:(lra)). lra.
    + pose proof (update_from_below T T_pos T_le target (2 / 10)
                    ltac:(lra) ltac:(lra)). lra.
  - rewrite iterate_succ.
    pose proof (update_from_below T T_pos T_le target
                  (iterate (Datatypes.S n)) IH1 ltac:(lra)) as [H1 H2].
    cbn [pow]. split; lra.
Qed.

Lemma iterates_near (n : nat) : 0 < iterate n <= 1.
Proof.
  destruct n as [|n]; [rewrite iterate_0; lra|].
  pose proof (iterates_below n). lra.
Qed.

Lemma iterates_no_underflow (n : nat) :
  tiny < phi (d1 s s T 0 (iterate n)).
Proof.
  pose proof (iterates_near n) as H.
  rewrite d1_at_the_money by lra.
  apply phi_no_underflow. now apply argument_near.
Qed.

Local Abbreviation market_price := (price_of s s T 0 option_type target).

Local Abbreviation step :=
  (newton_step (Fin s) (Fin s) (Fin T) (Fin 0) (Fin market_price)
     option_type).

(** The iterates of the solver are these. *)
Lemma newton_iterate_at_the_money (n : nat) :
  Nat.iter n step (Fin 0.2) = Fin (iterate n).
Proof.
  induction n as [|n IH]; [reflexivity|].
  rewrite Nat.iter_succ, IH, iterate_succ.
  pose proof (iterates_near n) as Hn.
  rewrite newton_step_fin;
    [|assumption|assumption|assumption|lra
     |apply iterates_no_underflow|assumption].
  now rewrite update_at_the_money by lra.
Qed.

Lemma iterates_not_degenerate (n : nat) :
  degenerate (Fin s) (Fin s) (Fin T) (Fin 0) (Fin (iterate n)) = false.
Proof.
  pose proof (iterates_near n).
  apply degenerate_fin; try assumption; [lra | apply iterates_no_underflow].
Qed.

(** How far the price of an iterate is from the market price. *)
Lemma iterate_gap (n : nat) :
  0 <= market_price - price_of s s T 0 option_type (iterate (Datatypes.S n))
  <= s * (3 / 2) * (2 / 3) ^ n.
Proof.
  pose proof (iterates_below n) as [[H0 H1] H2].
  pose proof (price_gap s T s_pos T_pos option_type _ _ (conj H0 H1))
    as [Hlo Hhi].
  pose proof (vega_le s T s_pos T_pos T_le (iterate (Datatypes.S n))
                ltac:(lra)) as Hv.
  pose proof (vega_pos s s T 0 target s_pos T_pos) as Hvt.
  pose proof (vega_pos s s T 0 (iterate (Datatypes.S n)) s_pos T_pos) as Hvi.
  assert (He : 0 <= target - iterate (Datatypes.S n)) by lra.
  set (e := target - iterate (Datatypes.S n)) in *.
  set (p := (2 / 3) ^ n) in *.
  split; [nra|].
  apply Rle_trans with (1 := Hhi).
  apply Rle_trans with (s * (3 / 2) * e); [nra|].
  apply Rmult_le_compat_l; [nra | exact H2].
Qed.

Lemma iterate_99_converged :
  converged (Fin s) (Fin s) (Fin T) (Fin 0) (Fin market_price) option_type
    ImpliedVol.default_tol (Fin (iterate 99)) = true.
Proof.
  pose proof (iterates_near 99) as Hn.
  rewrite converged_fin by (assumption || lra).
  apply Rltb_true.
  pose proof (iterate_gap 98) as [H0 H1].
  rewrite Rabs_pos_eq by exact H0.
  pose proof two_thirds_pow as Hp.
  assert (Ht : / 10 ^ 16 < / 10 ^ 12).
  { apply Rinv_lt_contravar.
    - apply Rmult_lt_0_compat; apply pow_lt; lra.
    - apply Rlt_pow; [lra | lia]. }
  assert (H12 : / 10 ^ 12 = 1e-12) by (simpl; lra).
  set (p := (2 / 3) ^ 98) in *. set (t := / 10 ^ 16) in *. nra.
Qed.

(** A volatility within [(0, 1]] whose price is within the tolerance of the
    market price is close to the target. *)
Lemma close_to_target (x : R) :
  0 < x <= 1 ->
  Rabs (market_price - price_of s s T 0 option_type x) < 1e-5 ->
  Rabs (x - target) * vega s s T 0 1 < 1e-5.
Proof.
  intros Hx Hc.
  pose proof (vega_pos s s T 0 1 s_pos T_pos) as Hv1.
  destruct (Rle_lt_dec x target) as [Hle|Hlt].
  - pose proof (price_gap s T s_pos T_pos option_type x target
                  ltac:(lra)) as [Hlo _].
    pose proof (vega_monotone s T s_pos T_pos target 1 ltac:(lra)) as Hm.
    rewrite Rabs_minus_sym, (Rabs_pos_eq (target - x)) by lra.
    assert (H0 : 0 <= market_price - price_of s s T 0 option_type x) by nra.
    rewrite Rabs_pos_eq in Hc by exact H0. nra.
  - pose proof (price_gap s T s_pos T_pos option_type target x
                  ltac:(lra)) as [Hlo _].
    pose proof (vega_monotone s T s_pos T_pos x 1 ltac:(lra)) as Hm.
    rewrite (Rabs_pos_eq (x - target)) by lra.
    assert (H0 : 0 <= price_of s s T 0 option_type x - market_price) by nra.
    rewrite Rabs_minus_sym, Rabs_pos_eq in Hc by exact H0. nra.
Qed.

Lemma not_quiet :
  ~ quiet (Fin s) (Fin s) (Fin T) (Fin 0) (Fin market_price) option_type
      ImpliedVol.default_tol (Fin 0.2) ImpliedVol.default_max_iter.
Proof.
  intro Hq. destruct (Hq 99%nat) as [_ Hc].
  { unfold ImpliedVol.default_max_iter. lia. }
  rewrite newton_iterate_at_the_money, iterate_99_converged in Hc.
  discriminate Hc.
Qed.

Lemma returned_iterate (n : nat) :
  converged (Fin s) (Fin s) (Fin T) (Fin 0) (Fin market_price) option_type
    ImpliedVol.default_tol (Nat.iter n step (Fin 0.2)) = true ->
  exists recovered : R,
    Nat.iter n step (Fin 0.2) = Fin recovered
    /\ 0 < recovered <= 1
    /\ Rabs (recovered - target) * vega s s T 0 1 < 1e-5.
Proof.
  rewrite newton_iterate_at_the_money. intro Hc.
  pose proof (iterates_near n) as Hnear.
  exists (iterate n). split; [reflexivity|]. split; [exact Hnear|].
  apply close_to_target; [exact Hnear|].
  rewrite converged_fin in Hc by (assumption || lra).
  now apply Rltb_lt.
Qed.

Lemma never_degenerate (n : nat) :
  degenerate (Fin s) (Fin s) (Fin T) (Fin 0) (Nat.iter n step (Fin 0.2))
  = false.
Proof.
  rewrite newton_iterate_at_the_money. apply iterates_not_degenerate.
Qed.

(** At the money the solver succeeds. *)
Lemma solver_at_the_money :
  exists recovered : R,
    ImpliedVol.implied_volatility (Fin s) (Fin s) (Fin T) (Fin 0)
      (Fin market_price) option_type ImpliedVol.default_tol
      ImpliedVol.default_max_iter
    = Return (Fin recovered)
    /\ 0 < recovered <= 1
    /\ Rabs (recovered - target) * vega s s T 0 1 < 1e-5.
Proof.
  unfold ImpliedVol.implied_volatility.
  destruct (newton_loop_outcome (Fin s) (Fin s) (Fin T) (Fin 0)
              (Fin market_price) option_type ImpliedVol.default_tol
              valid_type ImpliedVol.default_max_iter (Fin 0.2))
    as [(n & Hn & _ & _ & Hc & Hr)|[(n & Hn & _ & Hd & _)|(Hq & _)]].
  - destruct (returned_iterate n Hc) as (x & Hx & Hrest).
    exists x. split; [|exact Hrest].
    rewrite Hr. exact (f_equal Return Hx).
  - rewrite never_degenerate in Hd. discriminate Hd.
  - now destruct (not_quiet Hq).
Qed.

End NewtonIterates.

Section RoundTrip.

Import Formula.

Lemma implied_volatility_eq (S K T r market_price : float64)
  (option_type : string) (tol : float64) (max_iter : nat) :
  ImpliedVol.implied_volatility S K T r market_price option_type tol max_iter
  = ImpliedVol.newton_loop S K T r market_price option_type tol max_iter
      (Fin 0.2).
Proof. reflexivity. Qed.

(** At the money, one year, no interest: [d1 = sigma / 2] and the call
    price is twice the spot times the mass between [0] and [sigma / 2]. *)
Lemma at_the_money_call (s sigma : R) :
  0 < s -> 0 < sigma ->
  call_price s s 1 0 sigma = 2 * s * half_mass (sigma / 2).
Proof.
  intros Hs Hsig. unfold call_price, d2.
  assert (Hd1 : d1 s s 1 0 sigma = sigma / 2).
  { unfold d1. rewrite ln_1_over by exact Hs. rewrite sqrt_1. field. lra. }
  rewrite Hd1, sqrt_1.
  replace (sigma / 2 - sigma * 1) with (- (sigma / 2)) by lra.
  replace (- 0 * 1) with 0 by ring. rewrite exp_0, Phi_opp.
  rewrite Phi_nonneg_arg by lra. field.
Qed.

Lemma at_the_money_call_bounds (s sigma : R) :
  0 < s -> 0 < sigma ->
  0 <= call_price s s 1 0 sigma <= s * sigma / 2.
Proof.
  intros Hs Hsig. rewrite at_the_money_call by assumption.
  pose proof (half_mass_nonneg (sigma / 2)) as H0.
  pose proof (half_mass_le (sigma / 2)) as H1.
  rewrite (Rabs_pos_eq (sigma / 2)) in H1 by lra.
  pose proof phi_0_lt_half. pose proof (phi_pos 0).
  assert (half_mass (sigma / 2) <= sigma / 4) by nra.
  split; nra.
Qed.

(** The two call prices at [S = K = 0.00001], for the volatilities [1] and
    [0.2], differ by less than the default tolerance. *)
Lemma small_price_gap :
  flt (fabs (fsub (Fin (call_price 1e-5 1e-5 1 0 1))
                  (Fin (call_price 1e-5 1e-5 1 0 0.2))))
      ImpliedVol.default_tol = true.
Proof.
  unfold ImpliedVol.default_tol. cbn [fsub fneg fadd fabs flt].
  apply Rltb_true.
  pose proof (at_the_money_call_bounds 1e-5 1 ltac:(lra) ltac:(lra)).
  pose proof (at_the_money_call_bounds 1e-5 0.2 ltac:(lra) ltac:(lra)).
  unfold Rabs. destruct (Rcase_abs _); lra.
Qed.

(** At [S = K = 0.00001] the vega of the initial guess has not
    underflowed. *)
Lemma small_price_vega :
  feq (ImpliedVol.vega (Fin 1e-5) (Fin 1e-5) (Fin 1) (Fin 0) (Fin 0.2))
      (Fin 0) = false.
Proof.
  apply (degenerate_fin 1e-5 1e-5 1 0 0.2); try lra.
  rewrite d1_at_the_money by lra. apply phi_no_underflow.
  rewrite sqrt_1. lra.
Qed.

Lemma small_price_solve :
  ImpliedVol.implied_volatility (Fin 1e-5) (Fin 1e-5) (Fin 1) (Fin 0)
    (Fin (call_price 1e-5 1e-5 1 0 1)) "call"
    ImpliedVol.default_tol ImpliedVol.default_max_iter
  = Return (Fin 0.2).
Proof.
  unfold ImpliedVol.implied_volatility.
  apply (newton_loop_stops_at_once _ _ _ _ _ _ _
           (Fin (call_price 1e-5 1e-5 1 0 0.2)) "call" 99).
  - apply black_scholes_call_fin; lra.
  - apply small_price_vega.
  - apply small_price_gap.
Qed.

(** At [S = 100], [K = 150], [T = 0.001], [r = 0] and [sigma = 0.2], [d1]
    is far in the tail: below [-46.5] (it is about [-64]). *)
Lemma deep_out_of_the_money :
  2150 <= d1 100 150 0.001 0 0.2 * d1 100 150 0.001 0 0.2.
Proof.
  assert (Hn : ln (100 / 150) <= - (0.3)).
  { rewrite <- (ln_exp (- (0.3))). left. apply ln_increasing; [lra|].
    pose proof (exp_ineq1_le (- (0.3))). lra. }
  assert (Hq : 0 < sqrt 0.001 < 0.032).
  { split; [apply sqrt_lt_R0; lra|].
    rewrite <- (sqrt_square 0.032) by lra. apply sqrt_lt_1_alt. lra. }
  unfold d1.
  set (num := ln (100 / 150) + (0 + 0.2 * 0.2 / 2) * 0.001).
  set (den := 0.2 * sqrt 0.001).
  assert (Hnum : num <= - (0.2999)) by (unfold num; lra).
  assert (Hden : 0 < den < 0.0064) by (unfold den; lra).
  assert (Hd : num / den * den = num) by (field; lra).
  set (d := num / den) in *.
  assert (d <= - (46.5)) by nra.
  nra.
Qed.

(** There the vega of the initial guess has underflowed to zero and the
    solver raises in its first iteration, although the market price is the
    price of the initial guess. *)
Lemma underflow_raises :
  ImpliedVol.implied_volatility (Fin 100) (Fin 150) (Fin 0.001) (Fin 0)
    (Fin (call_price 100 150 0.001 0 0.2)) "call"
    ImpliedVol.default_tol ImpliedVol.default_max_iter
  = Raise ImpliedVol.zero_vega.
Proof.
  unfold ImpliedVol.implied_volatility.
  apply (newton_loop_zero_vega _ _ _ _ _ _ _
           (Fin (call_price 100 150 0.001 0 0.2)) "call" 99).
  - apply black_scholes_call_fin; lra.
  - rewrite vega_underflow; try lra.
    + cbn [feq]. now apply Reqb_true.
    + apply phi_underflow, deep_out_of_the_money.
Qed.




End RoundTrip.

Import Behaviour.

(** * Further properties of the code *)

(** ** The two closed-form pricers *)

Section TwoImplementations.

Import Formula.

(** [BSM] computes what [black_scholes] computes on the two valid option
    types. *)
Lemma pricers_agree (S K T r sigma : float64) (t : string) :
  t = "call" \/ t = "put" ->
  Main.BSM S K T r sigma t = closed_form S K T r t sigma.
Proof.
  intros [->| ->].
  - unfold closed_form, ImpliedVol.black_scholes, Main.BSM.
    rewrite (fmul_comm (np.sqrt T) sigma). reflexivity.
  - rewrite BSM_not_call by discriminate.
    unfold closed_form, ImpliedVol.black_scholes, put_formula.
    rewrite half_times, fmul_fneg_l. reflexivity.
Qed.

End TwoImplementations.

(** ** The price as a function of the volatility *)

Section Greeks.

Import Formula.

Variables S K T r : R.
Hypothesis S_pos : 0 < S.
Hypothesis K_pos : 0 < K.
Hypothesis T_pos : 0 < T.

(** [S phi(d1) = K e^(-rT) phi(d2)]. *)
Lemma density_balance (sigma : R) :
  0 < sigma ->
  S * phi (d1 S K T r sigma)
  = K * exp (- r * T) * phi (d2 S K T r sigma).
Proof.
  intro Hs. unfold d2. rewrite <- phi_shift.
  rewrite (spot_from_d1 S K T r sigma S_pos K_pos T_pos Hs) at 1. ring.
Qed.

Lemma d1_split (sigma : R) :
  sigma <> 0 ->
  d1 S K T r sigma
  = (ln (S / K) + r * T) / sqrt T * (1 / sigma) + sqrt T / 2 * sigma.
Proof.
  intro Hs. unfold d1.
  pose proof (sqrt_lt_R0 T T_pos) as Hq.
  pose proof (sqrt_sqrt T (Rlt_le _ _ T_pos)) as Hqq.
  apply Rmult_eq_reg_r with (sigma * sqrt T); [|nra].
  transitivity (ln (S / K) + (r + sigma * sigma / 2) * T); [field; lra|].
  transitivity ((ln (S / K) + r * T) + sigma * sigma / 2 * (sqrt T * sqrt T));
    [rewrite Hqq; ring | field; lra].
Qed.

(** The derivative of [d1] in the volatility. *)
Lemma d1_derivable_in_sigma (sigma : R) :
  0 < sigma ->
  derivable_pt_lim (d1 S K T r) sigma
    (- ((ln (S / K) + r * T) / sqrt T) / (sigma * sigma) + sqrt T / 2).
Proof.
  intro Hs. pose proof (sqrt_lt_R0 T T_pos) as Hq.
  apply (derivable_pt_lim_locally_ext
           (fun s => (ln (S / K) + r * T) / sqrt T * (1 / s) + sqrt T / 2 * s)
           (d1 S K T r) sigma (sigma / 2) (sigma + 1)); [lra | |].
  - intros z Hz. symmetry. apply d1_split. lra.
  - apply (derivable_pt_lim_plus
             (mult_real_fct ((ln (S / K) + r * T) / sqrt T)
                (div_fct (fct_cte 1) id))
             (mult_real_fct (sqrt T / 2) id)).
    + replace (- ((ln (S / K) + r * T) / sqrt T) / (sigma * sigma))
        with ((ln (S / K) + r * T) / sqrt T
              * ((0 * id sigma - 1 * fct_cte 1 sigma) / (id sigma)²))
        by (unfold id, fct_cte, Rsqr; field; lra).
      apply derivable_pt_lim_scal.
      apply derivable_pt_lim_div;
        [apply derivable_pt_lim_const | apply derivable_pt_lim_id |].
      unfold id. lra.
    + replace (sqrt T / 2) with (sqrt T / 2 * 1) at 2 by ring.
      apply derivable_pt_lim_scal, derivable_pt_lim_id.
Qed.

Lemma derivable_pt_lim_linear (a x : R) :
  derivable_pt_lim (fun y => y * a) x a.
Proof.
  intros e ep. exists (mkposreal 1 Rlt_0_1). intros h hn _.
  replace (((x + h) * a - x * a) / h - a) with 0 by (field; exact hn).
  now rewrite Rabs_R0.
Qed.

(** The derivative of the call price in the volatility is the vega. *)
Lemma call_price_derivable_in_sigma (sigma : R) :
  0 < sigma ->
  derivable_pt_lim (call_price S K T r) sigma (vega S K T r sigma).
Proof.
  intro Hs.
  set (l := - ((ln (S / K) + r * T) / sqrt T) / (sigma * sigma) + sqrt T / 2).
  assert (Hd1 : derivable_pt_lim (d1 S K T r) sigma l)
    by now apply d1_derivable_in_sigma.
  assert (Hd2 : derivable_pt_lim (d2 S K T r) sigma (l - sqrt T)).
  { apply (derivable_pt_lim_minus (d1 S K T r) (fun s => s * sqrt T));
      [exact Hd1 | apply derivable_pt_lim_linear]. }
  apply (derivable_pt_lim_ext
           (minus_fct (mult_real_fct S (comp Phi (d1 S K T r)))
              (mult_real_fct (K * exp (- r * T)) (comp Phi (d2 S K T r))))).
  { intro z. reflexivity. }
  replace (vega S K T r sigma)
    with (S * (phi (d1 S K T r sigma) * l)
          - K * exp (- r * T) * (phi (d2 S K T r sigma) * (l - sqrt T))).
  - apply derivable_pt_lim_minus; apply derivable_pt_lim_scal;
      apply derivable_pt_lim_comp;
      assumption || apply Phi_derivable_pt_lim.
  - unfold vega. pose proof (density_balance sigma Hs) as Hb.
    replace (K * exp (- r * T) * (phi (d2 S K T r sigma) * (l - sqrt T)))
      with (K * exp (- r * T) * phi (d2 S K T r sigma) * (l - sqrt T))
      by ring.
    rewrite <- Hb. ring.
Qed.

Lemma put_price_derivable_in_sigma (sigma : R) :
  0 < sigma ->
  derivable_pt_lim (put_price S K T r) sigma (vega S K T r sigma).
Proof.
  intro Hs.
  apply (derivable_pt_lim_ext
           (fun s => - (S - K * exp (- r * T)) + call_price S K T r s)).
  { intro z. pose proof (parity_identity S K T r z). lra. }
  now apply derivable_pt_lim_shift, call_price_derivable_in_sigma.
Qed.

Lemma price_of_volatility_eq (option_type : string) (sigma : R) :
  option_type = "call" \/ option_type = "put" -> sigma <> 0 ->
  price_of_volatility S K T r option_type sigma
  = if String.eqb option_type "call" then call_price S K T r sigma
    else put_price S K T r sigma.
Proof.
  intros Ht Hs. unfold price_of_volatility.
  now rewrite closed_form_fin.
Qed.

(** Where the solver's test finds the vega not zero, the density has not
    underflowed. *)
Lemma not_degenerate_no_underflow (sigma : R) :
  sigma <> 0 ->
  degenerate (Fin S) (Fin K) (Fin T) (Fin r) (Fin sigma) = false ->
  tiny < phi (d1 S K T r sigma).
Proof.
  intros Hs Hd. destruct (Rle_lt_dec (phi (d1 S K T r sigma)) tiny) as [Hu|Hu];
    [|exact Hu].
  unfold degenerate in Hd. rewrite vega_underflow in Hd by assumption.
  cbn [feq] in Hd. rewrite Reqb_true in Hd by reflexivity. discriminate Hd.
Qed.

Lemma vega_of_volatility_eq (sigma : R) :
  sigma <> 0 ->
  degenerate (Fin S) (Fin K) (Fin T) (Fin r) (Fin sigma) = false ->
  vega_of_volatility S K T r sigma = vega S K T r sigma.
Proof.
  intros Hs Hd. unfold vega_of_volatility.
  rewrite vega_fin; [reflexivity|assumption..|].
  now apply not_degenerate_no_underflow.
Qed.

Lemma price_of_volatility_derivable (option_type : string) (sigma : R) :
  option_type = "call" \/ option_type = "put" -> 0 < sigma ->
  derivable_pt_lim (price_of_volatility S K T r option_type) sigma
    (vega S K T r sigma).
Proof.
  intros Ht Hs.
  apply (derivable_pt_lim_locally_ext
           (fun s => if String.eqb option_type "call"
                     then call_price S K T r s else put_price S K T r s)
           _ sigma (sigma / 2) (sigma + 1)); [lra | |].
  - intros z Hz. symmetry. apply price_of_volatility_eq; [exact Ht | lra].
  - destruct Ht as [->| ->]; cbn [String.eqb Ascii.eqb Bool.eqb].
    + now apply call_price_derivable_in_sigma.
    + now apply put_price_derivable_in_sigma.
Qed.

Lemma price_of_volatility_increasing (option_type : string) (s1 s2 : R) :
  option_type = "call" \/ option_type = "put" ->
  0 < s1 -> s1 < s2 ->
  price_of_volatility S K T r option_type s1
  < price_of_volatility S K T r option_type s2.
Proof.
  intros Ht H1 H12.
  destruct (MVT_cor2 (price_of_volatility S K T r option_type)
              (vega S K T r) s1 s2 H12) as (c & Hc & Hin).
  { intros c Hc. apply price_of_volatility_derivable; [exact Ht | lra]. }
  pose proof (vega_pos S K T r c S_pos T_pos). nra.
Qed.

End Greeks.

(** ** The price as a function of the spot price *)

Section Delta.

Import Formula.

Variables K T r sigma : R.
Hypothesis K_pos : 0 < K.
Hypothesis T_pos : 0 < T.
Hypothesis sigma_pos : 0 < sigma.

Lemma spread_nonzero : sigma * sqrt T <> 0.
Proof. pose proof (sqrt_lt_R0 T T_pos). nra. Qed.

(** The derivative of [d1] in the spot price. *)
Lemma d1_derivable_in_spot (S : R) :
  0 < S ->
  derivable_pt_lim (fun s => d1 s K T r sigma) S (/ (S * (sigma * sqrt T))).
Proof.
  intro HS. pose proof spread_nonzero as Ha.
  apply (derivable_pt_lim_ext
           (mult_real_fct (/ (sigma * sqrt T))
              (fun s => (r + sigma * sigma / 2) * T + ln (s / K)))).
  { intro z. unfold mult_real_fct, d1. pose proof (sqrt_lt_R0 T T_pos).
    field. split; lra. }
  replace (/ (S * (sigma * sqrt T)))
    with (/ (sigma * sqrt T) * (/ (S / K) * / K))
    by (pose proof (sqrt_lt_R0 T T_pos); field; repeat split; lra).
  apply derivable_pt_lim_scal, derivable_pt_lim_shift.
  apply (derivable_pt_lim_comp (fun s => s / K) ln).
  - apply (derivable_pt_lim_linear (/ K) S).
  - apply derivable_pt_lim_ln. apply Rdiv_lt_0_compat; lra.
Qed.

(** The derivative of the call price in the spot price is [Phi(d1)]. *)
Lemma call_price_derivable_in_spot (S : R) :
  0 < S ->
  derivable_pt_lim (fun s => call_price s K T r sigma) S
    (Phi (d1 S K T r sigma)).
Proof.
  intro HS.
  set (l := / (S * (sigma * sqrt T))).
  assert (Hd1 : derivable_pt_lim (fun s => d1 s K T r sigma) S l)
    by now apply d1_derivable_in_spot.
  assert (Hd2 : derivable_pt_lim (fun s => d2 s K T r sigma) S l).
  { replace l with (l - 0) by ring.
    apply (derivable_pt_lim_minus (fun s => d1 s K T r sigma)
             (fct_cte (sigma * sqrt T)));
      [exact Hd1 | apply derivable_pt_lim_const]. }
  apply (derivable_pt_lim_ext
           (minus_fct
              (mult_fct id (comp Phi (fun s => d1 s K T r sigma)))
              (mult_real_fct (K * exp (- r * T))
                 (comp Phi (fun s => d2 s K T r sigma))))).
  { intro z. reflexivity. }
  replace (Phi (d1 S K T r sigma))
    with ((1 * comp Phi (fun s => d1 s K T r sigma) S
           + id S * (phi (d1 S K T r sigma) * l))
          - K * exp (- r * T) * (phi (d2 S K T r sigma) * l)).
  - apply derivable_pt_lim_minus.
    + apply derivable_pt_lim_mult; [apply derivable_pt_lim_id|].
      apply derivable_pt_lim_comp;
        [exact Hd1 | apply Phi_derivable_pt_lim].
    + apply derivable_pt_lim_scal.
      apply (derivable_pt_lim_comp (fun s => d2 s K T r sigma) Phi);
        [exact Hd2 | apply Phi_derivable_pt_lim].
  - unfold comp, id.
    pose proof (density_balance S K T r HS K_pos T_pos sigma sigma_pos) as Hb.
    replace (K * exp (- r * T) * (phi (d2 S K T r sigma) * l))
      with (K * exp (- r * T) * phi (d2 S K T r sigma) * l) by ring.
    rewrite <- Hb. ring.
Qed.

Lemma price_of_spot_eq (option_type : string) (S : R) :
  option_type = "call" \/ option_type = "put" -> 0 < S ->
  price_of_spot K T r sigma option_type S
  = if String.eqb option_type "call" then call_price S K T r sigma
    else put_price S K T r sigma.
Proof.
  intros Ht HS. unfold price_of_spot.
  rewrite closed_form_fin; (reflexivity || assumption || lra).
Qed.

Lemma call_price_increment (S1 S2 : R) :
  0 < S1 -> S1 <= S2 ->
  0 <= call_price S2 K T r sigma - call_price S1 K T r sigma <= S2 - S1.
Proof.
  intros H1 [H12| <-]; [|lra].
  destruct (MVT_cor2 (fun s => call_price s K T r sigma)
              (fun s => Phi (d1 s K T r sigma)) S1 S2 H12) as (c & Hc & Hin).
  { intros c Hc. apply call_price_derivable_in_spot. lra. }
  cbv beta in Hc. pose proof (Phi_bounds (d1 c K T r sigma)). nra.
Qed.

End Delta.

(** ** No-arbitrage bounds *)

Section PriceBounds.

Import Formula.

Lemma call_price_bounds (S K T r sigma : R) :
  0 < S -> 0 < K -> 0 < T -> 0 < sigma ->
  Rmax 0 (S - K * exp (- r * T)) <= call_price S K T r sigma <= S.
Proof.
  intros HS HK HT Hs.
  pose proof (call_price_nonneg S K T r sigma HS HK HT Hs) as Hc.
  pose proof (put_price_nonneg S K T r sigma HS HK HT Hs) as Hp.
  pose proof (parity_identity S K T r sigma) as Hpar.
  pose proof (exp_pos (- r * T)) as He.
  assert (Hd : 0 < K * exp (- r * T)) by nra.
  split; [apply Rmax_lub; lra|].
  unfold call_price.
  pose proof (Phi_bounds (d1 S K T r sigma)).
  pose proof (Phi_bounds (d2 S K T r sigma)). nra.
Qed.

Lemma put_price_bounds (S K T r sigma : R) :
  0 < S -> 0 < K -> 0 < T -> 0 < sigma ->
  Rmax 0 (K * exp (- r * T) - S) <= put_price S K T r sigma
  <= K * exp (- r * T).
Proof.
  intros HS HK HT Hs.
  pose proof (call_price_nonneg S K T r sigma HS HK HT Hs) as Hc.
  pose proof (put_price_nonneg S K T r sigma HS HK HT Hs) as Hp.
  pose proof (parity_identity S K T r sigma) as Hpar.
  pose proof (exp_pos (- r * T)) as He.
  assert (Hd : 0 < K * exp (- r * T)) by nra.
  split; [apply Rmax_lub; lra|].
  unfold put_price.
  pose proof (Phi_bounds (- d1 S K T r sigma)).
  pose proof (Phi_bounds (- d2 S K T r sigma)). nra.
Qed.

(** At the money, for moderate maturities and volatilities, the vega is not
    zero. *)
Lemma at_the_money_not_degenerate (s T sigma : R) :
  0 < s -> 0 < T <= 8 -> 0 < sigma <= 1 ->
  degenerate (Fin s) (Fin s) (Fin T) (Fin 0) (Fin sigma) = false.
Proof.
  intros Hs HT Hx. apply degenerate_fin; try lra.
  rewrite d1_at_the_money by lra.
  apply phi_no_underflow, argument_near; lra.
Qed.

End PriceBounds.

(** ** Negative volatilities *)

Section NegativeVolatility.

Import Formula.

Lemma d1_opp (S K T r sigma : R) :
  0 < T -> sigma <> 0 -> d1 S K T r (- sigma) = - d1 S K T r sigma.
Proof.
  intros HT Hs. unfold d1. pose proof (sqrt_lt_R0 T HT).
  replace (- sigma * - sigma) with (sigma * sigma) by ring.
  field. split; lra.
Qed.

Lemma d2_opp (S K T r sigma : R) :
  0 < T -> sigma <> 0 -> d2 S K T r (- sigma) = - d2 S K T r sigma.
Proof. intros HT Hs. unfold d2. rewrite d1_opp by assumption. ring. Qed.

Lemma call_price_opp (S K T r sigma : R) :
  0 < T -> sigma <> 0 ->
  call_price S K T r (- sigma) = - put_price S K T r sigma.
Proof.
  intros HT Hs. unfold call_price, put_price.
  rewrite d1_opp, d2_opp by assumption. ring.
Qed.

Lemma put_price_opp (S K T r sigma : R) :
  0 < T -> sigma <> 0 ->
  put_price S K T r (- sigma) = - call_price S K T r sigma.
Proof.
  intros HT Hs. unfold call_price, put_price.
  rewrite d1_opp, d2_opp, !Ropp_involutive by assumption. ring.
Qed.

Lemma vega_opp (S K T r sigma : R) :
  0 < T -> sigma <> 0 -> vega S K T r (- sigma) = vega S K T r sigma.
Proof.
  intros HT Hs. unfold vega. now rewrite d1_opp, phi_even by assumption.
Qed.

End NegativeVolatility.

(** ** Arguments that are not numbers *)

(** Case analysis on the comparisons met while evaluating an expression on
    special values. *)
Ltac float_cases :=
  repeat first
    [ progress cbn
    | progress unfold inf_of_sign
    | match goal with
      | |- context [Reqb ?a ?b] => destruct (Reqb a b)
      | |- context [Rltb ?a ?b] => destruct (Rltb a b)
      end ];
  try reflexivity.

Section InvalidNumbers.

Import Formula.

(** With a volatility that is not a finite number, [d1] is NaN. *)
Lemma d1_nonfinite_sigma (l T r sigma : float64) :
  (forall s : R, sigma <> Fin s) ->
  fdiv (fadd l (fmul (fadd r (fmul (Fin 0.5) (fsquare sigma))) T))
       (fmul sigma (np.sqrt T)) = NaN.
Proof.
  intro Hs. destruct sigma as [s| | |]; [now destruct (Hs s)| | |];
    destruct r, T, l; float_cases.
Qed.

Lemma price_of_nan_d1 (S K T r sigma : float64) (option_type : string) :
  fdiv (fadd (np.log (fdiv S K))
             (fmul (fadd r (fmul (Fin 0.5) (fsquare sigma))) T))
       (fmul sigma (np.sqrt T)) = NaN ->
  closed_form S K T r option_type sigma = NaN.
Proof.
  intro H. unfold closed_form, ImpliedVol.black_scholes. rewrite H.
  destruct (String.eqb option_type "call").
  - cbn [norm.cdf fsub fneg]. now destruct S.
  - destruct (String.eqb option_type "put"); [|reflexivity].
    cbn [norm.cdf fsub fneg fadd].
    destruct (fmul K (np.exp (fmul (fneg r) T))), S; reflexivity.
Qed.

Lemma vega_of_nan_d1 (S K T r sigma : float64) :
  fdiv (fadd (np.log (fdiv S K))
             (fmul (fadd r (fmul (Fin 0.5) (fsquare sigma))) T))
       (fmul sigma (np.sqrt T)) = NaN ->
  ImpliedVol.vega S K T r sigma = NaN.
Proof.
  intro H. unfold ImpliedVol.vega. rewrite H. cbn [norm.pdf].
  now destruct S.
Qed.

Lemma closed_form_nonfinite_sigma (S K T r sigma : float64)
  (option_type : string) :
  (forall s : R, sigma <> Fin s) ->
  closed_form S K T r option_type sigma = NaN.
Proof.
  intro Hs. now apply price_of_nan_d1, d1_nonfinite_sigma.
Qed.

Lemma vega_nonfinite_sigma (S K T r sigma : float64) :
  (forall s : R, sigma <> Fin s) ->
  ImpliedVol.vega S K T r sigma = NaN.
Proof.
  intro Hs. now apply vega_of_nan_d1, d1_nonfinite_sigma.
Qed.

(** [d1] is NaN as soon as an argument is NaN, the volatility is not finite
    or the maturity is negative. *)
Lemma d1_nan (S K T r sigma : float64) :
  S = NaN \/ K = NaN \/ T = NaN \/ r = NaN
  \/ (forall s : R, sigma <> Fin s)
  \/ (exists t : R, T = Fin t /\ t < 0) ->
  fdiv (fadd (np.log (fdiv S K))
             (fmul (fadd r (fmul (Fin 0.5) (fsquare sigma))) T))
       (fmul sigma (np.sqrt T)) = NaN.
Proof.
  intros [->|[->|[->|[->|[Hs|(t & -> & Ht)]]]]].
  - reflexivity.
  - now destruct S.
  - generalize (np.log (fdiv S K)). intro l.
    destruct l, r, sigma; float_cases.
  - generalize (np.log (fdiv S K)). intro l.
    destruct l, T, sigma; float_cases.
  - now apply d1_nonfinite_sigma.
  - generalize (np.log (fdiv S K)). intro l.
    cbn [np.sqrt]. rewrite Rltb_true by exact Ht.
    generalize (fadd l (fmul (fadd r (fmul (Fin 0.5) (fsquare sigma)))
                          (Fin t))).
    intro n. destruct n, sigma; reflexivity.
Qed.

End InvalidNumbers.

(** ** What the closed-form pricers guarantee *)

Section ClosedFormBehaviour.

Import Formula.

(** X1.  On the two option types the scripts price, [black_scholes]
    returns exactly what [BSM] returns, for all NumPy scalars, the
    infinities and NaN included: the two ways the denominator of [d1] and
    the put price are written give the same value. *)
Theorem closed_form_pricers_agree (S K T r sigma : float64)
  (option_type : string) :
  option_type = "call" \/ option_type = "put" ->
  ImpliedVol.black_scholes S K T r sigma option_type
  = Return (Main.BSM S K T r sigma option_type).
Proof.
  intro Ht. rewrite black_scholes_closed_form by exact Ht.
  f_equal. symmetry. now apply pricers_agree.
Qed.

Lemma closed_form_pricers_agree_witness :
  ImpliedVol.black_scholes (Fin 100) (Fin 105) (Fin 2) (Fin 0.05) PInf "put"
  = Return (Main.BSM (Fin 100) (Fin 105) (Fin 2) (Fin 0.05) PInf "put").
Proof. apply closed_form_pricers_agree. now right. Defined.

(** X2.  For [S > 0], [K > 0], [T > 0] and [sigma > 0], [black_scholes]
    returns finite prices within the no-arbitrage bounds (in exact
    arithmetic): the call between
    [max(0, S - K e^(-rT))] and [S], the put between
    [max(0, K e^(-rT) - S)] and [K e^(-rT)]. *)
Theorem closed_form_price_bounds (S K T r sigma : R) :
  0 < S -> 0 < K -> 0 < T -> 0 < sigma ->
  exists c p : R,
    ImpliedVol.black_scholes (Fin S) (Fin K) (Fin T) (Fin r) (Fin sigma)
      "call" = Return (Fin c)
    /\ ImpliedVol.black_scholes (Fin S) (Fin K) (Fin T) (Fin r) (Fin sigma)
         "put" = Return (Fin p)
    /\ Rmax 0 (S - K * exp (- r * T)) <= c <= S
    /\ Rmax 0 (K * exp (- r * T) - S) <= p <= K * exp (- r * T).
Proof.
  intros HS HK HT Hs.
  exists (call_price S K T r sigma), (put_price S K T r sigma).
  split; [apply black_scholes_call_fin; lra|].
  split; [apply black_scholes_put_fin; lra|].
  split; [now apply call_price_bounds | now apply put_price_bounds].
Qed.

Lemma closed_form_price_bounds_witness :
  exists c p : R,
    ImpliedVol.black_scholes (Fin 100) (Fin 105) (Fin 1) (Fin 0.05) (Fin 0.2)
      "call" = Return (Fin c)
    /\ ImpliedVol.black_scholes (Fin 100) (Fin 105) (Fin 1) (Fin 0.05)
         (Fin 0.2) "put" = Return (Fin p)
    /\ Rmax 0 (100 - 105 * exp (- (0.05) * 1)) <= c <= 100
    /\ Rmax 0 (105 * exp (- (0.05) * 1) - 100) <= p
       <= 105 * exp (- (0.05) * 1).
Proof. apply closed_form_price_bounds; lra. Defined.

(** X3.  Wherever the solver's test finds the vega not zero (the density
    has not underflowed), the vega the solver divides by is the derivative,
    in the volatility, of the price [black_scholes] returns, for the call
    and for the put, at every [sigma > 0]: the update [sigma + diff / vega]
    is a Newton-Raphson step on the pricing function. *)
Theorem vega_is_the_derivative_of_the_price
  (S K T r sigma : R) (option_type : string) :
  0 < S -> 0 < K -> 0 < T -> 0 < sigma ->
  option_type = "call" \/ option_type = "put" ->
  degenerate (Fin S) (Fin K) (Fin T) (Fin r) (Fin sigma) = false ->
  derivable_pt_lim (price_of_volatility S K T r option_type) sigma
    (vega_of_volatility S K T r sigma).
Proof.
  intros HS HK HT Hs Ht Hd.
  rewrite vega_of_volatility_eq by (assumption || lra).
  now apply price_of_volatility_derivable.
Qed.

Lemma vega_is_the_derivative_of_the_price_witness :
  derivable_pt_lim (price_of_volatility 100 100 1 0 "put") 0.2
    (vega_of_volatility 100 100 1 0 0.2).
Proof.
  apply vega_is_the_derivative_of_the_price; try lra; [now right|].
  apply at_the_money_not_degenerate; lra.
Defined.

(** X4.  For [S > 0], [K > 0], [T > 0] the price [black_scholes] returns
    is, in exact arithmetic, strictly increasing in the volatility over
    [sigma > 0], for both option types: two positive volatilities with the same price are equal,
    so a market price has at most one positive implied volatility. *)
Theorem price_is_increasing_in_volatility
  (S K T r : R) (option_type : string) (sigma1 sigma2 : R) :
  0 < S -> 0 < K -> 0 < T ->
  option_type = "call" \/ option_type = "put" ->
  0 < sigma1 -> 0 < sigma2 ->
  (sigma1 < sigma2 <->
   price_of_volatility S K T r option_type sigma1
   < price_of_volatility S K T r option_type sigma2)
  /\ (price_of_volatility S K T r option_type sigma1
      = price_of_volatility S K T r option_type sigma2 ->
      sigma1 = sigma2).
Proof.
  intros HS HK HT Ht H1 H2.
  assert (Hinc : forall a b, 0 < a -> a < b ->
            price_of_volatility S K T r option_type a
            < price_of_volatility S K T r option_type b)
    by (intros; now apply price_of_volatility_increasing).
  split; [split|].
  - now apply Hinc.
  - intro Hlt. destruct (Rtotal_order sigma1 sigma2) as [H|[H|H]];
      [exact H | subst; lra | specialize (Hinc _ _ H2 H); lra].
  - intro Heq. destruct (Rtotal_order sigma1 sigma2) as [H|[H|H]];
      [specialize (Hinc _ _ H1 H); lra | exact H
      | specialize (Hinc _ _ H2 H); lra].
Qed.

Lemma price_is_increasing_in_volatility_witness :
  price_of_volatility 100 105 1 0.05 "call" 0.2
  < price_of_volatility 100 105 1 0.05 "call" 0.3.
Proof.
  apply (proj1 (price_is_increasing_in_volatility 100 105 1 0.05 "call"
                  0.2 0.3 ltac:(lra) ltac:(lra) ltac:(lra)
                  (or_introl eq_refl) ltac:(lra) ltac:(lra))).
  lra.
Defined.

(** X5.  For [K > 0], [T > 0], [sigma > 0] and spot prices
    [0 < S1 <= S2], in exact arithmetic: the call price [black_scholes] returns does not
    decrease from [S1] to [S2], the put price does not increase, and neither
    moves by more than [S2 - S1]. *)
Theorem price_is_monotone_in_spot (K T r sigma S1 S2 : R) :
  0 < K -> 0 < T -> 0 < sigma -> 0 < S1 -> S1 <= S2 ->
  0 <= price_of_spot K T r sigma "call" S2
       - price_of_spot K T r sigma "call" S1 <= S2 - S1
  /\ 0 <= price_of_spot K T r sigma "put" S1
          - price_of_spot K T r sigma "put" S2 <= S2 - S1.
Proof.
  intros HK HT Hs H1 H12.
  rewrite !price_of_spot_eq
    by (assumption || lra || (now left) || (now right)).
  cbn [String.eqb Ascii.eqb Bool.eqb].
  pose proof (call_price_increment K T r sigma HK HT Hs S1 S2 H1 H12).
  pose proof (parity_identity S1 K T r sigma).
  pose proof (parity_identity S2 K T r sigma). lra.
Qed.

Lemma price_is_monotone_in_spot_witness :
  0 <= price_of_spot 105 1 0.05 0.2 "call" 110
       - price_of_spot 105 1 0.05 0.2 "call" 100 <= 110 - 100
  /\ 0 <= price_of_spot 105 1 0.05 0.2 "put" 100
          - price_of_spot 105 1 0.05 0.2 "put" 110 <= 110 - 100.
Proof. apply price_is_monotone_in_spot; lra. Defined.

(** X6.  In exact arithmetic, price and vega are homogeneous of degree one
    in the spot and the strike: for [S > 0], [K > 0], [T > 0], [sigma <> 0] and a factor
    [lambda > 0], [black_scholes] and the solver's vega at
    [(lambda S, lambda K)] are [lambda] times their values at [(S, K)],
    the vega being zero at both or at neither. *)
Theorem closed_form_is_homogeneous
  (S K T r sigma lambda : R) (option_type : string) :
  0 < S -> 0 < K -> 0 < T -> sigma <> 0 -> 0 < lambda ->
  option_type = "call" \/ option_type = "put" ->
  exists p v : R,
    ImpliedVol.black_scholes (Fin S) (Fin K) (Fin T) (Fin r) (Fin sigma)
      option_type = Return (Fin p)
    /\ ImpliedVol.black_scholes (Fin (lambda * S)) (Fin (lambda * K)) (Fin T)
         (Fin r) (Fin sigma) option_type = Return (Fin (lambda * p))
    /\ ImpliedVol.vega (Fin S) (Fin K) (Fin T) (Fin r) (Fin sigma) = Fin v
    /\ ImpliedVol.vega (Fin (lambda * S)) (Fin (lambda * K)) (Fin T) (Fin r)
         (Fin sigma) = Fin (lambda * v).
Proof.
  intros HS HK HT Hs Hl Ht.
  assert (HlS : 0 < lambda * S) by nra.
  assert (HlK : 0 < lambda * K) by nra.
  assert (Hd : d1 (lambda * S) (lambda * K) T r sigma = d1 S K T r sigma).
  { unfold d1. replace (lambda * S / (lambda * K)) with (S / K)
      by (field; lra). reflexivity. }
  assert (Hv : exists v : R,
            ImpliedVol.vega (Fin S) (Fin K) (Fin T) (Fin r) (Fin sigma)
            = Fin v
            /\ ImpliedVol.vega (Fin (lambda * S)) (Fin (lambda * K)) (Fin T)
                 (Fin r) (Fin sigma) = Fin (lambda * v)).
  { destruct (Rle_lt_dec (phi (d1 S K T r sigma)) tiny) as [Hu|Hu].
    - exists 0. rewrite !vega_underflow by (assumption || now rewrite Hd).
      split; [reflexivity | f_equal; ring].
    - exists (vega S K T r sigma).
      rewrite !vega_fin by (assumption || now rewrite Hd).
      split; [reflexivity|]. f_equal. unfold vega. rewrite Hd. ring. }
  destruct Hv as (v & Hv1 & Hv2).
  exists (price_of S K T r option_type sigma), v.
  split; [|split; [|split; assumption]].
  - destruct Ht as [->| ->];
      [now apply black_scholes_call_fin | now apply black_scholes_put_fin].
  - destruct Ht as [->| ->]; unfold price_of;
      cbn [String.eqb Ascii.eqb Bool.eqb].
    + rewrite black_scholes_call_fin by assumption. do 2 f_equal.
      unfold call_price, d2. rewrite Hd. ring.
    + rewrite black_scholes_put_fin by assumption. do 2 f_equal.
      unfold put_price, d2. rewrite Hd. ring.
Qed.

Lemma closed_form_is_homogeneous_witness :
  exists p v : R,
    ImpliedVol.black_scholes (Fin 100) (Fin 105) (Fin 1) (Fin 0.05) (Fin 0.2)
      "call" = Return (Fin p)
    /\ ImpliedVol.black_scholes (Fin (2 * 100)) (Fin (2 * 105)) (Fin 1)
         (Fin 0.05) (Fin 0.2) "call" = Return (Fin (2 * p))
    /\ ImpliedVol.vega (Fin 100) (Fin 105) (Fin 1) (Fin 0.05) (Fin 0.2)
       = Fin v
    /\ ImpliedVol.vega (Fin (2 * 100)) (Fin (2 * 105)) (Fin 1) (Fin 0.05)
         (Fin 0.2) = Fin (2 * v).
Proof.
  apply closed_form_is_homogeneous; lra || (now left).
Defined.

(** X7.  A negative volatility is not rejected.  For [S > 0], [K > 0],
    [T > 0] and [sigma > 0], [black_scholes] at [-sigma] returns the price
    of the other option type at [sigma] with the sign changed, a number
    that is not positive, and the vega at [-sigma] is the vega at
    [sigma]. *)
Theorem negative_volatility_mirrors_the_other_option (S K T r sigma : R) :
  0 < S -> 0 < K -> 0 < T -> 0 < sigma ->
  exists c p v : R,
    ImpliedVol.black_scholes (Fin S) (Fin K) (Fin T) (Fin r) (Fin sigma)
      "call" = Return (Fin c)
    /\ ImpliedVol.black_scholes (Fin S) (Fin K) (Fin T) (Fin r) (Fin sigma)
         "put" = Return (Fin p)
    /\ ImpliedVol.vega (Fin S) (Fin K) (Fin T) (Fin r) (Fin sigma) = Fin v
    /\ ImpliedVol.black_scholes (Fin S) (Fin K) (Fin T) (Fin r)
         (Fin (- sigma)) "call" = Return (Fin (- p))
    /\ ImpliedVol.black_scholes (Fin S) (Fin K) (Fin T) (Fin r)
         (Fin (- sigma)) "put" = Return (Fin (- c))
    /\ ImpliedVol.vega (Fin S) (Fin K) (Fin T) (Fin r) (Fin (- sigma))
       = Fin v
    /\ - p <= 0 /\ - c <= 0.
Proof.
  intros HS HK HT Hs.
  pose proof (call_price_nonneg S K T r sigma HS HK HT Hs).
  pose proof (put_price_nonneg S K T r sigma HS HK HT Hs).
  assert (Hd : d1 S K T r (- sigma) = - d1 S K T r sigma)
    by (apply d1_opp; lra).
  assert (Hv : exists v : R,
            ImpliedVol.vega (Fin S) (Fin K) (Fin T) (Fin r) (Fin sigma)
            = Fin v
            /\ ImpliedVol.vega (Fin S) (Fin K) (Fin T) (Fin r)
                 (Fin (- sigma)) = Fin v).
  { destruct (Rle_lt_dec (phi (d1 S K T r sigma)) tiny) as [Hu|Hu].
    - exists 0.
      rewrite !vega_underflow
        by (assumption || lra || (rewrite Hd, phi_even; assumption)).
      now split.
    - exists (vega S K T r sigma).
      rewrite !vega_fin
        by (assumption || lra || (rewrite Hd, phi_even; assumption)).
      split; [reflexivity|]. f_equal. apply vega_opp; lra. }
  destruct Hv as (v & Hv1 & Hv2).
  exists (call_price S K T r sigma), (put_price S K T r sigma), v.
  split; [apply black_scholes_call_fin; lra|].
  split; [apply black_scholes_put_fin; lra|].
  split; [exact Hv1|].
  split.
  { rewrite black_scholes_call_fin by lra.
    now rewrite call_price_opp by lra. }
  split.
  { rewrite black_scholes_put_fin by lra.
    now rewrite put_price_opp by lra. }
  split; [exact Hv2|]. split; lra.
Qed.

Lemma negative_volatility_mirrors_the_other_option_witness :
  exists c p v : R,
    ImpliedVol.black_scholes (Fin 100) (Fin 105) (Fin 1) (Fin 0.05) (Fin 0.2)
      "call" = Return (Fin c)
    /\ ImpliedVol.black_scholes (Fin 100) (Fin 105) (Fin 1) (Fin 0.05)
         (Fin 0.2) "put" = Return (Fin p)
    /\ ImpliedVol.vega (Fin 100) (Fin 105) (Fin 1) (Fin 0.05) (Fin 0.2)
       = Fin v
    /\ ImpliedVol.black_scholes (Fin 100) (Fin 105) (Fin 1) (Fin 0.05)
         (Fin (- (0.2))) "call" = Return (Fin (- p))
    /\ ImpliedVol.black_scholes (Fin 100) (Fin 105) (Fin 1) (Fin 0.05)
         (Fin (- (0.2))) "put" = Return (Fin (- c))
    /\ ImpliedVol.vega (Fin 100) (Fin 105) (Fin 1) (Fin 0.05)
         (Fin (- (0.2))) = Fin v
    /\ - p <= 0 /\ - c <= 0.
Proof. apply negative_volatility_mirrors_the_other_option; lra. Defined.

(** X8.  Numbers that make no sense are not rejected either.  With a
    valid option type, when one of [S], [K], [T], [r] is NaN, or [sigma] is
    not a finite number, or [T] is negative, [black_scholes] raises nothing
    and returns NaN, [BSM] returns NaN, and the solver's vega is NaN. *)
Theorem invalid_numbers_give_nan (S K T r sigma : float64)
  (option_type : string) :
  option_type = "call" \/ option_type = "put" ->
  S = NaN \/ K = NaN \/ T = NaN \/ r = NaN
  \/ (forall s : R, sigma <> Fin s)
  \/ (exists t : R, T = Fin t /\ t < 0) ->
  ImpliedVol.black_scholes S K T r sigma option_type = Return NaN
  /\ Main.BSM S K T r sigma option_type = NaN
  /\ ImpliedVol.vega S K T r sigma = NaN.
Proof.
  intros Ht H. apply d1_nan in H.
  rewrite (pricers_agree S K T r sigma option_type Ht).
  rewrite black_scholes_closed_form by exact Ht.
  rewrite (price_of_nan_d1 S K T r sigma option_type H).
  split; [reflexivity|]. split; [reflexivity|].
  now apply vega_of_nan_d1.
Qed.

Lemma invalid_numbers_give_nan_witness :
  ImpliedVol.black_scholes (Fin 100) (Fin 105) (Fin (- 1)) (Fin 0.05)
    (Fin 0.2) "call" = Return NaN
  /\ Main.BSM (Fin 100) (Fin 105) (Fin (- 1)) (Fin 0.05) (Fin 0.2) "call"
     = NaN
  /\ ImpliedVol.vega (Fin 100) (Fin 105) (Fin (- 1)) (Fin 0.05) (Fin 0.2)
     = NaN.
Proof.
  apply invalid_numbers_give_nan; [now left|].
  do 5 right. exists (- 1). split; [reflexivity | lra].
Defined.

End ClosedFormBehaviour.

(** ** What the Monte Carlo pricer guarantees *)

Section MonteCarloBehaviour.

Import Formula Script.

Lemma total_map_const {A : Type} (a : R) (xs : list A) :
  total (map (fun _ => a) xs) = INR (List.length xs) * a.
Proof.
  induction xs as [|x xs IH]; [simpl; ring|].
  cbn [map total fold_right List.length]. fold (total (map (fun _ => a) xs)).
  rewrite IH, S_INR. ring.
Qed.

Lemma total_map_minus {A : Type} (f h : A -> R) (xs : list A) :
  total (map (fun x => f x - h x) xs)
  = total (map f xs) - total (map h xs).
Proof.
  induction xs as [|x xs IH]; [simpl; ring|].
  cbn [map total fold_right].
  fold (total (map (fun x => f x - h x) xs)).
  fold (total (map f xs)). fold (total (map h xs)). rewrite IH. ring.
Qed.

Lemma total_map_le {A : Type} (f h : A -> R) (xs : list A) :
  (forall x, f x <= h x) -> total (map f xs) <= total (map h xs).
Proof.
  intro H. induction xs as [|x xs IH]; [simpl; lra|].
  cbn [map total fold_right].
  fold (total (map f xs)). fold (total (map h xs)).
  specialize (H x). lra.
Qed.

Lemma payoff_difference (K s : R) : call_payoff K s - put_payoff K s = s - K.
Proof.
  unfold call_payoff, put_payoff, Rmax.
  destruct (Rle_dec 0 (s - K)), (Rle_dec 0 (K - s)); lra.
Qed.

Lemma drawn_length (N : nat) (g : np.random.generator) :
  List.length (drawn N g) = N.
Proof. unfold drawn. now rewrite length_map, length_seq. Qed.

Lemma discount_inverse (r T : R) : exp (- r * T) * exp (r * T) = 1.
Proof. rewrite <- exp_plus. replace (- r * T + r * T) with 0 by ring. apply exp_0. Qed.

Lemma discounted_intrinsic_call (S0 K r T : R) :
  exp (- r * T) * Rmax 0 (S0 * exp (r * T) - K)
  = Rmax 0 (S0 - K * exp (- r * T)).
Proof.
  pose proof (exp_pos (- r * T)) as HD. pose proof (discount_inverse r T) as HE.
  assert (Hx : exp (- r * T) * (S0 * exp (r * T) - K)
               = S0 - K * exp (- r * T)).
  { transitivity (S0 * (exp (- r * T) * exp (r * T)) - K * exp (- r * T));
      [ring | rewrite HE; ring]. }
  unfold Rmax.
  destruct (Rle_dec 0 (S0 * exp (r * T) - K)) as [H|H],
           (Rle_dec 0 (S0 - K * exp (- r * T))) as [H'|H'];
    try (rewrite Hx; reflexivity); try ring.
  - exfalso. apply H'. rewrite <- Hx. apply Rmult_le_pos; lra.
  - exfalso. apply H. rewrite <- Hx in H'.
    destruct (Rle_dec 0 (S0 * exp (r * T) - K)); [assumption|]. nra.
Qed.

Lemma discounted_intrinsic_put (S0 K r T : R) :
  exp (- r * T) * Rmax 0 (K - S0 * exp (r * T))
  = Rmax 0 (K * exp (- r * T) - S0).
Proof.
  pose proof (exp_pos (- r * T)) as HD. pose proof (discount_inverse r T) as HE.
  assert (Hx : exp (- r * T) * (K - S0 * exp (r * T))
               = K * exp (- r * T) - S0).
  { transitivity (K * exp (- r * T) - S0 * (exp (- r * T) * exp (r * T)));
      [ring | rewrite HE; ring]. }
  unfold Rmax.
  destruct (Rle_dec 0 (K - S0 * exp (r * T))) as [H|H],
           (Rle_dec 0 (K * exp (- r * T) - S0)) as [H'|H'];
    try (rewrite Hx; reflexivity); try ring.
  - exfalso. apply H'. rewrite <- Hx. apply Rmult_le_pos; lra.
  - exfalso. apply H. rewrite <- Hx in H'.
    destruct (Rle_dec 0 (K - S0 * exp (r * T))); [assumption|]. nra.
Qed.

Lemma terminal_price_zero_volatility (S0 T r z : R) :
  terminal_price S0 T r 0 z = S0 * exp (r * T).
Proof.
  unfold terminal_price.
  replace ((r - 0 * 0 / 2) * T + 0 * z * sqrt T) with (r * T) by lra.
  reflexivity.
Qed.

Lemma mean_of_constant (N : nat) (a : R) :
  (0 < N)%nat -> INR N * a / INR N = a.
Proof. intro H. field. apply not_0_INR. lia. Qed.

Lemma monte_carlo_zero_volatility_call (S0 K T r : R) (N : nat)
  (g : np.random.generator) :
  0 <= T -> (0 < N)%nat ->
  fst (Main.monte_carlo_option_pricing (Fin S0) (Fin K) (Fin T) (Fin r)
         (Fin 0) N "call" g)
  = Return (Fin (Rmax 0 (S0 - K * exp (- r * T)))).
Proof.
  intros HT HN. rewrite monte_carlo_call by assumption.
  unfold discounted_mean_payoff, call_payoff.
  rewrite (map_ext _ (fun _ => Rmax 0 (S0 * exp (r * T) - K)))
    by (intro z; now rewrite terminal_price_zero_volatility).
  rewrite total_map_const, length_map, length_seq, mean_of_constant by exact HN.
  now rewrite discounted_intrinsic_call.
Qed.

Lemma monte_carlo_zero_volatility_put (S0 K T r : R) (N : nat)
  (g : np.random.generator) :
  0 <= T -> (0 < N)%nat ->
  fst (Main.monte_carlo_option_pricing (Fin S0) (Fin K) (Fin T) (Fin r)
         (Fin 0) N "put" g)
  = Return (Fin (Rmax 0 (K * exp (- r * T) - S0))).
Proof.
  intros HT HN. rewrite monte_carlo_put by assumption.
  unfold discounted_mean_payoff, put_payoff.
  rewrite (map_ext _ (fun _ => Rmax 0 (K - S0 * exp (r * T))))
    by (intro z; now rewrite terminal_price_zero_volatility).
  rewrite total_map_const, length_map, length_seq, mean_of_constant by exact HN.
  now rewrite discounted_intrinsic_put.
Qed.

(** The sign of the moneyness is the sign of [S - K e^(-rT)]. *)
Lemma moneyness_sign (S K T r : R) :
  0 < S -> 0 < K ->
  (0 < moneyness S K T r -> K * exp (- r * T) < S)
  /\ (moneyness S K T r < 0 -> S < K * exp (- r * T)).
Proof.
  intros HS HK.
  assert (Hq : 0 < S / K) by (apply Rdiv_lt_0_compat; lra).
  assert (HSK : S = K * exp (- r * T) * exp (moneyness S K T r)).
  { unfold moneyness. rewrite Rmult_assoc, <- exp_plus.
    replace (- r * T + (ln (S / K) + r * T)) with (ln (S / K)) by ring.
    rewrite exp_ln by exact Hq. field. lra. }
  pose proof (exp_pos (- r * T)) as HD.
  assert (HKD : 0 < K * exp (- r * T)) by nra.
  set (m := moneyness S K T r) in *.
  split; intro Hm.
  - assert (1 < exp m) by (rewrite <- exp_0; now apply exp_increasing).
    nra.
  - assert (exp m < 1) by (rewrite <- exp_0; now apply exp_increasing).
    nra.
Qed.

Lemma zero_volatility_price_intrinsic (S K T r : R) (option_type : string) :
  0 < S -> 0 < K -> moneyness S K T r <> 0 ->
  zero_volatility_price S K T r option_type
  = Fin (if String.eqb option_type "call"
         then Rmax 0 (S - K * exp (- r * T))
         else Rmax 0 (K * exp (- r * T) - S)).
Proof.
  intros HS HK Hm. unfold zero_volatility_price.
  rewrite Reqb_false by exact Hm.
  destruct (moneyness_sign S K T r HS HK) as [Hp Hn].
  destruct (Rtotal_order (moneyness S K T r) 0) as [H|[H|H]];
    [|contradiction|].
  - rewrite Rltb_false by lra. specialize (Hn H).
    destruct (String.eqb option_type "call"); f_equal.
    + rewrite Rmax_left; lra.
    + rewrite Rmax_right; lra.
  - rewrite Rltb_true by lra. specialize (Hp H).
    destruct (String.eqb option_type "call"); f_equal.
    + rewrite Rmax_right; lra.
    + rewrite Rmax_left; lra.
Qed.

(** The state of the generator after a call, whatever the call did. *)
Lemma monte_carlo_generator (S0 K T r sigma : float64) (N : nat)
  (option_type : string) (g : np.random.generator) :
  snd (Main.monte_carlo_option_pricing S0 K T r sigma N option_type g)
  = np.random.advance N g.
Proof.
  unfold Main.monte_carlo_option_pricing. cbn [np.random.standard_normal].
  destruct (String.eqb option_type "call"); [reflexivity|].
  destruct (String.eqb option_type "put"); reflexivity.
Qed.

Lemma monte_carlo_depends_on_drawn (S0 K T r sigma : float64) (N : nat)
  (option_type : string) (g h : np.random.generator) :
  drawn N g = drawn N h ->
  fst (Main.monte_carlo_option_pricing S0 K T r sigma N option_type g)
  = fst (Main.monte_carlo_option_pricing S0 K T r sigma N option_type h).
Proof.
  intro H. unfold Main.monte_carlo_option_pricing.
  cbn [np.random.standard_normal].
  assert (E : map (fun i => Fin (np.random.variates g (np.random.consumed g + i)))
                (seq 0 N)
              = map (fun i => Fin (np.random.variates h (np.random.consumed h + i)))
                  (seq 0 N)).
  { rewrite <- (map_map (fun i => np.random.variates g (np.random.consumed g + i)) Fin).
    rewrite <- (map_map (fun i => np.random.variates h (np.random.consumed h + i)) Fin).
    unfold drawn in H. now rewrite H. }
  rewrite E.
  destruct (String.eqb option_type "call"); [reflexivity|].
  destruct (String.eqb option_type "put"); reflexivity.
Qed.

Lemma monte_carlo_prices (S0 K T r sigma : R) (N : nat)
  (g : np.random.generator) :
  0 <= T -> (0 < N)%nat ->
  fst (Main.monte_carlo_option_pricing (Fin S0) (Fin K) (Fin T) (Fin r)
         (Fin sigma) N "call" g)
  = Return (Fin (discounted_mean_payoff call_payoff S0 K T r sigma
                   (drawn N g)))
  /\ fst (Main.monte_carlo_option_pricing (Fin S0) (Fin K) (Fin T) (Fin r)
            (Fin sigma) N "put" g)
     = Return (Fin (discounted_mean_payoff put_payoff S0 K T r sigma
                      (drawn N g))).
Proof.
  intros HT HN. split; [now apply monte_carlo_call | now apply monte_carlo_put].
Qed.

Lemma sample_parity (S0 K T r sigma : R) (zs : list R) :
  zs <> [] ->
  discounted_mean_payoff call_payoff S0 K T r sigma zs
  - discounted_mean_payoff put_payoff S0 K T r sigma zs
  = exp (- r * T)
    * (total (map (terminal_price S0 T r sigma) zs) / INR (List.length zs)
       - K).
Proof.
  intro Hne. unfold discounted_mean_payoff.
  assert (HN : INR (List.length zs) <> 0).
  { apply not_0_INR. destruct zs; [contradiction | discriminate]. }
  pose proof (total_map_minus
                (fun z => call_payoff K (terminal_price S0 T r sigma z))
                (fun z => put_payoff K (terminal_price S0 T r sigma z)) zs) as Hd.
  rewrite (map_ext _ (fun z => terminal_price S0 T r sigma z - K)) in Hd
    by (intro z; apply payoff_difference).
  rewrite (total_map_minus (terminal_price S0 T r sigma) (fun _ => K)) in Hd.
  rewrite total_map_const in Hd.
  set (c := total (map (fun z => call_payoff K (terminal_price S0 T r sigma z)) zs)) in *.
  set (p := total (map (fun z => put_payoff K (terminal_price S0 T r sigma z)) zs)) in *.
  set (s := total (map (terminal_price S0 T r sigma) zs)) in *.
  replace c with (p + (s - INR (List.length zs) * K)) by lra.
  field. exact HN.
Qed.

Lemma put_payoff_le (S0 K T r sigma z : R) :
  0 <= S0 -> 0 <= K ->
  put_payoff K (terminal_price S0 T r sigma z) <= K.
Proof.
  intros HS HK. unfold put_payoff, terminal_price.
  pose proof (exp_pos ((r - sigma * sigma / 2) * T + sigma * z * sqrt T)).
  apply Rmax_lub; nra.
Qed.

Lemma call_payoff_le (S0 K T r sigma z : R) :
  0 <= S0 -> 0 <= K ->
  call_payoff K (terminal_price S0 T r sigma z)
  <= terminal_price S0 T r sigma z.
Proof.
  intros HS HK. unfold call_payoff, terminal_price.
  pose proof (exp_pos ((r - sigma * sigma / 2) * T + sigma * z * sqrt T)).
  apply Rmax_lub; nra.
Qed.

Lemma discounted_mean_le (f h : R -> R) (r T : R) (zs : list R) :
  zs <> [] -> (forall z, f z <= h z) ->
  exp (- r * T) * (total (map f zs) / INR (List.length zs))
  <= exp (- r * T) * (total (map h zs) / INR (List.length zs)).
Proof.
  intros Hne H. pose proof (exp_pos (- r * T)).
  assert (0 < INR (List.length zs)).
  { apply lt_0_INR. destruct zs; [contradiction | simpl; lia]. }
  apply Rmult_le_compat_l; [lra|].
  apply Rmult_le_compat_r; [left; now apply Rinv_0_lt_compat|].
  now apply total_map_le.
Qed.

Lemma drawn_nonempty (N : nat) (g : np.random.generator) :
  (0 < N)%nat -> drawn N g <> [].
Proof.
  intros HN E. apply (f_equal (@List.length R)) in E.
  rewrite drawn_length in E. simpl in E. lia.
Qed.

Lemma drawn_advance (N M : nat) (g : np.random.generator) :
  drawn N (np.random.advance M g)
  = map (fun i => np.random.variates g (np.random.consumed g + M + i))
      (seq 0 N).
Proof. reflexivity. Qed.

Lemma two_runs (S0 K T r sigma : R) (N : nat) (g : np.random.generator) :
  0 <= T -> (0 < N)%nat ->
  match Main.monte_carlo_option_pricing (Fin S0) (Fin K) (Fin T) (Fin r)
          (Fin sigma) N "call" g with
  | (Raise e, g1) => (Raise e, g1)
  | (Return call_price, g1) =>
      match Main.monte_carlo_option_pricing (Fin S0) (Fin K) (Fin T) (Fin r)
              (Fin sigma) N "put" g1 with
      | (Raise e, g2) => (Raise e, g2)
      | (Return put_price, g2) => (Return (call_price, put_price), g2)
      end
  end
  = (Return
       (Fin (discounted_mean_payoff call_payoff S0 K T r sigma (drawn N g)),
        Fin (discounted_mean_payoff put_payoff S0 K T r sigma
               (drawn N (np.random.advance N g)))),
     np.random.advance N (np.random.advance N g)).
Proof.
  intros HT HN.
  destruct (monte_carlo_prices S0 K T r sigma N g HT HN) as [Hc _].
  pose proof (monte_carlo_generator (Fin S0) (Fin K) (Fin T) (Fin r)
                (Fin sigma) N "call" g) as Hg.
  destruct (Main.monte_carlo_option_pricing (Fin S0) (Fin K) (Fin T) (Fin r)
              (Fin sigma) N "call" g) as [c g1].
  cbn [fst snd] in Hc, Hg. subst c g1.
  destruct (monte_carlo_prices S0 K T r sigma N (np.random.advance N g) HT HN)
    as [_ Hp].
  pose proof (monte_carlo_generator (Fin S0) (Fin K) (Fin T) (Fin r)
                (Fin sigma) N "put" (np.random.advance N g)) as Hg.
  destruct (Main.monte_carlo_option_pricing (Fin S0) (Fin K) (Fin T) (Fin r)
              (Fin sigma) N "put" (np.random.advance N g)) as [p g2].
  cbn [fst snd] in Hp, Hg. subst p g2. reflexivity.
Qed.

Lemma monte_carlo_script_runs (g : np.random.generator) :
  monte_carlo_script g
  = (Return
       (Fin (discounted_mean_payoff call_payoff 100 105 1 0.04 0.2
               (drawn 100000 g)),
        Fin (discounted_mean_payoff put_payoff 100 105 1 0.04 0.2
               (drawn 100000 (np.random.advance 100000 g)))),
     np.random.advance 100000 (np.random.advance 100000 g)).
Proof.
  unfold monte_carlo_script. apply two_runs; [lra|].
  apply Nat.ltb_lt. vm_compute. reflexivity.
Qed.


(** X9.  Priced on the same draws, the Monte Carlo call and put satisfy,
    in exact arithmetic, the parity of the sample: for [T >= 0] and [N > 0] scenarios, call
    minus put is [e^(-rT)] times the mean terminal price minus [K]. *)
Theorem monte_carlo_sample_parity (S0 K T r sigma : R) (N : nat)
  (g : np.random.generator) :
  0 <= T -> (0 < N)%nat ->
  exists c p : R,
    fst (Main.monte_carlo_option_pricing (Fin S0) (Fin K) (Fin T) (Fin r)
           (Fin sigma) N "call" g) = Return (Fin c)
    /\ fst (Main.monte_carlo_option_pricing (Fin S0) (Fin K) (Fin T) (Fin r)
              (Fin sigma) N "put" g) = Return (Fin p)
    /\ c - p
       = exp (- r * T)
         * (total (map (terminal_price S0 T r sigma) (drawn N g)) / INR N
            - K).
Proof.
  intros HT HN.
  destruct (monte_carlo_prices S0 K T r sigma N g HT HN) as [Hc Hp].
  do 2 eexists. split; [exact Hc|]. split; [exact Hp|].
  rewrite sample_parity by now apply drawn_nonempty.
  now rewrite drawn_length.
Qed.

Lemma monte_carlo_sample_parity_witness :
  exists c p : R,
    fst (Main.monte_carlo_option_pricing (Fin 100) (Fin 105) (Fin 1)
           (Fin 0.04) (Fin 0.2) 2 "call"
           {| np.random.variates := fun i => INR i;
              np.random.consumed := 0 |}) = Return (Fin c)
    /\ fst (Main.monte_carlo_option_pricing (Fin 100) (Fin 105) (Fin 1)
              (Fin 0.04) (Fin 0.2) 2 "put"
              {| np.random.variates := fun i => INR i;
                 np.random.consumed := 0 |}) = Return (Fin p)
    /\ c - p
       = exp (- (0.04) * 1)
         * (total (map (terminal_price 100 1 0.04 0.2)
                     (drawn 2 {| np.random.variates := fun i => INR i;
                                 np.random.consumed := 0 |})) / INR 2
            - 105).
Proof. apply monte_carlo_sample_parity; [lra | lia]. Defined.

(** X10.  At zero volatility the Monte Carlo price does not depend on the
    draws (in exact arithmetic): for [S0 > 0], [K > 0], [T > 0] and [N > 0] it is the discounted
    intrinsic value, [max(0, S0 - K e^(-rT))] for the call and
    [max(0, K e^(-rT) - S0)] for the put, and it is the price [BSM] returns
    at zero volatility whenever [ln(S0/K) + rT] is not zero. *)
Theorem monte_carlo_zero_volatility (S0 K T r : R) (N : nat)
  (g : np.random.generator) :
  0 < S0 -> 0 < K -> 0 < T -> (0 < N)%nat ->
  fst (Main.monte_carlo_option_pricing (Fin S0) (Fin K) (Fin T) (Fin r)
         (Fin 0) N "call" g)
  = Return (Fin (Rmax 0 (S0 - K * exp (- r * T))))
  /\ fst (Main.monte_carlo_option_pricing (Fin S0) (Fin K) (Fin T) (Fin r)
            (Fin 0) N "put" g)
     = Return (Fin (Rmax 0 (K * exp (- r * T) - S0)))
  /\ (moneyness S0 K T r <> 0 ->
      fst (Main.monte_carlo_option_pricing (Fin S0) (Fin K) (Fin T) (Fin r)
             (Fin 0) N "call" g)
      = Return (Main.BSM (Fin S0) (Fin K) (Fin T) (Fin r) (Fin 0) "call")
      /\ fst (Main.monte_carlo_option_pricing (Fin S0) (Fin K) (Fin T)
                (Fin r) (Fin 0) N "put" g)
         = Return (Main.BSM (Fin S0) (Fin K) (Fin T) (Fin r) (Fin 0) "put")).
Proof.
  intros HS HK HT HN.
  rewrite monte_carlo_zero_volatility_call, monte_carlo_zero_volatility_put
    by (lra || exact HN).
  split; [reflexivity|]. split; [reflexivity|].
  intro Hm. rewrite !BSM_zero_volatility by assumption.
  rewrite !zero_volatility_price_intrinsic by assumption.
  split; reflexivity.
Qed.

Lemma monte_carlo_zero_volatility_witness :
  fst (Main.monte_carlo_option_pricing (Fin 100) (Fin 105) (Fin 1) (Fin 0.04)
         (Fin 0) 3 "call"
         {| np.random.variates := fun i => INR i; np.random.consumed := 0 |})
  = Return (Fin (Rmax 0 (100 - 105 * exp (- (0.04) * 1)))).
Proof.
  apply (proj1 (monte_carlo_zero_volatility 100 105 1 0.04 3
                  {| np.random.variates := fun i => INR i;
                     np.random.consumed := 0 |}
                  ltac:(lra) ltac:(lra) ltac:(lra) ltac:(lia))).
Defined.

(** X11.  With [N = 0] scenarios the Monte Carlo pricer raises nothing:
    the mean of the empty payoff array is NaN and so is the price, for both
    option types and all arguments, and no variate is drawn. *)
Theorem monte_carlo_no_scenario (S0 K T r sigma : float64)
  (option_type : string) (g : np.random.generator) :
  option_type = "call" \/ option_type = "put" ->
  Main.monte_carlo_option_pricing S0 K T r sigma 0 option_type g
  = (Return NaN, g).
Proof.
  intro Ht. unfold Main.monte_carlo_option_pricing.
  cbn [np.random.standard_normal seq map]. rewrite advance_0.
  assert (Hm : np.mean [] = NaN).
  { unfold np.mean, np.sum. cbn. now rewrite Reqb_true. }
  destruct Ht as [->| ->]; cbn [String.eqb Ascii.eqb Bool.eqb];
    rewrite Hm; now destruct (np.exp (fmul (fneg r) T)).
Qed.

Lemma monte_carlo_no_scenario_witness :
  Main.monte_carlo_option_pricing (Fin 100) (Fin 105) (Fin 1) (Fin 0.04)
    (Fin 0.2) 0 "put"
    {| np.random.variates := fun i => INR i; np.random.consumed := 0 |}
  = (Return NaN,
     {| np.random.variates := fun i => INR i; np.random.consumed := 0 |}).
Proof. apply monte_carlo_no_scenario. now right. Defined.

(** X12.  For [S0 >= 0], [K >= 0], [T >= 0] and [N > 0] the Monte Carlo
    prices stay, in exact arithmetic, within the bounds of the sample: the call is at most the
    discounted mean terminal price, the put at most [K e^(-rT)], and
    neither is negative. *)
Theorem monte_carlo_price_bounds (S0 K T r sigma : R) (N : nat)
  (g : np.random.generator) :
  0 <= S0 -> 0 <= K -> 0 <= T -> (0 < N)%nat ->
  exists c p : R,
    fst (Main.monte_carlo_option_pricing (Fin S0) (Fin K) (Fin T) (Fin r)
           (Fin sigma) N "call" g) = Return (Fin c)
    /\ fst (Main.monte_carlo_option_pricing (Fin S0) (Fin K) (Fin T) (Fin r)
              (Fin sigma) N "put" g) = Return (Fin p)
    /\ 0 <= c
       <= exp (- r * T)
          * (total (map (terminal_price S0 T r sigma) (drawn N g)) / INR N)
    /\ 0 <= p <= K * exp (- r * T).
Proof.
  intros HS HK HT HN.
  destruct (monte_carlo_prices S0 K T r sigma N g HT HN) as [Hc Hp].
  pose proof (drawn_nonempty N g HN) as Hne.
  do 2 eexists. split; [exact Hc|]. split; [exact Hp|].
  split; split.
  - apply discounted_mean_payoff_nonneg; [exact HN|].
    intros k s. apply Rmax_l.
  - pose proof (discounted_mean_le
                  (fun z => call_payoff K (terminal_price S0 T r sigma z))
                  (terminal_price S0 T r sigma) r T (drawn N g) Hne
                  (fun z => call_payoff_le S0 K T r sigma z HS HK)) as H.
    rewrite drawn_length in H. unfold discounted_mean_payoff.
    rewrite drawn_length. exact H.
  - apply discounted_mean_payoff_nonneg; [exact HN|].
    intros k s. apply Rmax_l.
  - pose proof (discounted_mean_le
                  (fun z => put_payoff K (terminal_price S0 T r sigma z))
                  (fun _ => K) r T (drawn N g) Hne
                  (fun z => put_payoff_le S0 K T r sigma z HS HK)) as H.
    rewrite total_map_const, mean_of_constant in H
      by (rewrite drawn_length; exact HN).
    unfold discounted_mean_payoff. lra.
Qed.

Lemma monte_carlo_price_bounds_witness :
  exists c p : R,
    fst (Main.monte_carlo_option_pricing (Fin 100) (Fin 105) (Fin 1)
           (Fin 0.04) (Fin 0.2) 2 "call"
           {| np.random.variates := fun i => INR i;
              np.random.consumed := 0 |}) = Return (Fin c)
    /\ fst (Main.monte_carlo_option_pricing (Fin 100) (Fin 105) (Fin 1)
              (Fin 0.04) (Fin 0.2) 2 "put"
              {| np.random.variates := fun i => INR i;
                 np.random.consumed := 0 |}) = Return (Fin p)
    /\ 0 <= c
       <= exp (- (0.04) * 1)
          * (total (map (terminal_price 100 1 0.04 0.2)
                      (drawn 2 {| np.random.variates := fun i => INR i;
                                  np.random.consumed := 0 |})) / INR 2)
    /\ 0 <= p <= 105 * exp (- (0.04) * 1).
Proof. apply monte_carlo_price_bounds; lra || lia. Defined.

(** X13.  A call of the Monte Carlo pricer reads the [N] variates that
    follow those already consumed and nothing else of the generator: two
    states that yield the same [N] variates give the same outcome, and the
    generator is left [N] draws further, whatever the arguments and the
    option type, also when the call raises. *)
Theorem monte_carlo_uses_its_own_draws (S0 K T r sigma : float64) (N : nat)
  (option_type : string) (g h : np.random.generator) :
  drawn N g = drawn N h ->
  fst (Main.monte_carlo_option_pricing S0 K T r sigma N option_type g)
  = fst (Main.monte_carlo_option_pricing S0 K T r sigma N option_type h)
  /\ snd (Main.monte_carlo_option_pricing S0 K T r sigma N option_type g)
     = np.random.advance N g.
Proof.
  intro H. split; [now apply monte_carlo_depends_on_drawn|].
  apply monte_carlo_generator.
Qed.

Lemma monte_carlo_uses_its_own_draws_witness :
  fst (Main.monte_carlo_option_pricing (Fin 100) (Fin 105) (Fin 1) (Fin 0.04)
         (Fin 0.2) 2 "call"
         {| np.random.variates := fun i => INR i; np.random.consumed := 3 |})
  = fst (Main.monte_carlo_option_pricing (Fin 100) (Fin 105) (Fin 1)
           (Fin 0.04) (Fin 0.2) 2 "call"
           {| np.random.variates := fun i => INR (i + 3);
              np.random.consumed := 0 |})
  /\ snd (Main.monte_carlo_option_pricing (Fin 100) (Fin 105) (Fin 1)
            (Fin 0.04) (Fin 0.2) 2 "call"
            {| np.random.variates := fun i => INR i;
               np.random.consumed := 3 |})
     = np.random.advance 2
         {| np.random.variates := fun i => INR i; np.random.consumed := 3 |}.
Proof. apply monte_carlo_uses_its_own_draws. reflexivity. Defined.

(** X14.  The last part of main.py, from any state of the generator,
    raises nothing and prices the call and the put on different scenarios:
    the call on the first 100000 variates, the put on the 100000 that
    follow.  Both prices are finite and not negative, the put is at most
    [105 e^(-0.04)], and 200000 variates are consumed. *)
Theorem monte_carlo_script_prices (g : np.random.generator) :
  exists c p : R,
    monte_carlo_script g
    = (Return (Fin c, Fin p),
       np.random.advance 100000 (np.random.advance 100000 g))
    /\ c = discounted_mean_payoff call_payoff 100 105 1 0.04 0.2
             (drawn 100000 g)
    /\ p = discounted_mean_payoff put_payoff 100 105 1 0.04 0.2
             (drawn 100000 (np.random.advance 100000 g))
    /\ 0 <= c /\ 0 <= p <= 105 * exp (- (0.04) * 1).
Proof.
  do 2 eexists. split; [apply monte_carlo_script_runs|].
  split; [reflexivity|]. split; [reflexivity|].
  assert (HN : (0 < 100000)%nat) by (apply Nat.ltb_lt; vm_compute; reflexivity).
  generalize dependent 100000%nat. intros N HN.
  pose proof (drawn_nonempty N (np.random.advance N g) HN) as Hne.
  split; [|split].
  - apply discounted_mean_payoff_nonneg; [exact HN|].
    intros k s. apply Rmax_l.
  - apply discounted_mean_payoff_nonneg; [exact HN|].
    intros k s. apply Rmax_l.
  - pose proof (discounted_mean_le
                  (fun z => put_payoff 105 (terminal_price 100 1 0.04 0.2 z))
                  (fun _ => 105) 0.04 1 (drawn N (np.random.advance N g)) Hne
                  (fun z => put_payoff_le 100 105 1 0.04 0.2 z
                              ltac:(lra) ltac:(lra))) as H.
    rewrite total_map_const, mean_of_constant in H
      by (rewrite drawn_length; exact HN).
    unfold discounted_mean_payoff. lra.
Qed.

End MonteCarloBehaviour.

(** ** What the solver guarantees *)

Section SolverBehaviour.

Import Formula.

(** The convergence test passes on finite numbers only. *)
Lemma converged_finite (market_price price tol : float64) :
  flt (fabs (fsub market_price price)) tol = true ->
  exists m p : R,
    market_price = Fin m /\ price = Fin p
    /\ flt (Fin (Rabs (m - p))) tol = true
    /\ fle tol (Fin 0) = false.
Proof.
  intro H. destruct market_price as [m| | |], price as [p| | |];
    try (destruct tol; cbn in H; discriminate H).
  exists m, p. split; [reflexivity|]. split; [reflexivity|].
  split; [exact H|].
  cbn [fsub fneg fadd fabs] in H. unfold Rminus in H.
  destruct tol as [t| | |]; cbn [flt] in H; try discriminate H;
    try reflexivity.
  cbn [flt fle] in *. unfold Rltb, Rleb in *.
  destruct (Rlt_dec (Rabs (m + - p)) t) as [Hl|]; [|discriminate H].
  pose proof (Rabs_pos (m + - p)).
  destruct (Rle_dec t 0); [lra | reflexivity].
Qed.

(** What holds whenever the loop returns. *)
Lemma newton_loop_returns (S K T r market_price : float64)
  (option_type : string) (tol : float64) (n : nat) :
  forall sigma v : float64,
    ImpliedVol.newton_loop S K T r market_price option_type tol n sigma
    = Return v ->
    (option_type = "call" \/ option_type = "put")
    /\ degenerate S K T r v = false
    /\ converged S K T r market_price option_type tol v = true.
Proof.
  induction n as [|n IH]; intros sigma v H; [discriminate H|].
  cbn [ImpliedVol.newton_loop] in H.
  assert (Ht : option_type = "call" \/ option_type = "put").
  { destruct (string_dec option_type "call") as [Hc|Hc]; [now left|].
    destruct (string_dec option_type "put") as [Hp|Hp]; [now right|].
    rewrite black_scholes_invalid_type in H by assumption. discriminate H. }
  rewrite black_scholes_closed_form in H by exact Ht. cbn [bind] in H.
  destruct (feq (ImpliedVol.vega S K T r sigma) (Fin 0)) eqn:Hd;
    [discriminate H|].
  destruct (flt (fabs (fsub market_price
                         (closed_form S K T r option_type sigma))) tol)
    eqn:Hc.
  - injection H as <-. split; [exact Ht|]. split; [exact Hd | exact Hc].
  - exact (IH _ _ H).
Qed.

Lemma solver_returns_finite (S K T r market_price : float64)
  (option_type : string) (tol : float64) (max_iter : nat) (v : float64) :
  ImpliedVol.implied_volatility S K T r market_price option_type tol max_iter
  = Return v ->
  (option_type = "call" \/ option_type = "put")
  /\ exists s m p : R,
       v = Fin s /\ market_price = Fin m
       /\ ImpliedVol.black_scholes S K T r (Fin s) option_type = Return (Fin p)
       /\ flt (Fin (Rabs (m - p))) tol = true
       /\ fle tol (Fin 0) = false.
Proof.
  intro H. apply newton_loop_returns in H. destruct H as (Ht & _ & Hc).
  split; [exact Ht|]. unfold converged in Hc.
  destruct (converged_finite _ _ _ Hc) as (m & p & Hm & Hp & Hlt & Htol).
  destruct v as [s| | |];
    try (rewrite closed_form_nonfinite_sigma in Hp by (intros ? ?; discriminate);
         discriminate Hp).
  exists s, m, p. split; [reflexivity|]. split; [exact Hm|].
  split; [|split; assumption].
  rewrite black_scholes_closed_form by exact Ht. now rewrite Hp.
Qed.

(** More iterations change no outcome but non-convergence. *)
Lemma newton_loop_stable (S K T r market_price : float64)
  (option_type : string) (tol : float64) (n k : nat) :
  forall (sigma : float64) (outcome : result float64),
    ImpliedVol.newton_loop S K T r market_price option_type tol n sigma
    = outcome ->
    outcome <> Raise ImpliedVol.did_not_converge ->
    ImpliedVol.newton_loop S K T r market_price option_type tol (n + k) sigma
    = outcome.
Proof.
  induction n as [|n IH]; intros sigma outcome H Hne.
  - simpl in H. now destruct Hne.
  - cbn [Nat.add ImpliedVol.newton_loop] in *.
    destruct (ImpliedVol.black_scholes S K T r sigma option_type)
      as [price|e]; [|exact H].
    cbn [bind] in *.
    destruct (feq (ImpliedVol.vega S K T r sigma) (Fin 0)); [exact H|].
    destruct (flt (fabs (fsub market_price price)) tol); [exact H|].
    now apply IH.
Qed.

(** A NaN iterate never recovers: the loop runs out of iterations. *)
Lemma newton_loop_nan (S K T r market_price : float64)
  (option_type : string) (tol : float64) (n : nat) :
  option_type = "call" \/ option_type = "put" ->
  ImpliedVol.newton_loop S K T r market_price option_type tol n NaN
  = Raise ImpliedVol.did_not_converge.
Proof.
  intro Ht. induction n as [|n IH]; [reflexivity|].
  cbn [ImpliedVol.newton_loop].
  rewrite black_scholes_closed_form by exact Ht. cbn [bind].
  rewrite closed_form_nonfinite_sigma by (intros ? ?; discriminate).
  rewrite vega_nonfinite_sigma by (intros ? ?; discriminate).
  cbn [feq].
  replace (fsub market_price NaN) with NaN by (now destruct market_price).
  cbn [fabs flt fdiv fadd]. exact IH.
Qed.

(** With a NaN market price the first update makes the volatility NaN. *)
Lemma newton_loop_nan_market (S K T r : float64)
  (option_type : string) (tol : float64) (n : nat) (sigma : float64) :
  option_type = "call" \/ option_type = "put" ->
  degenerate S K T r sigma = false ->
  ImpliedVol.newton_loop S K T r NaN option_type tol n sigma
  = Raise ImpliedVol.did_not_converge.
Proof.
  intros Ht Hd. destruct n as [|n]; [reflexivity|].
  cbn [ImpliedVol.newton_loop].
  rewrite black_scholes_closed_form by exact Ht. cbn [bind].
  unfold degenerate in Hd. rewrite Hd.
  cbn [fsub fadd fabs flt fdiv].
  replace (fadd sigma NaN) with NaN by (now destruct sigma).
  now apply newton_loop_nan.
Qed.

(** At zero maturity with [S <> K], [d1] is infinite and vega is zero. *)
Lemma vega_zero_maturity (S K r sigma : R) :
  0 < S -> 0 < K -> S <> K ->
  ImpliedVol.vega (Fin S) (Fin K) (Fin 0) (Fin r) (Fin sigma) = Fin 0.
Proof.
  intros HS HK Hne. unfold ImpliedVol.vega.
  rewrite (d1_numerator_fin S K 0 r sigma HS HK).
  rewrite sqrt_fin by lra. rewrite sqrt_0. cbn [fmul].
  replace (sigma * 0) with 0 by ring.
  assert (Hl : ln (S / K) + (r + sigma * sigma / 2) * 0 <> 0).
  { replace (ln (S / K) + (r + sigma * sigma / 2) * 0) with (ln (S / K))
      by ring.
    intro E. apply Hne.
    assert (Hq : 0 < S / K) by (apply Rdiv_lt_0_compat; lra).
    rewrite <- (exp_ln (S / K) Hq), E, exp_0 in Hq.
    assert (S / K = 1) by (rewrite <- (exp_ln (S / K)), E, exp_0;
                           [reflexivity | apply Rdiv_lt_0_compat; lra]).
    apply (f_equal (fun x => x * K)) in H. field_simplify in H; lra. }
  cbn [fdiv]. rewrite Reqb_true by reflexivity.
  rewrite Reqb_false by exact Hl.
  unfold inf_of_sign. destruct (Rltb 0 _); cbn [norm.pdf fmul]; f_equal; ring.
Qed.

(** At zero maturity with [S = K], [d1] is [0 / 0]: price and vega are
    NaN. *)
Lemma nan_at_the_money_zero_maturity (S r sigma : R) (option_type : string) :
  0 < S ->
  ImpliedVol.vega (Fin S) (Fin S) (Fin 0) (Fin r) (Fin sigma) = NaN
  /\ closed_form (Fin S) (Fin S) (Fin 0) (Fin r) option_type (Fin sigma)
     = NaN.
Proof.
  intro HS.
  assert (Hd : fdiv (fadd (np.log (fdiv (Fin S) (Fin S)))
                 (fmul (fadd (Fin r) (fmul (Fin 0.5) (fsquare (Fin sigma))))
                       (Fin 0)))
                 (fmul (Fin sigma) (np.sqrt (Fin 0))) = NaN).
  { rewrite (d1_numerator_fin S S 0 r sigma HS HS).
    rewrite sqrt_fin by lra. rewrite sqrt_0. cbn [fmul].
    replace (sigma * 0) with 0 by ring.
    replace (ln (S / S) + (r + sigma * sigma / 2) * 0) with 0.
    - apply fdiv_zero_zero.
    - replace (S / S) with 1 by (field; lra). rewrite ln_1. ring. }
  split.
  - unfold ImpliedVol.vega. rewrite Hd. reflexivity.
  - now apply price_of_nan_d1.
Qed.

Lemma solver_zero_maturity (S K r : R) (market_price tol : float64)
  (option_type : string) (max_iter : nat) :
  0 < S -> 0 < K -> option_type = "call" \/ option_type = "put" ->
  (0 < max_iter)%nat ->
  ImpliedVol.implied_volatility (Fin S) (Fin K) (Fin 0) (Fin r) market_price
    option_type tol max_iter
  = Raise (if Reqb S K then ImpliedVol.did_not_converge
           else ImpliedVol.zero_vega).
Proof.
  intros HS HK Ht Hm. unfold ImpliedVol.implied_volatility.
  destruct max_iter as [|n]; [lia|]. cbn [ImpliedVol.newton_loop].
  rewrite black_scholes_closed_form by exact Ht. cbn [bind].
  destruct (Req_dec_T S K) as [<-|Hne].
  - rewrite Reqb_true by reflexivity.
    destruct (nan_at_the_money_zero_maturity S r 0.2 option_type HS)
      as [-> ->].
    cbn [feq]. replace (fsub market_price NaN) with NaN
      by (now destruct market_price).
    cbn [fabs flt fdiv fadd]. now apply newton_loop_nan.
  - rewrite Reqb_false by exact Hne.
    rewrite vega_zero_maturity by assumption.
    cbn [feq]. now rewrite Reqb_true.
Qed.


(** The solver returns its initial guess when the market price is the
    price of [0.2] and the vega of [0.2] is not zero. *)
Lemma solver_example :
  ImpliedVol.implied_volatility (Fin 100) (Fin 100) (Fin 1) (Fin 0)
    (closed_form (Fin 100) (Fin 100) (Fin 1) (Fin 0) "call" (Fin 0.2))
    "call" ImpliedVol.default_tol ImpliedVol.default_max_iter
  = Return (Fin 0.2).
Proof.
  rewrite implied_volatility_eq.
  apply (newton_loop_stops_at_once _ _ _ _ _ _ _
           (closed_form (Fin 100) (Fin 100) (Fin 1) (Fin 0) "call"
              (Fin 0.2)) "call" 99).
  - apply black_scholes_closed_form. now left.
  - apply (at_the_money_not_degenerate 100 1 0.2); lra.
  - rewrite closed_form_fin by (lra || now left).
    unfold ImpliedVol.default_tol. cbn [fsub fneg fadd fabs flt].
    apply Rltb_true.
    match goal with
    | |- Rabs ?d < _ => replace d with 0 by ring
    end.
    rewrite Rabs_R0. lra.
Qed.

(** X15.  Whatever its arguments, when the solver returns, the option
    type is valid, the volatility returned is a finite number (neither NaN
    nor an infinity), the market price is finite, the price of the
    volatility returned is finite and within the tolerance of the market
    price, and the tolerance is positive.  So the solver never returns for a
    NaN market price, nor for a tolerance that is zero, negative or NaN. *)
Theorem solver_returns_only_finite_solutions
  (S K T r market_price : float64) (option_type : string) (tol : float64)
  (max_iter : nat) (v : float64) :
  ImpliedVol.implied_volatility S K T r market_price option_type tol max_iter
  = Return v ->
  (option_type = "call" \/ option_type = "put")
  /\ (exists s m p : R,
        v = Fin s /\ market_price = Fin m
        /\ ImpliedVol.black_scholes S K T r (Fin s) option_type
           = Return (Fin p)
        /\ flt (Fin (Rabs (m - p))) tol = true)
  /\ market_price <> NaN /\ tol <> NaN /\ fle tol (Fin 0) = false.
Proof.
  intro H. apply solver_returns_finite in H.
  destruct H as (Ht & s & m & p & Hv & Hm & Hp & Hc & Htol).
  split; [exact Ht|]. split; [now exists s, m, p|].
  split; [rewrite Hm; discriminate|].
  split; [intros ->; discriminate Hc | exact Htol].
Qed.

Lemma solver_returns_only_finite_solutions_witness :
  exists s m p : R,
    Fin 0.2 = Fin s
    /\ closed_form (Fin 100) (Fin 100) (Fin 1) (Fin 0) "call" (Fin 0.2)
       = Fin m
    /\ ImpliedVol.black_scholes (Fin 100) (Fin 100) (Fin 1) (Fin 0)
         (Fin s) "call" = Return (Fin p)
    /\ flt (Fin (Rabs (m - p))) ImpliedVol.default_tol = true.
Proof.
  exact (proj1 (proj2
    (solver_returns_only_finite_solutions _ _ _ _ _ _ _ _ _ solver_example))).
Defined.

(** X16.  A larger [max_iter] changes no outcome of the solver other than
    non-convergence: a volatility returned, or an error other than
    non-convergence, with [max_iter] iterations is the outcome with any
    larger number of iterations. *)
Theorem solver_outcome_is_stable_in_max_iter
  (S K T r market_price : float64) (option_type : string) (tol : float64)
  (max_iter more : nat) (outcome : result float64) :
  ImpliedVol.implied_volatility S K T r market_price option_type tol max_iter
  = outcome ->
  outcome <> Raise ImpliedVol.did_not_converge ->
  ImpliedVol.implied_volatility S K T r market_price option_type tol
    (max_iter + more)
  = outcome.
Proof.
  intros H Hne. rewrite implied_volatility_eq in *.
  now apply newton_loop_stable.
Qed.

Lemma solver_outcome_is_stable_in_max_iter_witness :
  ImpliedVol.implied_volatility (Fin 100) (Fin 100) (Fin 1) (Fin 0)
    (closed_form (Fin 100) (Fin 100) (Fin 1) (Fin 0) "call" (Fin 0.2))
    "call" ImpliedVol.default_tol (ImpliedVol.default_max_iter + 50)
  = Return (Fin 0.2).
Proof.
  apply solver_outcome_is_stable_in_max_iter;
    [apply solver_example | discriminate].
Defined.

(** X17.  At zero maturity the solver never returns.  For [S > 0],
    [K > 0], [T = 0], a valid option type and at least one iteration,
    whatever the market price and the tolerance: when [S <> K] the first
    iteration finds a zero vega and raises for it; when [S = K] price and
    vega are NaN, the volatility becomes NaN and the solver raises for
    non-convergence after [max_iter] iterations. *)
Theorem solver_at_zero_maturity (S K r : R) (market_price tol : float64)
  (option_type : string) (max_iter : nat) :
  0 < S -> 0 < K -> option_type = "call" \/ option_type = "put" ->
  (0 < max_iter)%nat ->
  ImpliedVol.implied_volatility (Fin S) (Fin K) (Fin 0) (Fin r) market_price
    option_type tol max_iter
  = Raise (if Reqb S K then ImpliedVol.did_not_converge
           else ImpliedVol.zero_vega).
Proof. intros. now apply solver_zero_maturity. Qed.

Lemma solver_at_zero_maturity_witness :
  ImpliedVol.implied_volatility (Fin 100) (Fin 105) (Fin 0) (Fin 0.05)
    (Fin 8) "call" ImpliedVol.default_tol ImpliedVol.default_max_iter
  = Raise (if Reqb 100 105 then ImpliedVol.did_not_converge
           else ImpliedVol.zero_vega).
Proof.
  apply solver_at_zero_maturity;
    [lra | lra | now left | unfold ImpliedVol.default_max_iter; lia].
Defined.

(** X18.  With a NaN market price and a valid option type the solver
    never returns, whatever the other arguments: with at least one
    iteration it raises for a zero vega when the vega of the initial guess
    is zero, and otherwise for non-convergence, the first update making the
    volatility NaN for good. *)
Theorem solver_with_nan_market_price (S K T r : float64)
  (option_type : string) (tol : float64) (max_iter : nat) :
  option_type = "call" \/ option_type = "put" -> (0 < max_iter)%nat ->
  ImpliedVol.implied_volatility S K T r NaN option_type tol max_iter
  = Raise (if degenerate S K T r (Fin 0.2) then ImpliedVol.zero_vega
           else ImpliedVol.did_not_converge).
Proof.
  intros Ht Hm. rewrite implied_volatility_eq.
  destruct (degenerate S K T r (Fin 0.2)) eqn:Hd.
  - destruct max_iter as [|n]; [lia|].
    apply (newton_loop_zero_vega _ _ _ _ _ _ _
             (closed_form S K T r option_type (Fin 0.2))).
    + now apply black_scholes_closed_form.
    + exact Hd.
  - now apply newton_loop_nan_market.
Qed.

Lemma solver_with_nan_market_price_witness :
  ImpliedVol.implied_volatility (Fin 100) (Fin 105) (Fin 1) (Fin 0.05) NaN
    "call" ImpliedVol.default_tol ImpliedVol.default_max_iter
  = Raise (if degenerate (Fin 100) (Fin 105) (Fin 1) (Fin 0.05) (Fin 0.2)
           then ImpliedVol.zero_vega else ImpliedVol.did_not_converge).
Proof.
  apply solver_with_nan_market_price; [now left|].
  unfold ImpliedVol.default_max_iter. lia.
Defined.

End SolverBehaviour.

(** ** What the smile calibrator guarantees *)

Section SmileBehaviour.

Import Formula.

(** The entry recorded is NaN only when the solver raised. *)
Lemma recorded_nan (S K T r market_price : float64) (option_type : string)
  (tol : float64) (max_iter : nat) :
  recorded (ImpliedVol.implied_volatility S K T r market_price option_type
              tol max_iter) = NaN
  <-> exists e : exn,
        ImpliedVol.implied_volatility S K T r market_price option_type
          tol max_iter = Raise e.
Proof.
  destruct (ImpliedVol.implied_volatility S K T r market_price option_type
              tol max_iter) as [v|e] eqn:E.
  - apply solver_returns_finite in E.
    destruct E as (_ & s & m & p & -> & _).
    split; [discriminate | intros [e He]; discriminate He].
  - split; [intros _; now exists e | reflexivity].
Qed.

Lemma recorded_nan_market (S K T r : float64) (option_type : string)
  (tol : float64) (max_iter : nat) :
  recorded (ImpliedVol.implied_volatility S K T r NaN option_type
              tol max_iter) = NaN.
Proof.
  destruct (ImpliedVol.implied_volatility S K T r NaN option_type
              tol max_iter) as [v|e] eqn:E; [|reflexivity].
  apply solver_returns_finite in E.
  destruct E as (_ & s & m & p & _ & Hm & _). discriminate Hm.
Qed.

Lemma solve_at_eq (S T r base_volatility : float64) (n_simulations : nat)
  (K : float64) (g : np.random.generator) :
  solve_at S T r base_volatility n_simulations K g
  = ImpliedVol.implied_volatility S K T r
      (market_price_at S T r base_volatility n_simulations K g) "call"
      ImpliedVol.default_tol ImpliedVol.default_max_iter.
Proof. reflexivity. Qed.

(** An entry that is not NaN is a volatility the solver returned. *)
Lemma recorded_entry (S K T r market_price : float64)
  (option_type : string) (max_iter : nat) :
  recorded (ImpliedVol.implied_volatility S K T r market_price option_type
              ImpliedVol.default_tol max_iter) <> NaN ->
  exists s m p : R,
    recorded (ImpliedVol.implied_volatility S K T r market_price option_type
                ImpliedVol.default_tol max_iter) = Fin s
    /\ market_price = Fin m
    /\ ImpliedVol.black_scholes S K T r (Fin s) option_type = Return (Fin p)
    /\ Rabs (m - p) < 1e-5.
Proof.
  destruct (ImpliedVol.implied_volatility S K T r market_price option_type
              ImpliedVol.default_tol max_iter) as [v|e] eqn:E;
    [|intro H; now destruct H].
  intros _. apply solver_returns_finite in E.
  destruct E as (_ & s & m & p & Hv & Hm & Hp & Hc & _).
  exists s, m, p. split; [exact Hv|]. split; [exact Hm|].
  split; [exact Hp|]. now apply Rltb_lt in Hc.
Qed.

Lemma market_price_no_simulation (S T r base_volatility K : float64)
  (g : np.random.generator) :
  market_price_at S T r base_volatility 0 K g = NaN.
Proof.
  unfold market_price_at. cbn. now rewrite Reqb_true.
Qed.

Lemma entries_no_simulation (S T r base_volatility : float64)
  (ks : list float64) (g : np.random.generator) :
  entries S T r base_volatility 0 ks g = repeat NaN (List.length ks).
Proof.
  revert g. induction ks as [|K ks IH]; intro g; [reflexivity|].
  cbn [entries List.length repeat]. rewrite IH. f_equal.
  rewrite solve_at_eq, market_price_no_simulation.
  apply recorded_nan_market.
Qed.

Lemma smile_generator (S T r base_volatility : float64) (n_simulations : nat)
  (g : np.random.generator) :
  snd (ImpliedVol.monte_carlo_volatility_smile S T r base_volatility
         n_simulations g)
  = np.random.advance (50 * n_simulations) g.
Proof.
  rewrite smile_returns. cbn [snd]. now rewrite linspace_length.
Qed.

Lemma total_bounds (lo hi : R) (xs : list R) :
  (forall x, In x xs -> lo <= x <= hi) ->
  INR (List.length xs) * lo <= total xs <= INR (List.length xs) * hi.
Proof.
  induction xs as [|x xs IH]; intro H; [simpl; lra|].
  cbn [total fold_right List.length]. fold (total xs). rewrite S_INR.
  assert (lo <= x <= hi) by (apply H; now left).
  assert (INR (List.length xs) * lo <= total xs <= INR (List.length xs) * hi)
    by (apply IH; intros y Hy; apply H; now right).
  lra.
Qed.

Lemma mean_bounds (lo hi : R) (xs : list R) :
  xs <> [] -> (forall x, In x xs -> lo <= x <= hi) ->
  lo <= total xs / INR (List.length xs) <= hi.
Proof.
  intros Hne H. pose proof (total_bounds lo hi xs H) as [Hl Hh].
  assert (Hn : 0 < INR (List.length xs)).
  { apply lt_0_INR. destruct xs; [contradiction | simpl; lia]. }
  split.
  - apply Rmult_le_reg_r with (INR (List.length xs)); [exact Hn|].
    unfold Rdiv. rewrite Rmult_assoc, Rinv_l by lra. lra.
  - apply Rmult_le_reg_r with (INR (List.length xs)); [exact Hn|].
    unfold Rdiv. rewrite Rmult_assoc, Rinv_l by lra. lra.
Qed.

(** The synthetic market price when every simulated volatility is
    positive. *)
Lemma market_price_bounds (S K T r base_volatility : R) (n_simulations : nat)
  (g : np.random.generator) :
  0 < S -> 0 < K -> 0 < T -> (0 < n_simulations)%nat ->
  (forall z, In z (drawn n_simulations g) -> 0 < base_volatility + 0.05 * z) ->
  exists m : R,
    market_price_at (Fin S) (Fin T) (Fin r) (Fin base_volatility)
      n_simulations (Fin K) g = Fin m
    /\ Rmax 0 (S - K * exp (- r * T)) <= m <= S.
Proof.
  intros HS HK HT Hn Hpos.
  set (prices := map (fun z => call_price S K T r (base_volatility + 0.05 * z))
                   (drawn n_simulations g)).
  assert (E : market_price_at (Fin S) (Fin T) (Fin r) (Fin base_volatility)
                n_simulations (Fin K) g = np.mean (map Fin prices)).
  { unfold market_price_at, np.random.normal, prices, drawn.
    cbn [np.random.standard_normal fst]. rewrite !map_map. f_equal.
    apply map_ext_in. intros i Hi. cbn [fmul fadd].
    rewrite closed_form_fin; [reflexivity|assumption..| |now left].
    apply Rgt_not_eq, Hpos. unfold drawn. apply in_map_iff. now exists i. }
  assert (Hne : prices <> []).
  { unfold prices. intro E'. apply map_eq_nil in E'.
    now apply (drawn_nonempty n_simulations g Hn). }
  exists (total prices / INR (List.length prices)).
  split; [rewrite E; now apply mean_fin|].
  apply mean_bounds; [exact Hne|].
  intros x Hx. unfold prices in Hx. apply in_map_iff in Hx.
  destruct Hx as (z & <- & Hz). apply call_price_bounds; auto.
Qed.


(** X19.  With [n_simulations = 0] the calibrator raises nothing, draws
    nothing and returns the fifty strikes with fifty NaN entries: every
    synthetic market price is the mean of an empty array, NaN, for which
    the solver raises. *)
Theorem smile_without_simulation (S T r base_volatility : float64)
  (g : np.random.generator) :
  ImpliedVol.monte_carlo_volatility_smile S T r base_volatility 0 g
  = (Return (np.linspace (fmul S (Fin 0.8)) (fmul S (Fin 1.2)) 50,
             repeat NaN 50), g).
Proof.
  rewrite smile_returns, entries_no_simulation, linspace_length.
  now rewrite Nat.mul_0_r, advance_0.
Qed.

(** X20.  The calibrator consumes [50 * n_simulations] variates, and an
    entry of the curve is NaN exactly when the solver raised for its
    strike: an entry that is not NaN is a finite volatility whose call
    price is finite and within [1e-5] of the synthetic market price of the
    strike, itself finite. *)
Theorem smile_entry_is_nan_iff_solver_raised
  (S T r base_volatility : float64) (n_simulations : nat)
  (g : np.random.generator) :
  exists strikes vols : list float64,
    ImpliedVol.monte_carlo_volatility_smile S T r base_volatility
      n_simulations g
    = (Return (strikes, vols), np.random.advance (50 * n_simulations) g)
    /\ forall (i : nat) (K : float64),
         nth_error strikes i = Some K ->
         exists entry : float64,
           nth_error vols i = Some entry
           /\ (entry = NaN <->
               exists e : exn,
                 solve_at S T r base_volatility n_simulations K
                   (np.random.advance (i * n_simulations) g) = Raise e)
           /\ (entry <> NaN ->
               exists s m p : R,
                 entry = Fin s
                 /\ market_price_at S T r base_volatility n_simulations K
                      (np.random.advance (i * n_simulations) g) = Fin m
                 /\ ImpliedVol.black_scholes S K T r (Fin s) "call"
                    = Return (Fin p)
                 /\ Rabs (m - p) < 1e-5).
Proof.
  do 2 eexists. split.
  { rewrite smile_returns, linspace_length. reflexivity. }
  intros i K HK.
  exists (recorded (solve_at S T r base_volatility n_simulations K
                      (np.random.advance (i * n_simulations) g))).
  split; [now apply entries_nth_error|].
  rewrite solve_at_eq.
  split; [apply recorded_nan | apply recorded_entry].
Qed.

(** X21.  For [S > 0], [K > 0], [T > 0] and at least one simulation, when
    every simulated volatility [base_volatility + 0.05 z] is positive, the
    synthetic market price the calibrator hands to the solver is finite and,
    in exact arithmetic, within the bounds of a call price,
    [max(0, S - K e^(-rT))] and [S]. *)
Theorem smile_market_price_bounds (S K T r base_volatility : R)
  (n_simulations : nat) (g : np.random.generator) :
  0 < S -> 0 < K -> 0 < T -> (0 < n_simulations)%nat ->
  (forall z : R, In z (drawn n_simulations g) ->
     0 < base_volatility + 0.05 * z) ->
  exists m : R,
    market_price_at (Fin S) (Fin T) (Fin r) (Fin base_volatility)
      n_simulations (Fin K) g = Fin m
    /\ Rmax 0 (S - K * exp (- r * T)) <= m <= S.
Proof. intros. now apply market_price_bounds. Qed.

Lemma smile_market_price_bounds_witness :
  exists m : R,
    market_price_at (Fin 100) (Fin 1) (Fin 0.05) (Fin 0.2) 2 (Fin 105)
      {| np.random.variates := fun i => INR i; np.random.consumed := 0 |}
    = Fin m
    /\ Rmax 0 (100 - 105 * exp (- (0.05) * 1)) <= m <= 100.
Proof.
  apply smile_market_price_bounds; [lra | lra | lra | lia |].
  intros z Hz. simpl in Hz. destruct Hz as [<-|[<-|[]]]; lra.
Defined.

End SmileBehaviour.

(** ** What the interactive part of main.py guarantees *)

Section ScriptBehaviour.

Import Formula Script.

Lemma lstrip_blank (a s : string) :
  blank a = true -> lstrip (a ++ s) = lstrip s.
Proof.
  induction a as [|c a IH]; intro H; [reflexivity|].
  cbn [blank] in H. apply andb_prop in H. destruct H as [Hc Ha].
  cbn [String.append lstrip]. rewrite Hc. now apply IH.
Qed.

Lemma rstrip_blank (b : string) : blank b = true -> rstrip b = EmptyString.
Proof.
  induction b as [|c b IH]; intro H; [reflexivity|].
  cbn [blank] in H. apply andb_prop in H. destruct H as [Hc Hb].
  cbn [rstrip]. rewrite (IH Hb). now rewrite Hc.
Qed.

Lemma rstrip_append_blank (s b : string) :
  blank b = true -> rstrip (s ++ b) = rstrip s.
Proof.
  intro Hb. induction s as [|c s IH].
  - cbn [String.append rstrip]. now apply rstrip_blank.
  - cbn [String.append rstrip]. now rewrite IH.
Qed.

Lemma lstrip_all_blank (b : string) :
  blank b = true -> lstrip b = EmptyString.
Proof.
  induction b as [|d b IH]; intro H; [reflexivity|].
  cbn [blank] in H. apply andb_prop in H. destruct H as [Hd Hb].
  cbn [lstrip]. rewrite Hd. now apply IH.
Qed.

Lemma strip_append_blank (s b : string) :
  blank b = true -> strip (s ++ b) = strip s.
Proof.
  intro Hb. unfold strip. induction s as [|c s IH].
  - cbn [String.append]. now rewrite lstrip_all_blank.
  - cbn [String.append lstrip]. destruct (isspace c); [exact IH|].
    now apply (rstrip_append_blank (String c s)).
Qed.

(** Whitespace around the answer changes nothing. *)
Lemma strip_padding (a s b : string) :
  blank a = true -> blank b = true -> strip (a ++ s ++ b) = strip s.
Proof.
  intros Ha Hb. unfold strip at 1. rewrite lstrip_blank by exact Ha.
  now apply strip_append_blank.
Qed.

Lemma isspace_lower_char (c : Ascii.ascii) :
  isspace (lower_char c) = isspace c.
Proof.
  destruct c as [[] [] [] [] [] [] [] []]; reflexivity.
Qed.

Lemma lower_lstrip (s : string) : lower (lstrip s) = lstrip (lower s).
Proof.
  induction s as [|c s IH]; [reflexivity|].
  cbn [lstrip lower]. rewrite isspace_lower_char.
  destruct (isspace c); [exact IH | reflexivity].
Qed.

Lemma lower_rstrip (s : string) : lower (rstrip s) = rstrip (lower s).
Proof.
  induction s as [|c s IH]; [reflexivity|].
  cbn [rstrip lower]. rewrite <- IH, isspace_lower_char.
  destruct (rstrip s) as [|d t]; [|reflexivity].
  cbn [lower]. destruct (isspace c); reflexivity.
Qed.

Lemma lower_strip (s : string) : lower (strip s) = strip (lower s).
Proof. unfold strip. now rewrite lower_rstrip, lower_lstrip. Qed.

Lemma lower_char_idempotent (c : Ascii.ascii) :
  lower_char (lower_char c) = lower_char c.
Proof.
  destruct c as [[] [] [] [] [] [] [] []]; reflexivity.
Qed.

Lemma lower_idempotent (s : string) : lower (lower s) = lower s.
Proof.
  induction s as [|c s IH]; [reflexivity|].
  cbn [lower]. now rewrite lower_char_idempotent, IH.
Qed.

Lemma script_depends_on_lower (s1 s2 : string) :
  lower s1 = lower s2 -> option_price_script s1 = option_price_script s2.
Proof.
  intro H. unfold option_price_script. now rewrite !lower_strip, H.
Qed.

Lemma script_ignores_padding (a s b : string) :
  blank a = true -> blank b = true ->
  option_price_script (a ++ s ++ b) = option_price_script s.
Proof.
  intros Ha Hb. unfold option_price_script. now rewrite strip_padding.
Qed.

Lemma script_outcome (answer : string) :
  let option_type := lower (strip answer) in
  (option_type = "call"
   /\ option_price_script answer
      = price_line "call" (Fin (call_price 100 105 2 0.05 0.2)))
  \/ (option_type = "put"
      /\ option_price_script answer
         = price_line "put" (Fin (put_price 100 105 2 0.05 0.2)))
  \/ (option_type <> "call" /\ option_type <> "put"
      /\ option_price_script answer = invalid_line).
Proof.
  intro option_type. unfold option_price_script. fold option_type.
  cbn [existsb].
  destruct (String.eqb_spec option_type "put") as [Hp|Hp].
  - right; left. split; [exact Hp|]. rewrite Hp. cbn [orb].
    f_equal. apply BSM_put_fin; (lra || discriminate).
  - destruct (String.eqb_spec option_type "call") as [Hc|Hc].
    + left. split; [exact Hc|]. rewrite Hc. cbn [orb].
      f_equal. apply BSM_call_fin; lra.
    + right; right. now repeat split.
Qed.


(** X22.  For an ASCII answer, the first part of main.py prints a price
    only when the answer, without the whitespace around it and in lower
    case, is [call] or [put]; the price printed is then the one
    [black_scholes] returns for that type at [S = 100], [K = 105], [T = 2],
    [r = 0.05], [sigma = 0.2], a finite number that is not negative.  Any
    other answer gets the line that refuses it: the script never reaches
    [BSM] with a type it does not know. *)
Theorem option_price_script_outcome (answer : string) :
  isascii answer = true ->
  match option_price_script answer with
  | price_line option_type price =>
      option_type = lower (strip answer)
      /\ (option_type = "call" \/ option_type = "put")
      /\ ImpliedVol.black_scholes (Fin 100) (Fin 105) (Fin 2) (Fin 0.05)
           (Fin 0.2) option_type = Return price
      /\ exists x : R, price = Fin x /\ 0 <= x
  | invalid_line =>
      lower (strip answer) <> "call" /\ lower (strip answer) <> "put"
  end.
Proof.
  intros _.
  destruct (script_outcome answer) as [[Ht ->]|[[Ht ->]|(Hc & Hp & ->)]].
  - split; [now rewrite Ht|]. split; [now left|].
    split; [apply black_scholes_call_fin; lra|].
    eexists. split; [reflexivity|]. apply call_price_nonneg; lra.
  - split; [now rewrite Ht|]. split; [now right|].
    split; [apply black_scholes_put_fin; lra|].
    eexists. split; [reflexivity|]. apply put_price_nonneg; lra.
  - now split.
Qed.

Lemma option_price_script_outcome_witness :
  match option_price_script " Put " with
  | price_line option_type price =>
      option_type = lower (strip " Put ")
      /\ (option_type = "call" \/ option_type = "put")
      /\ ImpliedVol.black_scholes (Fin 100) (Fin 105) (Fin 2) (Fin 0.05)
           (Fin 0.2) option_type = Return price
      /\ exists x : R, price = Fin x /\ 0 <= x
  | invalid_line =>
      lower (strip " Put ") <> "call" /\ lower (strip " Put ") <> "put"
  end.
Proof. apply option_price_script_outcome. reflexivity. Defined.

(** X23.  For ASCII answers, the first part of main.py looks neither at
    the whitespace around the answer nor at the case of its letters: an
    answer padded with whitespace prints what any answer with the same
    lower-case form prints. *)
Theorem option_price_script_ignores_case_and_padding
  (before after answer other : string) :
  isascii (before ++ answer ++ after) = true -> isascii other = true ->
  blank before = true -> blank after = true ->
  lower answer = lower other ->
  option_price_script (before ++ answer ++ after)
  = option_price_script other.
Proof.
  intros _ _ Ha Hb Hl. rewrite script_ignores_padding by assumption.
  now apply script_depends_on_lower.
Qed.

Lemma option_price_script_ignores_case_and_padding_witness :
  option_price_script ("  " ++ "CaLL" ++ " ") = option_price_script "call".
Proof.
  apply option_price_script_ignores_case_and_padding; reflexivity.
Defined.

End ScriptBehaviour.
